(** * Topo language front end: lexer and recursive-descent parser

    A shallow embedding of [src/1.2/lexer.c], [src/1.2/parser.c] and the AST
    constructors of [ast.c], followed by the properties of the front end.

    Conventions of the embedding.
    - A C string is a [string]; the byte [NUL] ends it, so every read of a
      [char*] as text goes through [c_str] (what [strdup], [strcmp] and
      [printf("%s")] see).
    - [int] and [long] fields are [Z]; the byte cursor, which only grows and
      never passes the terminator, is a [nat].  Sources are assumed shorter
      than [INT_MAX] bytes, so no counter wraps.
    - [malloc], [calloc] and [strdup] are assumed to succeed; the text written
      to [stderr] is not modelled.  A token's text is a value; where the
      parser reads a text that [lexer_skip] has freed, what it finds is left
      open ([stale], with the rules of the parser).
    - A [double] is a [spec_float] of the binary64 format. *)

From Stdlib Require Import ZArith NArith List String Ascii Bool Lia QArith Qabs.
From Stdlib Require Import SpecFloat.
Import ListNotations.

Local Open Scope string_scope.
Local Open Scope Z_scope.

(** ** The C library, as far as the lexer uses it *)

Module C.

Definition NUL : ascii := "000"%char.

(** The value of a byte as [unsigned char]. *)
Definition code (c : ascii) : N := N_of_ascii c.

Definition in_range (lo hi : ascii) (c : ascii) : bool :=
  (code lo <=? code c)%N && (code c <=? code hi)%N.

(** [<ctype.h>]; bytes above 127 are in no class (single bytes of a UTF-8
    locale). *)
Definition isdigit (c : ascii) : bool := in_range "0" "9" c.
Definition isalpha (c : ascii) : bool := in_range "a" "z" c || in_range "A" "Z" c.
Definition isalnum (c : ascii) : bool := isalpha c || isdigit c.
Definition isxdigit (c : ascii) : bool :=
  isdigit c || in_range "a" "f" c || in_range "A" "F" c.
Definition isspace (c : ascii) : bool :=
  (c =? " ")%char || in_range "009" "013" c.

(** The text of a [char*]: the bytes before the first [NUL]. *)
Fixpoint c_str (s : string) : string :=
  match s with
  | EmptyString => EmptyString
  | String c r => if (c =? NUL)%char then EmptyString else String c (c_str r)
  end.

Definition LONG_MAX : Z := 2 ^ 63 - 1.
Definition LONG_MIN : Z := - 2 ^ 63.

(** The value of [c] as a digit, in any base up to 36. *)
Definition digit_value (c : ascii) : option Z :=
  if isdigit c then Some (Z.of_N (code c) - 48)
  else if in_range "a" "z" c then Some (Z.of_N (code c) - 97 + 10)
  else if in_range "A" "Z" c then Some (Z.of_N (code c) - 65 + 10)
  else None.

Fixpoint skip_space (s : string) : string :=
  match s with
  | String c r => if isspace c then skip_space r else s
  | EmptyString => s
  end.

(** The longest run of digits of [base] at the head of [s], accumulated from
    [acc]. *)
Fixpoint digits_value (base : Z) (acc : Z) (s : string) : Z :=
  match s with
  | String c r =>
      match digit_value c with
      | Some d => if d <? base then digits_value base (acc * base + d) r else acc
      | None => acc
      end
  | EmptyString => acc
  end.

(** [strtol(s, NULL, base)] for [base] in 2..36: blanks, a sign, for base 16 a
    [0x] prefix, then digits; out of range saturates. *)
Definition strtol (s : string) (base : Z) : Z :=
  let s := skip_space (c_str s) in
  let '(neg, s) :=
    match s with
    | String "-" r => (true, r)
    | String "+" r => (false, r)
    | _ => (false, s)
    end in
  let s :=
    match s with
    | String "0" (String x r) =>
        if (base =? 16) && ((x =? "x")%char || (x =? "X")%char) then r else s
    | _ => s
    end in
  let v := digits_value base 0 s in
  let v := if neg then - v else v in
  Z.max LONG_MIN (Z.min LONG_MAX v).

Definition atol (s : string) : Z := strtol s 10.

(** *** [atof]

    Only the decimal syntax is modelled (the lexer passes digits, one ['.'],
    an exponent marker and a sign; never a hexadecimal float, [inf] or
    [nan]).  The decimal value is rounded to nearest-even in binary64. *)

Definition prec : Z := 53.
Definition emax : Z := 1024.

Fixpoint span_digits (s : string) : string * string :=
  match s with
  | String c r =>
      if isdigit c then let '(d, t) := span_digits r in (String c d, t)
      else (EmptyString, s)
  | EmptyString => (EmptyString, EmptyString)
  end.

Definition decimal_of (d : string) : Z := digits_value 10 0 d.

(** The exact value [m * 10 ^ e] as a binary64 number. *)
Definition double_of_decimal (neg : bool) (m e : Z) : spec_float :=
  match m with
  | Zpos p =>
      if 0 <=? e then binary_normalize prec emax (if neg then - (m * 10 ^ e) else m * 10 ^ e) 0 neg
      else
        match 10 ^ (- e) with
        | Zpos q => SFdiv prec emax (S754_finite neg p 0) (S754_finite false q 0)
        | _ => S754_nan
        end
  | _ => S754_zero neg
  end.

Definition atof (s : string) : spec_float :=
  let s := skip_space (c_str s) in
  let '(neg, s) :=
    match s with
    | String "-" r => (true, r)
    | String "+" r => (false, r)
    | _ => (false, s)
    end in
  let '(ip, s1) := span_digits s in
  let '(fp, s2) :=
    match s1 with
    | String "." r => span_digits r
    | _ => (EmptyString, s1)
    end in
  match ip ++ fp with
  | EmptyString => S754_zero false
  | mant =>
      let ex :=
        match s2 with
        | String x r =>
            if (x =? "e")%char || (x =? "E")%char then
              let '(eneg, r) :=
                match r with
                | String "-" r' => (true, r')
                | String "+" r' => (false, r')
                | _ => (false, r)
                end in
              let '(ed, _) := span_digits r in
              if eneg then - decimal_of ed else decimal_of ed
            else 0
        | EmptyString => 0
        end in
      double_of_decimal neg (decimal_of mant) (ex - Z.of_nat (String.length fp))
  end.

(** The rational a finite binary64 number stands for. *)
Definition Q_of_double (x : spec_float) : option Q :=
  match x with
  | S754_zero _ => Some 0%Q
  | S754_finite s m e =>
      let v := if 0 <=? e then inject_Z (Zpos m * 2 ^ e) else (Zpos m # Z.to_pos (2 ^ (- e)))%Q in
      Some (if s then Qopp v else v)
  | _ => None
  end.

End C.

Import C.

(** ** Tokens ([lexer.h]) *)

Inductive TokenType : Set :=
  | TOKEN_VAR | TOKEN_CONST | TOKEN_FUNC | TOKEN_IF | TOKEN_ELSE | TOKEN_ELIF
  | TOKEN_WHILE | TOKEN_FOR | TOKEN_IN | TOKEN_RETURN | TOKEN_TRUE | TOKEN_FALSE
  | TOKEN_NULL | TOKEN_AND | TOKEN_OR | TOKEN_NOT | TOKEN_BREAK | TOKEN_CONTINUE
  | TOKEN_CONSOLE | TOKEN_INPUT | TOKEN_LEN | TOKEN_APPEND | TOKEN_POP
  | TOKEN_KEYS | TOKEN_VALUES | TOKEN_TYPE | TOKEN_INT | TOKEN_FLOAT_FUNC
  | TOKEN_STR | TOKEN_BOOL | TOKEN_ARRAY | TOKEN_DICT | TOKEN_RANGE
  | TOKEN_FROM | TOKEN_USING
  | TOKEN_IDENTIFIER | TOKEN_NUMBER_INT | TOKEN_NUMBER_FLOAT | TOKEN_STRING
  | TOKEN_OPERATOR | TOKEN_PUNCTUATION | TOKEN_NEWLINE | TOKEN_EOF | TOKEN_ERROR.

Scheme Equality for TokenType.

Declare Scope token_scope.
Delimit Scope token_scope with tok.
Notation "a =? b" := (TokenType_beq a b) : token_scope.

Record Token : Set := mkToken {
  tok_type : TokenType;
  tok_value : option string;     (* NULL or an owned copy of the text *)
  tok_int_val : Z;
  tok_float_val : spec_float;
  tok_line : Z;
  tok_column : Z;
  tok_length : Z
}.

Definition double_zero : spec_float := S754_zero false.

(** A [Token] of zeroed memory, as [calloc] leaves it. *)
Definition zero_token : Token :=
  mkToken TOKEN_VAR None 0 double_zero 0 0 0.

(** ** Lexer state *)

Definition MAX_STRING_LENGTH : Z := 4096.
Definition MAX_IDENTIFIER_LENGTH : Z := 128.
Definition MAX_LOOKAHEAD : Z := 2.

(** [string_buffer] holds the bytes written so far; [string_buffer_pos] is its
    length.  [filename] only appears in diagnostics and is left out. *)
Record Lexer : Set := mkLexer {
  source : string;
  position : nat;
  line : Z;
  column : Z;
  start_position : nat;
  start_line : Z;
  start_column : Z;
  current : Token;
  lookahead : Token * Token;
  lookahead_pos : Z;
  has_error : bool;
  error_msg : string;
  string_buffer : string
}.

Definition string_buffer_pos (lx : Lexer) : Z :=
  Z.of_nat (String.length (string_buffer lx)).

Definition set_cursor (lx : Lexer) (pos : nat) (ln col : Z) : Lexer :=
  mkLexer (source lx) pos ln col
          (start_position lx) (start_line lx) (start_column lx)
          (current lx) (lookahead lx) (lookahead_pos lx)
          (has_error lx) (error_msg lx) (string_buffer lx).

Definition set_current (lx : Lexer) (t : Token) : Lexer :=
  mkLexer (source lx) (position lx) (line lx) (column lx)
          (start_position lx) (start_line lx) (start_column lx)
          t (lookahead lx) (lookahead_pos lx)
          (has_error lx) (error_msg lx) (string_buffer lx).

Definition set_lookahead (lx : Lexer) (la : Token * Token) (n : Z) : Lexer :=
  mkLexer (source lx) (position lx) (line lx) (column lx)
          (start_position lx) (start_line lx) (start_column lx)
          (current lx) la n
          (has_error lx) (error_msg lx) (string_buffer lx).

Definition set_string_buffer (lx : Lexer) (b : string) : Lexer :=
  mkLexer (source lx) (position lx) (line lx) (column lx)
          (start_position lx) (start_line lx) (start_column lx)
          (current lx) (lookahead lx) (lookahead_pos lx)
          (has_error lx) (error_msg lx) b.

(** The two slots of [lookahead]; the code only indexes them with 0 and 1. *)
Definition slot (la : Token * Token) (i : Z) : Token :=
  if i =? 0 then fst la else snd la.

Definition set_slot (la : Token * Token) (i : Z) (t : Token) : Token * Token :=
  if i =? 0 then (t, snd la) else (fst la, t).

(** ** Tables *)

Definition keyword_table : list (string * TokenType) :=
  [ ("var", TOKEN_VAR); ("const", TOKEN_CONST); ("func", TOKEN_FUNC);
    ("if", TOKEN_IF); ("else", TOKEN_ELSE); ("elif", TOKEN_ELIF);
    ("while", TOKEN_WHILE); ("for", TOKEN_FOR); ("in", TOKEN_IN);
    ("return", TOKEN_RETURN); ("break", TOKEN_BREAK);
    ("continue", TOKEN_CONTINUE);
    ("true", TOKEN_TRUE); ("false", TOKEN_FALSE); ("null", TOKEN_NULL);
    ("and", TOKEN_AND); ("or", TOKEN_OR); ("not", TOKEN_NOT);
    ("console", TOKEN_CONSOLE); ("input", TOKEN_INPUT); ("len", TOKEN_LEN);
    ("append", TOKEN_APPEND); ("pop", TOKEN_POP); ("keys", TOKEN_KEYS);
    ("values", TOKEN_VALUES); ("type", TOKEN_TYPE); ("int", TOKEN_INT);
    ("float", TOKEN_FLOAT_FUNC); ("str", TOKEN_STR); ("bool", TOKEN_BOOL);
    ("array", TOKEN_ARRAY); ("dict", TOKEN_DICT); ("range", TOKEN_RANGE);
    ("from", TOKEN_FROM); ("using", TOKEN_USING) ].

Record Operator : Set := mkOperator {
  op_str : string;
  op_length : nat;
  op_type : TokenType
}.

Definition two_char_operators : list string :=
  [ "=="; "!="; "<="; ">="; "&&"; "||"; "+="; "-="; "*="; "/="; "%=" ].

Definition one_char_operators : list string :=
  [ "+"; "-"; "*"; "/"; "%"; "="; "<"; ">"; "!"; "&"; "|"; "^"; "~" ].

Definition operator_table : list Operator :=
  map (fun s => mkOperator s 2 TOKEN_OPERATOR) two_char_operators ++
  map (fun s => mkOperator s 1 TOKEN_OPERATOR) one_char_operators.

Definition punctuation_chars : string := "(){}[].,;:".

(** ** Lexer functions ([lexer.c]) *)

Definition lexer_create (src : string) : Lexer :=
  mkLexer src 0 1 1 0 1 1
          (mkToken TOKEN_EOF None 0 double_zero 1 1 0)
          (zero_token, zero_token) 0 false "" "".

(** [vsnprintf] into [error_msg] (256 bytes), then the flag. *)
Definition lexer_error (lx : Lexer) (msg : string) : Lexer :=
  mkLexer (source lx) (position lx) (line lx) (column lx)
          (start_position lx) (start_line lx) (start_column lx)
          (current lx) (lookahead lx) (lookahead_pos lx)
          true (substring 0 255 (c_str msg)) (string_buffer lx).

(** [source[position + offset]]; past the end of the text every byte reads as
    the terminator. *)
Definition lexer_peek_at (lx : Lexer) (offset : nat) : ascii :=
  match String.get (position lx + offset) (source lx) with
  | Some c => c
  | None => NUL
  end.

Definition lexer_peek (lx : Lexer) : ascii := lexer_peek_at lx 0.

Definition lexer_advance (lx : Lexer) : ascii * Lexer :=
  let c := lexer_peek lx in
  if (c =? NUL)%char then (NUL, lx)
  else if (c =? "010")%char
       then (c, set_cursor lx (S (position lx)) (line lx + 1) 1)
       else (c, set_cursor lx (S (position lx)) (line lx) (column lx + 1)).

Definition advance (lx : Lexer) : Lexer := snd (lexer_advance lx).

(** Every loop of the lexer consumes at least one byte per iteration, so the
    bytes left to read, plus one, bound its iterations. *)
Definition remaining (lx : Lexer) : nat :=
  String.length (source lx) - position lx.

Definition budget (lx : Lexer) : nat := S (remaining lx).

Fixpoint skip_whitespace_loop (fuel : nat) (lx : Lexer) : Lexer :=
  match fuel with
  | O => lx
  | S fuel =>
      let c := lexer_peek lx in
      if (c =? NUL)%char then lx
      else if (c =? " ")%char || (c =? "009")%char || (c =? "013")%char
           then skip_whitespace_loop fuel (advance lx)
           else lx
  end.

Definition lexer_skip_whitespace (lx : Lexer) : Lexer :=
  skip_whitespace_loop (budget lx) lx.

Definition lexer_start_token (lx : Lexer) : Lexer :=
  mkLexer (source lx) (position lx) (line lx) (column lx)
          (position lx) (line lx) (column lx)
          (current lx) (lookahead lx) (lookahead_pos lx)
          (has_error lx) (error_msg lx) (string_buffer lx).

Definition lexer_make_token (lx : Lexer) (type : TokenType)
    (value : option string) : Token :=
  mkToken type (option_map c_str value) 0 double_zero
          (start_line lx) (start_column lx)
          (Z.of_nat (position lx) - Z.of_nat (start_position lx)).

Definition set_int_val (t : Token) (v : Z) : Token :=
  mkToken (tok_type t) (tok_value t) v (tok_float_val t)
          (tok_line t) (tok_column t) (tok_length t).

Definition set_float_val (t : Token) (v : spec_float) : Token :=
  mkToken (tok_type t) (tok_value t) (tok_int_val t) v
          (tok_line t) (tok_column t) (tok_length t).

Definition set_length (t : Token) (n : Z) : Token :=
  mkToken (tok_type t) (tok_value t) (tok_int_val t) (tok_float_val t)
          (tok_line t) (tok_column t) n.

Definition set_value (t : Token) (v : option string) : Token :=
  mkToken (tok_type t) v (tok_int_val t) (tok_float_val t)
          (tok_line t) (tok_column t) (tok_length t).

Definition lexer_make_number_token (lx : Lexer) (text : string)
    (is_float is_hex is_binary : bool) : Token :=
  let token :=
    lexer_make_token lx (if is_float then TOKEN_NUMBER_FLOAT else TOKEN_NUMBER_INT)
                     (Some text) in
  if is_float then set_float_val token (atof text)
  else if is_hex then set_int_val token (strtol text 16)
  else if is_binary then set_int_val token (strtol (substring 2 (String.length text - 2) text) 2)
  else set_int_val token (atol text).

(** *** Comments *)

Fixpoint line_comment_loop (fuel : nat) (lx : Lexer) : Lexer :=
  match fuel with
  | O => lx
  | S fuel =>
      if negb (lexer_peek lx =? "010")%char && negb (lexer_peek lx =? NUL)%char
      then line_comment_loop fuel (advance lx)
      else lx
  end.

Definition lexer_skip_line_comment (lx : Lexer) : bool * Lexer :=
  if (lexer_peek_at lx 0 =? "/")%char && (lexer_peek_at lx 1 =? "/")%char
  then (true, line_comment_loop (budget lx) (advance (advance lx)))
  else (false, lx).

(** The loop of [lexer_skip_block_comment]; it returns the depth it stops
    at. *)
Fixpoint block_comment_loop (fuel : nat) (depth : Z) (lx : Lexer) : Z * Lexer :=
  match fuel with
  | O => (depth, lx)
  | S fuel =>
      if (depth >? 0) && negb (lexer_peek lx =? NUL)%char then
        if (lexer_peek_at lx 0 =? "/")%char && (lexer_peek_at lx 1 =? "*")%char
        then block_comment_loop fuel (depth + 1) (advance (advance lx))
        else if (lexer_peek_at lx 0 =? "*")%char && (lexer_peek_at lx 1 =? "/")%char
        then block_comment_loop fuel (depth - 1) (advance (advance lx))
        else
          let lx :=
            if (lexer_peek lx =? "010")%char
            then set_cursor lx (position lx) (line lx + 1) 0
            else lx in
          block_comment_loop fuel depth (advance lx)
      else (depth, lx)
  end.

Definition lexer_skip_block_comment (lx : Lexer) : bool * Lexer :=
  if (lexer_peek_at lx 0 =? "/")%char && (lexer_peek_at lx 1 =? "*")%char
  then
    let '(depth, lx) := block_comment_loop (budget lx) 1 (advance (advance lx)) in
    (true, if depth >? 0 then lexer_error lx "Unclosed multi-line comment" else lx)
  else (false, lx).

(** The text of the token being scanned:
    [strncpy(text, source + start_position, position - start_position)]. *)
Definition lexeme (lx : Lexer) : string :=
  substring (start_position lx) (position lx - start_position lx) (source lx).

(** *** Numbers *)

(** The [while (1)] of [lexer_read_number]; it returns [is_float]. *)
Fixpoint number_loop (fuel : nat) (is_hex is_binary is_float has_exponent : bool)
    (lx : Lexer) : bool * Lexer :=
  match fuel with
  | O => (is_float, lx)
  | S fuel =>
      let c := lexer_peek lx in
      if is_hex then
        if negb (isxdigit c) then (is_float, lx)
        else number_loop fuel is_hex is_binary is_float has_exponent (advance lx)
      else if is_binary then
        if negb (c =? "0")%char && negb (c =? "1")%char then (is_float, lx)
        else number_loop fuel is_hex is_binary is_float has_exponent (advance lx)
      else if (c =? ".")%char then
        if is_float || has_exponent
        then (is_float, lexer_error lx "Invalid number format")
        else number_loop fuel is_hex is_binary true has_exponent (advance lx)
      else if (c =? "e")%char || (c =? "E")%char then
        if has_exponent
        then (is_float, lexer_error lx "Invalid number format")
        else
          let next := lexer_peek_at lx 1 in
          if (next =? "+")%char || (next =? "-")%char
          then number_loop fuel is_hex is_binary true true (advance (advance lx))
          else number_loop fuel is_hex is_binary true true (advance lx)
      else if negb (isdigit c) then (is_float, lx)
      else number_loop fuel is_hex is_binary is_float has_exponent (advance lx)
  end.

Definition lexer_read_number (lx : Lexer) : Token * Lexer :=
  let lx := lexer_start_token lx in
  let '(is_hex, is_binary, lx) :=
    if (lexer_peek lx =? "0")%char then
      let next := lexer_peek_at lx 1 in
      if (next =? "x")%char || (next =? "X")%char
      then (true, false, advance (advance lx))
      else if (next =? "b")%char || (next =? "B")%char
      then (false, true, advance (advance lx))
      else (false, false, lx)
    else (false, false, lx) in
  let '(is_float, lx) := number_loop (budget lx) is_hex is_binary false false lx in
  (lexer_make_number_token lx (lexeme lx) is_float is_hex is_binary, lx).

(** *** Strings *)

(** The [for] of the [\u] escape: up to [n] bytes are consumed, stopping after
    the first that is no hexadecimal digit. *)
Fixpoint unicode_escape_loop (n : nat) (lx : Lexer) : Lexer :=
  match n with
  | O => lx
  | S n =>
      let '(h, lx) := lexer_advance lx in
      if negb (isxdigit h) then lexer_error lx "Invalid Unicode escape"
      else unicode_escape_loop n lx
  end.

(** [(char) v]: the low eight bits. *)
Definition char_of_long (v : Z) : ascii := ascii_of_N (Z.to_N (v mod 256)).

(** The [switch] on the byte after a backslash; [c] is the backslash. *)
Definition read_escape (c : ascii) (lx : Lexer) : ascii * Lexer :=
  let '(next, lx) := lexer_advance lx in
  if (next =? "n")%char then ("010"%char, lx)
  else if (next =? "t")%char then ("009"%char, lx)
  else if (next =? "r")%char then ("013"%char, lx)
  else if (next =? "034")%char then ("034"%char, lx)
  else if (next =? "'")%char then ("'"%char, lx)
  else if (next =? "\")%char then ("\"%char, lx)
  else if (next =? "0")%char then (NUL, lx)
  else if (next =? "x")%char then
    let '(h0, lx) := lexer_advance lx in
    let '(h1, lx) := lexer_advance lx in
    (char_of_long (strtol (String h0 (String h1 EmptyString)) 16), lx)
  else if (next =? "u")%char then ("?"%char, unicode_escape_loop 4 lx)
  else (c, lexer_error lx ("Unknown escape sequence: \" ++ String next EmptyString)).

Fixpoint string_loop (fuel : nat) (quote : ascii) (lx : Lexer) : Lexer :=
  match fuel with
  | O => lx
  | S fuel =>
      if negb (lexer_peek lx =? quote)%char && negb (lexer_peek lx =? NUL)%char then
        let '(c, lx) := lexer_advance lx in
        let '(c, lx) := if (c =? "\")%char then read_escape c lx else (c, lx) in
        if string_buffer_pos lx >=? MAX_STRING_LENGTH - 1
        then lexer_error lx "String too long"
        else string_loop fuel quote
               (set_string_buffer lx (string_buffer lx ++ String c EmptyString))
      else lx
  end.

Definition lexer_read_string (lx : Lexer) : Token * Lexer :=
  let lx := lexer_start_token lx in
  let '(quote, lx) := lexer_advance lx in
  let lx := set_string_buffer lx "" in
  let lx := string_loop (budget lx) quote lx in
  if negb (lexer_peek lx =? quote)%char then
    let lx := lexer_error lx "Unclosed string" in
    (set_length (lexer_make_token lx TOKEN_ERROR (Some "Unclosed string")) 0, lx)
  else
    let lx := advance lx in
    (lexer_make_token lx TOKEN_STRING (Some (string_buffer lx)), lx).

(** *** Identifiers and keywords *)

Definition utf8_char_length (c : ascii) : Z :=
  let n := code c in
  if (N.land n 128 =? 0)%N then 1
  else if (N.land n 224 =? 192)%N then 2
  else if (N.land n 240 =? 224)%N then 3
  else if (N.land n 248 =? 240)%N then 4
  else 1.

Definition is_identifier_start (c : ascii) : bool :=
  if isalpha c || (c =? "_")%char then true
  else if (192 <=? code c)%N then 2 <=? utf8_char_length c
  else false.

Definition is_identifier_char (c : ascii) : bool :=
  if isalnum c || (c =? "_")%char then true
  else if (128 <=? code c)%N then true
  else false.

Fixpoint identifier_loop (fuel : nat) (lx : Lexer) : Lexer :=
  match fuel with
  | O => lx
  | S fuel =>
      if is_identifier_char (lexer_peek lx) then
        if Z.of_nat (position lx) - Z.of_nat (start_position lx) >=? MAX_IDENTIFIER_LENGTH
        then lexer_error lx "Identifier too long"
        else identifier_loop fuel (advance lx)
      else lx
  end.

Fixpoint keyword_lookup (table : list (string * TokenType)) (text : string)
    : option TokenType :=
  match table with
  | [] => None
  | (kw, ty) :: rest =>
      if String.eqb (c_str text) kw then Some ty else keyword_lookup rest text
  end.

Definition lexer_read_identifier (lx : Lexer) : Token * Lexer :=
  let lx := lexer_start_token lx in
  let lx := advance lx in
  let lx := identifier_loop (budget lx) lx in
  let text := lexeme lx in
  match keyword_lookup keyword_table text with
  | Some ty => (lexer_make_token lx ty None, lx)
  | None => (lexer_make_token lx TOKEN_IDENTIFIER (Some text), lx)
  end.

(** *** Operators *)

(** The inner [for] of [lexer_read_operator]: do the first [op_length] bytes
    of the operator stand at the cursor? *)
Fixpoint operator_matches_from (lx : Lexer) (j : nat) (n : nat) (str : string) : bool :=
  match n with
  | O => true
  | S n =>
      match String.get j str with
      | Some c =>
          if (lexer_peek_at lx j =? c)%char
          then operator_matches_from lx (S j) n str
          else false
      | None => (lexer_peek_at lx j =? NUL)%char && operator_matches_from lx (S j) n str
      end
  end.

Definition operator_matches (lx : Lexer) (op : Operator) : bool :=
  operator_matches_from lx 0 (op_length op) (op_str op).

Fixpoint best_operator (lx : Lexer) (table : list Operator) (best_op : option Operator)
    : option Operator :=
  match table with
  | [] => best_op
  | op :: rest =>
      let best_op :=
        if operator_matches lx op then
          match best_op with
          | None => Some op
          | Some b => if (op_length b <? op_length op)%nat then Some op else best_op
          end
        else best_op in
      best_operator lx rest best_op
  end.

Fixpoint advance_n (n : nat) (lx : Lexer) : Lexer :=
  match n with
  | O => lx
  | S n => advance_n n (advance lx)
  end.

Definition lexer_read_operator (lx : Lexer) : Token * Lexer :=
  let lx := lexer_start_token lx in
  match best_operator lx operator_table None with
  | Some best_op =>
      let lx := advance_n (op_length best_op) lx in
      (lexer_make_token lx TOKEN_OPERATOR (Some (op_str best_op)), lx)
  | None =>
      let c := lexer_peek lx in
      let lx := lexer_error lx ("Unknown operator: '" ++ String c "'") in
      let lx := advance lx in
      (set_length (lexer_make_token lx TOKEN_ERROR (Some "Unknown operator")) 0, lx)
  end.

(** *** The next token *)

(** The head of the [while (1)] of [lexer_next]: blanks and comments are
    skipped until neither a line nor a block comment starts at the cursor. *)
Fixpoint skip_blanks_and_comments (fuel : nat) (lx : Lexer) : Lexer :=
  match fuel with
  | O => lx
  | S fuel =>
      let lx := lexer_skip_whitespace lx in
      let '(skipped, lx) := lexer_skip_line_comment lx in
      if skipped then skip_blanks_and_comments fuel lx
      else
        let '(skipped, lx) := lexer_skip_block_comment lx in
        if skipped then skip_blanks_and_comments fuel lx
        else lx
  end.

Definition starts_operator (c : ascii) : bool :=
  existsb (fun op => match String.get 0 (op_str op) with
                     | Some c0 => (c =? c0)%char
                     | None => (c =? NUL)%char
                     end) operator_table.

(** [strchr(s, c) != NULL] for a byte [c] other than the terminator. *)
Fixpoint strchr (s : string) (c : ascii) : bool :=
  match s with
  | EmptyString => false
  | String c0 r => (c =? c0)%char || strchr r c
  end.

Definition hex_digit (n : N) : ascii :=
  if (n <? 10)%N then ascii_of_N (48 + n) else ascii_of_N (87 + n).

(** The [%02x] of a byte. *)
Definition hex02 (c : ascii) : string :=
  String (hex_digit (code c / 16)) (String (hex_digit (code c mod 16)) EmptyString).

(** The scan of one token at the cursor, once the lookahead queue is empty. *)
Definition lexer_scan (lx : Lexer) : Token * Lexer :=
  let lx := skip_blanks_and_comments (budget lx) lx in
  if (lexer_peek lx =? NUL)%char then (lexer_make_token lx TOKEN_EOF None, lx)
  else if (lexer_peek lx =? "010")%char then
    let lx := advance (lexer_start_token lx) in
    (lexer_make_token lx TOKEN_NEWLINE (Some (String "010" EmptyString)), lx)
  else
    let c := lexer_peek lx in
    if isdigit c || ((c =? ".")%char && isdigit (lexer_peek_at lx 1))
    then lexer_read_number lx
    else if (c =? "034")%char || (c =? "'")%char then lexer_read_string lx
    else if is_identifier_start c then lexer_read_identifier lx
    else if starts_operator (lexer_peek_at lx 0) then lexer_read_operator lx
    else if strchr punctuation_chars c then
      let lx := lexer_start_token lx in
      let '(p, lx) := lexer_advance lx in
      (lexer_make_token lx TOKEN_PUNCTUATION (Some (String p EmptyString)), lx)
    else
      let lx := lexer_start_token lx in
      let lx := lexer_error lx
        ("Unknown character: '" ++ String c "' (0x" ++ hex02 c ++ ")") in
      let lx := advance lx in
      (set_length (lexer_make_token lx TOKEN_ERROR (Some "Unknown character")) 0, lx).

(** [lexer_next]: a queued lookahead token is handed out first (the queue
    shifts down and the text pointer of its last slot is cleared). *)
Definition lexer_next (lx : Lexer) : Token * Lexer :=
  if lookahead_pos lx >? 0 then
    let token := slot (lookahead lx) 0 in
    let la := set_slot (lookahead lx) 0 (slot (lookahead lx) 1) in
    let la := set_slot la 1 (set_value (slot la 1) None) in
    (token, set_lookahead lx la (lookahead_pos lx - 1))
  else lexer_scan lx.

(** The result of a call that may not return: [None] when [fuel] iterations
    were not enough. *)
Fixpoint peek_fill_loop (fuel : nat) (lx : Lexer) (k : Z) : option Lexer :=
  if lookahead_pos lx <=? k then
    match fuel with
    | O => None
    | S fuel =>
        let '(token, lx) := lexer_next lx in
        peek_fill_loop fuel
          (set_lookahead lx (set_slot (lookahead lx) (lookahead_pos lx) token)
                         (lookahead_pos lx + 1)) k
    end
  else Some lx.

Definition lexer_peek_token (fuel : nat) (lx : Lexer) (k : Z)
    : option (Token * Lexer) :=
  if (k <? 0) || (k >=? MAX_LOOKAHEAD) then
    Some (mkToken TOKEN_ERROR None 0 double_zero 0 0 0, lx)
  else
    match peek_fill_loop fuel lx k with
    | Some lx => Some (slot (lookahead lx) k, lx)
    | None => None
    end.

Definition lexer_current (lx : Lexer) : Token :=
  if lookahead_pos lx >? 0 then slot (lookahead lx) 0 else current lx.

Definition lexer_skip (lx : Lexer) : Lexer :=
  if lookahead_pos lx >? 0 then
    let la := set_slot (lookahead lx) 0 (slot (lookahead lx) 1) in
    let la := set_slot la 1 (set_value (slot la 1) None) in
    set_lookahead lx la (lookahead_pos lx - 1)
  else
    let '(token, lx) := lexer_next lx in
    set_current lx token.

(** All the tokens of a source, up to and including the first [TOKEN_EOF] or
    [TOKEN_ERROR], as the [do ... while] of the drivers reads them. *)
Fixpoint lex_all (fuel : nat) (lx : Lexer) : list Token * Lexer :=
  match fuel with
  | O => ([], lx)
  | S fuel =>
      let '(t, lx) := lexer_next lx in
      if (tok_type t =? TOKEN_EOF)%tok || (tok_type t =? TOKEN_ERROR)%tok
      then ([t], lx)
      else let '(ts, lx) := lex_all fuel lx in (t :: ts, lx)
  end.

(** ** The syntax tree ([ast.h], [ast.c]) *)

Inductive NodeType : Set :=
  | NODE_PROGRAM | NODE_BLOCK | NODE_VAR_DECL | NODE_CONST_DECL | NODE_FUNC_DECL
  | NODE_IF_STMT | NODE_ELIF_STMT | NODE_ELSE_STMT | NODE_WHILE_STMT
  | NODE_FOR_STMT | NODE_RETURN_STMT | NODE_BREAK_STMT | NODE_CONTINUE_STMT
  | NODE_EXPR_STMT | NODE_FROM_IMPORT
  | NODE_BINARY_EXPR | NODE_UNARY_EXPR | NODE_LITERAL | NODE_IDENTIFIER
  | NODE_ASSIGNMENT | NODE_CALL_EXPR | NODE_ARRAY_LITERAL | NODE_DICT_LITERAL
  | NODE_MEMBER_ACCESS | NODE_INDEX_ACCESS | NODE_RANGE_EXPR
  | NODE_TYPE_ANNOTATION.

Inductive DataType : Set :=
  | TYPE_INT | TYPE_FLOAT | TYPE_STRING | TYPE_BOOL | TYPE_ARRAY | TYPE_DICT
  | TYPE_FUNCTION | TYPE_NULL | TYPE_ANY.

(** The member of the [LiteralValue] union that was written. *)
Inductive LiteralValue : Set :=
  | int_val (v : Z)
  | float_val (v : spec_float)
  | string_val (v : option string)
  | bool_val (v : bool)
  | no_val.

(** A node: the common fields, then the member of the payload union its
    constructor fills in ([zeroed] where it fills none).  An absent child is
    [None]. *)
#[warnings="-register-all"] Inductive ASTNode : Set :=
  | Node (type : NodeType) (line column : Z) (name : option string)
         (next : option ASTNode) (payload : Payload)
with Payload : Set :=
  | zeroed
  | decl (data_type : DataType) (value : option ASTNode) (is_const : bool)
  | flow (condition then_branch else_branch elif_branches : option ASTNode)
  | loop (body iterable : option ASTNode)
  | ret (value : option ASTNode)
  | block (statements : option ASTNode)
  | import (imports : list string) (import_count : Z) (import_all : bool)
  | binary (op : option string) (left right : option ASTNode)
  | unary (op : option string) (operand : option ASTNode)
  | literal (value : LiteralValue) (data_type : DataType)
  | identifier (id : option string)
  | assign (target value : option ASTNode)
  | call (callee arguments : option ASTNode) (arg_count : Z)
  | array (elements : option ASTNode) (element_count : Z)
  | dict (keys : list string) (values : option ASTNode) (pair_count : Z)
  | member (object : option ASTNode) (member_name : option string).

Definition node_type (n : ASTNode) : NodeType := let 'Node t _ _ _ _ _ := n in t.
Definition node_name (n : ASTNode) : option string := let 'Node _ _ _ nm _ _ := n in nm.
Definition node_next (n : ASTNode) : option ASTNode := let 'Node _ _ _ _ nx _ := n in nx.
Definition node_payload (n : ASTNode) : Payload := let 'Node _ _ _ _ _ p := n in p.

(** [strdup] of a nullable text. *)
Definition dup (s : option string) : option string := option_map c_str s.

Definition create_program_node (statements : option ASTNode) : ASTNode :=
  Node NODE_PROGRAM 0 0 None None (block statements).

Definition create_block_node (statements : option ASTNode) (ln col : Z) : ASTNode :=
  Node NODE_BLOCK ln col None None (block statements).

Definition create_var_decl_node (name : option string) (value : option ASTNode)
    (is_const : bool) (ln col : Z) : ASTNode :=
  Node (if is_const then NODE_CONST_DECL else NODE_VAR_DECL) ln col (dup name) None
       (decl TYPE_ANY value is_const).

Definition create_if_node (condition then_branch else_branch : option ASTNode)
    (ln col : Z) : ASTNode :=
  Node NODE_IF_STMT ln col None None (flow condition then_branch else_branch None).

Definition create_elif_node (condition then_branch : option ASTNode) (ln col : Z)
    : ASTNode :=
  Node NODE_ELIF_STMT ln col None None (flow condition then_branch None None).

Definition create_while_node (condition body : option ASTNode) (ln col : Z) : ASTNode :=
  Node NODE_WHILE_STMT ln col None None (flow condition body None None).

Definition create_for_node (iterator : option string) (iterable body : option ASTNode)
    (ln col : Z) : ASTNode :=
  Node NODE_FOR_STMT ln col (dup iterator) None (loop body iterable).

Definition create_return_node (value : option ASTNode) (ln col : Z) : ASTNode :=
  Node NODE_RETURN_STMT ln col None None (ret value).

Definition create_break_node (ln col : Z) : ASTNode :=
  Node NODE_BREAK_STMT ln col None None zeroed.

Definition create_continue_node (ln col : Z) : ASTNode :=
  Node NODE_CONTINUE_STMT ln col None None zeroed.

(** The expression is stored in [expr.binary.left]. *)
Definition create_expr_stmt_node (expr : option ASTNode) (ln col : Z) : ASTNode :=
  Node NODE_EXPR_STMT ln col None None (binary None expr None).

(** The module name is stored in the common [name] field. *)
Definition create_from_import_node (module_name : option string)
    (imports : list string) (import_count : Z) (import_all : bool) (ln col : Z)
    : ASTNode :=
  Node NODE_FROM_IMPORT ln col (dup module_name) None
       (import imports import_count import_all).

Definition create_binary_expr_node (op : option string) (left right : option ASTNode)
    (ln col : Z) : ASTNode :=
  Node NODE_BINARY_EXPR ln col None None (binary (dup op) left right).

Definition create_unary_expr_node (op : option string) (operand : option ASTNode)
    (ln col : Z) : ASTNode :=
  Node NODE_UNARY_EXPR ln col None None (unary (dup op) operand).

Definition create_literal_node_int (v : Z) (ln col : Z) : ASTNode :=
  Node NODE_LITERAL ln col None None (literal (int_val v) TYPE_INT).

Definition create_literal_node_float (v : spec_float) (ln col : Z) : ASTNode :=
  Node NODE_LITERAL ln col None None (literal (float_val v) TYPE_FLOAT).

Definition create_literal_node_string (v : option string) (ln col : Z) : ASTNode :=
  Node NODE_LITERAL ln col None None (literal (string_val (dup v)) TYPE_STRING).

Definition create_literal_node_bool (v : bool) (ln col : Z) : ASTNode :=
  Node NODE_LITERAL ln col None None (literal (bool_val v) TYPE_BOOL).

Definition create_literal_node_null (ln col : Z) : ASTNode :=
  Node NODE_LITERAL ln col None None (literal no_val TYPE_NULL).

Definition create_identifier_node (name : option string) (ln col : Z) : ASTNode :=
  Node NODE_IDENTIFIER ln col None None (identifier (dup name)).

Definition create_assignment_node (target value : option ASTNode) (ln col : Z)
    : ASTNode :=
  Node NODE_ASSIGNMENT ln col None None (assign target value).

Definition create_call_expr_node (callee arguments : option ASTNode) (arg_count : Z)
    (ln col : Z) : ASTNode :=
  Node NODE_CALL_EXPR ln col None None (call callee arguments arg_count).

Definition create_array_literal_node (elements : option ASTNode) (element_count : Z)
    (ln col : Z) : ASTNode :=
  Node NODE_ARRAY_LITERAL ln col None None (array elements element_count).

Definition create_dict_literal_node (keys : list string) (values : option ASTNode)
    (pair_count : Z) (ln col : Z) : ASTNode :=
  Node NODE_DICT_LITERAL ln col None None (dict keys values pair_count).

Definition create_member_access_node (object : option ASTNode)
    (member_name : option string) (ln col : Z) : ASTNode :=
  Node NODE_MEMBER_ACCESS ln col None None (member object (dup member_name)).

(** [add_next_statement(current, next)]: [current->next = next], nothing when
    either is NULL.  The result is the node [current] points to afterwards. *)
Definition add_next_statement (current next : option ASTNode) : option ASTNode :=
  match current, next with
  | Some (Node t l c nm _ p), Some n => Some (Node t l c nm (Some n) p)
  | _, _ => current
  end.

(** The write [last->next = stmt] seen from the head of the chain, where
    [last] is the last node of the chain. *)
Fixpoint add_after_last (head : ASTNode) (stmt : ASTNode) : ASTNode :=
  let 'Node t l c nm nx p := head in
  match nx with
  | None => Node t l c nm (Some stmt) p
  | Some n => Node t l c nm (Some (add_after_last n stmt)) p
  end.

(** The nodes of a [next] chain, in order. *)
Fixpoint chain (n : ASTNode) : list ASTNode :=
  let 'Node _ _ _ _ nx _ := n in
  match nx with
  | None => [n]
  | Some m => n :: chain m
  end.

Definition chain_of (n : option ASTNode) : list ASTNode :=
  match n with
  | Some n => chain n
  | None => []
  end.

(** ** The parser ([parser.c]) *)

Record Parser : Set := mkParser {
  lexer : Lexer;
  p_current : Token;
  p_has_error : bool;
  p_error_msg : string;
  p_error_line : Z;
  p_error_column : Z
}.

Definition parser_create (lx : Lexer) : Parser :=
  mkParser lx (lexer_current lx) false "" 0 0.

Definition parser_error (p : Parser) (msg : string) : Parser :=
  mkParser (lexer p) (p_current p) true (substring 0 255 (c_str msg))
           (tok_line (p_current p)) (tok_column (p_current p)).

Definition parser_advance (p : Parser) : Parser :=
  let lx := lexer_skip (lexer p) in
  mkParser lx (lexer_current lx) (p_has_error p) (p_error_msg p)
           (p_error_line p) (p_error_column p).

Definition parser_check (p : Parser) (type : TokenType) : bool :=
  (tok_type (p_current p) =? type)%tok.

Definition parser_check_value (p : Parser) (type : TokenType) (value : option string)
    : bool :=
  if negb (tok_type (p_current p) =? type)%tok then false
  else
    match value, tok_value (p_current p) with
    | Some v, Some cv => String.eqb (c_str cv) (c_str v)
    | None, None => true
    | _, _ => false
    end.

(** [parser_expect] reports a mismatch; it never moves the cursor. *)
Definition parser_expect (p : Parser) (type : TokenType) (value : option string)
    (msg : string) : bool * Parser :=
  if negb (parser_check_value p type value) then (false, parser_error p msg)
  else (true, p).

Definition parser_match (p : Parser) (type : TokenType) (value : option string)
    : bool * Parser :=
  if parser_check_value p type value then (true, parser_advance p)
  else (false, p).

(** [parser_match(..) || parser_match(..) || ...], left to right. *)
Fixpoint parser_match_any (p : Parser) (alts : list (TokenType * option string))
    : bool * Parser :=
  match alts with
  | [] => (false, p)
  | (type, value) :: rest =>
      let '(m, p) := parser_match p type value in
      if m then (true, p) else parser_match_any p rest
  end.

(** What a call of a parsing function comes to: it returns, it reads through
    a null pointer, or it needs more than the given number of steps. *)
Inductive Outcome (A : Type) : Type :=
  | Returns (a : A) (p : Parser)
  | Crashes (p : Parser)
  | OutOfFuel.

Arguments Returns {A} a p.
Arguments Crashes {A} p.
Arguments OutOfFuel {A}.

Definition bind {A B : Type} (m : Outcome A) (k : A -> Parser -> Outcome B)
    : Outcome B :=
  match m with
  | Returns a p => k a p
  | Crashes p => Crashes p
  | OutOfFuel => OutOfFuel
  end.

Notation "'call' ( x , p ) <- m ; k" := (bind m (fun x p => k))
  (at level 10, x name, p name, m at level 100, k at level 200,
   format "'[v' 'call'  ( x ,  p )  <-  m ; '/' k ']'").

Section Rules.

(** [parser.c] names a token kind [TOKEN_KEYWORD] that [TokenType] does not
    declare; the rules are read for any value it may be given. *)
Variable TOKEN_KEYWORD : TokenType.

(** A [Token] is copied by value, its [value] pointer included, and
    [lexer_skip] frees the text of the token it leaves.  A rule that saves
    [parser->current], or its text pointer, and calls [parser_advance] before
    it reads the text reads freed memory: the bytes [strdup] or [strlen] find
    there are not determined by the program.  [stale p s] stands for the text
    found, in parser state [p], where the text [s] was; the rules are read for
    any such function (the identity, a text found intact, is one of them).  A
    null pointer stays null. *)
Variable stale : Parser -> string -> string.

Definition freed (p : Parser) (v : option string) : option string :=
  option_map (stale p) v.

Definition parse_literal (p : Parser) : option ASTNode * Parser :=
  let token := p_current p in
  match tok_type token with
  | TOKEN_NUMBER_INT =>
      (Some (create_literal_node_int (tok_int_val token) (tok_line token) (tok_column token)),
       parser_advance p)
  | TOKEN_NUMBER_FLOAT =>
      (Some (create_literal_node_float (tok_float_val token) (tok_line token) (tok_column token)),
       parser_advance p)
  | TOKEN_STRING =>
      (Some (create_literal_node_string (freed (parser_advance p) (tok_value token))
                                        (tok_line token) (tok_column token)),
       parser_advance p)
  | TOKEN_TRUE =>
      (Some (create_literal_node_bool true (tok_line token) (tok_column token)),
       parser_advance p)
  | TOKEN_FALSE =>
      (Some (create_literal_node_bool false (tok_line token) (tok_column token)),
       parser_advance p)
  | TOKEN_NULL =>
      (Some (create_literal_node_null (tok_line token) (tok_column token)),
       parser_advance p)
  | _ => (None, p)
  end.

Definition parse_identifier (p : Parser) : option ASTNode * Parser :=
  if negb (parser_check p TOKEN_IDENTIFIER) then (None, p)
  else
    let token := p_current p in
    (Some (create_identifier_node (freed (parser_advance p) (tok_value token))
                                  (tok_line token) (tok_column token)),
     parser_advance p).

Definition cur_line (p : Parser) : Z := tok_line (p_current p).
Definition cur_column (p : Parser) : Z := tok_column (p_current p).

(** The text [strdup] copies; a null argument does not occur, the token being
    a string or an identifier of the lexer. *)
Definition text_of (v : option string) : string :=
  match v with
  | Some s => c_str s
  | None => ""
  end.

(** The operator sets of the five binary levels. *)
Definition op (s : string) : TokenType * option string := (TOKEN_OPERATOR, Some s).

Definition multiplicative_ops := [op "*"; op "/"; op "%"].
Definition additive_ops := [op "+"; op "-"].
Definition comparison_ops := [op "<"; op ">"; op "<="; op ">="; op "=="; op "!="].
Definition assignment_ops := [op "="; op "+="; op "-="; op "*="; op "/="; op "%="].

(** The [while] shared by [parse_multiplicative], [parse_additive],
    [parse_comparison], [parse_logical_and] and [parse_logical_or], which
    differ in the operators, the rule of the operands and the message.  After
    [parser_match] has consumed the operator, the node's operator text and
    position are read from the token that follows it, and that token is
    consumed too; its text is freed by the time the node copies it. *)
Fixpoint binary_loop (operand : Parser -> Outcome (option ASTNode))
    (ops : list (TokenType * option string)) (msg : string)
    (fuel : nat) (lhs : ASTNode) (p : Parser) : Outcome (option ASTNode) :=
  match fuel with
  | O => OutOfFuel
  | S fuel =>
      let '(m, p) := parser_match_any p ops in
      if m then
        let op := tok_value (p_current p) in
        let ln := cur_line p in
        let col := cur_column p in
        let p := parser_advance p in
        call (rhs, p) <- operand p;
        match rhs with
        | None => Returns None (parser_error p msg)
        | Some _ =>
            binary_loop operand ops msg fuel
              (create_binary_expr_node (freed p op) (Some lhs) rhs ln col) p
        end
      else Returns (Some lhs) p
  end.

Definition binary_level (operand : Parser -> Outcome (option ASTNode))
    (ops : list (TokenType * option string)) (msg : string)
    (fuel : nat) (p : Parser) : Outcome (option ASTNode) :=
  call (lhs, p) <- operand p;
  match lhs with
  | None => Returns None p
  | Some lhs => binary_loop operand ops msg fuel lhs p
  end.

(** The walk over the [elif] chain at the end of the [if] rule: each node is
    handed to [add_next_statement] with the [elif_branches] field of the new
    [if] node as first argument. *)
Fixpoint attach_elif_branches (field : option ASTNode) (current : ASTNode)
    : option ASTNode :=
  let field := add_next_statement field (Some current) in
  match node_next current with
  | Some n => attach_elif_branches field n
  | None => field
  end.

Definition punct (s : string) : option string := Some s.

(** The argument loop of a call and the element loop of an array literal
    (the same code up to the closing bracket and the messages).  A new item is
    linked with [add_next_statement(items, item)], that is into the [next]
    field of the first item. *)
Fixpoint expression_list (expression : Parser -> Outcome (option ASTNode))
    (close msg_item msg_sep : string) (fuel : nat)
    (items : option ASTNode) (count : Z) (p : Parser)
    : Outcome (option ASTNode * Z) :=
  match fuel with
  | O => OutOfFuel
  | S fuel =>
      call (item, p) <- expression p;
      match item with
      | None => Returns (items, count) (parser_error p msg_item)
      | Some _ =>
          let items :=
            match items with
            | None => item
            | Some _ => add_next_statement items item
            end in
          let count := count + 1 in
          let '(m, p) := parser_match p TOKEN_PUNCTUATION (punct ",") in
          if m then expression_list expression close msg_item msg_sep fuel items count p
          else
            let '(m, p) := parser_match p TOKEN_PUNCTUATION (punct close) in
            if m then Returns (items, count) p
            else Returns (items, count) (parser_error p msg_sep)
      end
  end.

(** The pair loop of a dictionary literal. *)
Fixpoint dict_pairs (expression : Parser -> Outcome (option ASTNode))
    (fuel : nat) (keys : list string) (values : option ASTNode) (pair_count : Z)
    (p : Parser) : Outcome (list string * option ASTNode * Z) :=
  match fuel with
  | O => OutOfFuel
  | S fuel =>
      if parser_check p TOKEN_STRING || parser_check p TOKEN_IDENTIFIER then
        let key := text_of (tok_value (p_current p)) in
        let p := parser_advance p in
        let '(ok, p) :=
          parser_expect p TOKEN_PUNCTUATION (punct ":") "Expected ':' after dictionary key" in
        if negb ok then Returns (keys, values, pair_count) p
        else
          call (value, p) <- expression p;
          match value with
          | None =>
              Returns (keys, values, pair_count)
                      (parser_error p "Expected expression as dictionary value")
          | Some _ =>
              let values :=
                match values with
                | None => value
                | Some _ => add_next_statement values value
                end in
              let keys := (keys ++ [key])%list in
              let pair_count := pair_count + 1 in
              let '(m, p) := parser_match p TOKEN_PUNCTUATION (punct ",") in
              if m then dict_pairs expression fuel keys values pair_count p
              else
                let '(m, p) := parser_match p TOKEN_PUNCTUATION (punct "}") in
                if m then Returns (keys, values, pair_count) p
                else Returns (keys, values, pair_count)
                             (parser_error p "Expected ',' or '}' in dictionary")
          end
      else
        Returns (keys, values, pair_count)
                (parser_error p "Expected string or identifier as dictionary key")
  end.

(** A condition with its optional parentheses, as the [if], [elif] and
    [while] rules read it; [None] when the rule gives up. *)
Definition parse_condition (expression : Parser -> Outcome (option ASTNode))
    (msg : string) (p : Parser) : Outcome (option ASTNode) :=
  let '(has_paren, p) := parser_match p TOKEN_PUNCTUATION (punct "(") in
  call (condition, p) <- expression p;
  match condition with
  | None => Returns None (parser_error p msg)
  | Some _ =>
      if has_paren then
        let '(ok, p) :=
          parser_expect p TOKEN_PUNCTUATION (punct ")") "Expected ')' after condition" in
        Returns (if ok then condition else None) p
      else Returns condition p
  end.

(** A body: a braced block or a single statement; [None] when the rule gives
    up. *)
Definition parse_body (block statement : Parser -> Outcome (option ASTNode))
    (msg : string) (p : Parser) : Outcome (option ASTNode) :=
  let '(m, p) := parser_match p TOKEN_PUNCTUATION (punct "{") in
  if m then
    call (body, p) <- block p;
    let '(ok, p) :=
      parser_expect p TOKEN_PUNCTUATION (punct "}") "Expected '}' after block" in
    Returns (if ok then body else None) p
  else
    call (body, p) <- statement p;
    match body with
    | None => Returns None (parser_error p msg)
    | Some _ => Returns body p
    end.

(** The [while (parser_match(parser, TOKEN_ELIF, NULL))] of the [if] rule. *)
Fixpoint elif_loop (expression block statement : Parser -> Outcome (option ASTNode))
    (fuel : nat) (elif_branches : option ASTNode) (p : Parser)
    : Outcome (option ASTNode) :=
  match fuel with
  | O => OutOfFuel
  | S fuel =>
      let '(m, p) := parser_match p TOKEN_ELIF None in
      if m then
        call (elif_condition, p) <-
          parse_condition expression "Expected condition after 'elif'" p;
        match elif_condition with
        | None => Returns elif_branches p
        | Some _ =>
            let '(_, p) := parser_match p TOKEN_PUNCTUATION (punct ":") in
            call (elif_then, p) <-
              parse_body block statement "Expected statement after 'elif' condition" p;
            match elif_then with
            | None => Returns elif_branches p
            | Some _ =>
                let elif_node :=
                  create_elif_node elif_condition elif_then (cur_line p) (cur_column p) in
                let elif_branches :=
                  match elif_branches with
                  | None => Some elif_node
                  | Some _ => add_next_statement elif_branches (Some elif_node)
                  end in
                elif_loop expression block statement fuel elif_branches p
            end
        end
      else Returns elif_branches p
  end.

(** The import list of [from m using a, b, c]. *)
Fixpoint import_list (fuel : nat) (imports : list string) (import_count : Z)
    (p : Parser) : Outcome (list string * Z) :=
  match fuel with
  | O => OutOfFuel
  | S fuel =>
      if negb (parser_check p TOKEN_IDENTIFIER)
      then Returns (imports, import_count)
                   (parser_error p "Expected identifier in import list")
      else
        let import_name := text_of (tok_value (p_current p)) in
        let p := parser_advance p in
        let imports := (imports ++ [import_name])%list in
        let import_count := import_count + 1 in
        let '(m, p) := parser_match p TOKEN_PUNCTUATION (punct ",") in
        if m then import_list fuel imports import_count p
        else Returns (imports, import_count) p
  end.

(** Panic-mode recovery: tokens are dropped up to the next [TOKEN_NEWLINE] or
    [TOKEN_EOF]. *)
Fixpoint skip_to_line_end (fuel : nat) (p : Parser) : Outcome unit :=
  match fuel with
  | O => OutOfFuel
  | S fuel =>
      if negb (parser_check p TOKEN_NEWLINE) && negb (parser_check p TOKEN_EOF)
      then skip_to_line_end fuel (parser_advance p)
      else Returns tt p
  end.

(** The statement loop of [parse_block] ([in_block]) and of [parse_program].
    [statements] is the head of the chain; [last_stmt] is its last node. *)
Fixpoint statement_loop (statement : Parser -> Outcome (option ASTNode))
    (in_block : bool) (fuel : nat) (statements : option ASTNode) (p : Parser)
    : Outcome (option ASTNode) :=
  match fuel with
  | O => OutOfFuel
  | S fuel =>
      let continue :=
        if in_block
        then negb (parser_check p TOKEN_PUNCTUATION)
             || negb (parser_check_value p TOKEN_PUNCTUATION (punct "}"))
        else negb (parser_check p TOKEN_EOF) in
      if continue then
        if parser_check p TOKEN_NEWLINE
        then statement_loop statement in_block fuel statements (parser_advance p)
        else if in_block && parser_check p TOKEN_EOF
        then Returns statements (parser_error p "Unexpected end of file in block")
        else
          call (stmt, p) <- statement p;
          match stmt with
          | None =>
              call (_, p) <- skip_to_line_end fuel p;
              statement_loop statement in_block fuel statements p
          | Some s =>
              let statements :=
                match statements with
                | None => stmt
                | Some head => Some (add_after_last head s)
                end in
              let '(_, p) := parser_match p TOKEN_PUNCTUATION (punct ";") in
              let p := if parser_check p TOKEN_NEWLINE then parser_advance p else p in
              statement_loop statement in_block fuel statements p
          end
      else Returns statements p
  end.

Definition logical_and_ops := [op "&&"; (TOKEN_KEYWORD, Some "and")].
Definition logical_or_ops := [op "||"; (TOKEN_KEYWORD, Some "or")].
Definition unary_ops :=
  [ (TOKEN_OPERATOR, Some "-", "-"); (TOKEN_OPERATOR, Some "!", "!");
    (TOKEN_KEYWORD, Some "not", "not") ].

(** The [if ... else if ...] of [parse_unary] that picks the operator. *)
Fixpoint match_unary (p : Parser) (alts : list (TokenType * option string * string))
    : option string * Parser :=
  match alts with
  | [] => (None, p)
  | (type, value, text) :: rest =>
      let '(m, p) := parser_match p type value in
      if m then (Some text, p) else match_unary p rest
  end.

Fixpoint parse_primary (fuel : nat) (p : Parser) {struct fuel}
    : Outcome (option ASTNode) :=
  match fuel with
  | O => OutOfFuel
  | S fuel =>
  let '(node, p) := parse_literal p in
  match node with
  | Some _ => Returns node p
  | None =>
  let '(node, p) := parse_identifier p in
  match node with
  | Some _ =>
      let '(m, p) := parser_match p TOKEN_PUNCTUATION (punct ".") in
      if m then
        if negb (parser_check p TOKEN_IDENTIFIER)
        then Returns None (parser_error p "Expected member name after '.'")
        else
          let member_token := p_current p in
          let p := parser_advance p in
          Returns (Some (create_member_access_node node (freed p (tok_value member_token))
                           (tok_line member_token) (tok_column member_token))) p
      else
        let '(m, p) := parser_match p TOKEN_PUNCTUATION (punct "(") in
        if m then
          let '(m, p) := parser_match p TOKEN_PUNCTUATION (punct ")") in
          call (args, p) <-
            (if m then Returns (None, 0) p
             else expression_list (parse_expression fuel) ")"
                    "Expected expression in function call"
                    "Expected ',' or ')' in function call" fuel None 0 p);
          Returns (Some (create_call_expr_node node (fst args) (snd args)
                           (cur_line p) (cur_column p))) p
        else Returns node p
  | None =>
      let '(m, p) := parser_match p TOKEN_PUNCTUATION (punct "[") in
      if m then
        let '(m, p) := parser_match p TOKEN_PUNCTUATION (punct "]") in
        call (elems, p) <-
          (if m then Returns (None, 0) p
           else expression_list (parse_expression fuel) "]"
                  "Expected expression in array"
                  "Expected ',' or ']' in array" fuel None 0 p);
        Returns (Some (create_array_literal_node (fst elems) (snd elems)
                         (cur_line p) (cur_column p))) p
      else
        let '(m, p) := parser_match p TOKEN_PUNCTUATION (punct "{") in
        if m then
          let '(m, p) := parser_match p TOKEN_PUNCTUATION (punct "}") in
          call (pairs, p) <-
            (if m then Returns ([], None, 0) p
             else dict_pairs (parse_expression fuel) fuel [] None 0 p);
          let '(keys, values, pair_count) := pairs in
          Returns (Some (create_dict_literal_node keys values pair_count
                           (cur_line p) (cur_column p))) p
        else
          let '(m, p) := parser_match p TOKEN_PUNCTUATION (punct "(") in
          if m then
            call (expr, p) <- parse_expression fuel p;
            match expr with
            | None => Returns None (parser_error p "Expected expression after '('")
            | Some _ =>
                let '(ok, p) :=
                  parser_expect p TOKEN_PUNCTUATION (punct ")")
                                "Expected ')' after expression" in
                Returns (if ok then expr else None) p
            end
          else Returns None (parser_error p "Expected expression")
  end
  end
  end

with parse_unary (fuel : nat) (p : Parser) {struct fuel} : Outcome (option ASTNode) :=
  match fuel with
  | O => OutOfFuel
  | S fuel =>
      let op_token := p_current p in
      let '(op, p) := match_unary p unary_ops in
      match op with
      | Some _ =>
          call (operand, p) <- parse_unary fuel p;
          match operand with
          | None => Returns None (parser_error p "Expected operand after unary operator")
          | Some _ =>
              Returns (Some (create_unary_expr_node op operand
                               (tok_line op_token) (tok_column op_token))) p
          end
      | None => parse_primary fuel p
      end
  end

with parse_multiplicative (fuel : nat) (p : Parser) {struct fuel}
    : Outcome (option ASTNode) :=
  match fuel with
  | O => OutOfFuel
  | S fuel =>
      binary_level (parse_unary fuel) multiplicative_ops
                   "Expected right operand for binary operator" fuel p
  end

with parse_additive (fuel : nat) (p : Parser) {struct fuel}
    : Outcome (option ASTNode) :=
  match fuel with
  | O => OutOfFuel
  | S fuel =>
      binary_level (parse_multiplicative fuel) additive_ops
                   "Expected right operand for binary operator" fuel p
  end

with parse_comparison (fuel : nat) (p : Parser) {struct fuel}
    : Outcome (option ASTNode) :=
  match fuel with
  | O => OutOfFuel
  | S fuel =>
      binary_level (parse_additive fuel) comparison_ops
                   "Expected right operand for comparison operator" fuel p
  end

with parse_logical_and (fuel : nat) (p : Parser) {struct fuel}
    : Outcome (option ASTNode) :=
  match fuel with
  | O => OutOfFuel
  | S fuel =>
      binary_level (parse_comparison fuel) logical_and_ops
                   "Expected right operand for logical AND" fuel p
  end

with parse_logical_or (fuel : nat) (p : Parser) {struct fuel}
    : Outcome (option ASTNode) :=
  match fuel with
  | O => OutOfFuel
  | S fuel =>
      binary_level (parse_logical_and fuel) logical_or_ops
                   "Expected right operand for logical OR" fuel p
  end

with parse_assignment (fuel : nat) (p : Parser) {struct fuel}
    : Outcome (option ASTNode) :=
  match fuel with
  | O => OutOfFuel
  | S fuel =>
      call (lhs, p) <- parse_logical_or fuel p;
      match lhs with
      | None => Returns None p
      | Some _ =>
          let '(m, p) := parser_match_any p assignment_ops in
          if m then
            let op := tok_value (p_current p) in
            let ln := cur_line p in
            let col := cur_column p in
            let p := parser_advance p in
            match freed p op with
            | None => Crashes p          (* strlen(op) of a null op *)
            | Some text =>
                if (String.length (c_str text) =? 2)%nat
                   && match String.get 1 (c_str text) with
                      | Some c => (c =? "=")%char
                      | None => false
                      end
                then Returns None
                       (parser_error p "Compound assignment not fully implemented yet")
                else
                  call (rhs, p) <- parse_assignment fuel p;
                  match rhs with
                  | None => Returns None (parser_error p "Expected right side of assignment")
                  | Some _ => Returns (Some (create_assignment_node lhs rhs ln col)) p
                  end
            end
          else Returns lhs p
      end
  end

with parse_expression (fuel : nat) (p : Parser) {struct fuel}
    : Outcome (option ASTNode) :=
  match fuel with
  | O => OutOfFuel
  | S fuel => parse_assignment fuel p
  end.

Fixpoint parse_block (fuel : nat) (p : Parser) {struct fuel} : Outcome (option ASTNode) :=
  match fuel with
  | O => OutOfFuel
  | S fuel =>
      call (statements, p) <- statement_loop (parse_statement fuel) true fuel None p;
      Returns (Some (create_block_node statements (cur_line p) (cur_column p))) p
  end

with parse_statement (fuel : nat) (p : Parser) {struct fuel} : Outcome (option ASTNode) :=
  match fuel with
  | O => OutOfFuel
  | S fuel =>
  let expression := parse_expression fuel in
  let body := parse_body (parse_block fuel) (parse_statement fuel) in
  (* Variable declaration *)
  let '(m, p) := parser_match p TOKEN_VAR None in
  if m then
    if negb (parser_check p TOKEN_IDENTIFIER)
    then Returns None (parser_error p "Expected variable name after 'var'")
    else
      let name_token := p_current p in
      let p := parser_advance p in
      let '(m, p) := parser_match p TOKEN_OPERATOR (Some "=") in
      call (init, p) <-
        (if m then
           call (value, p) <- expression p;
           match value with
           | None => Returns None (parser_error p "Expected expression after '='")
           | Some _ => Returns (Some value) p
           end
         else Returns (Some None) p);
      match init with
      | None => Returns None p
      | Some value =>
          Returns (Some (create_var_decl_node (freed p (tok_value name_token)) value false
                           (tok_line name_token) (tok_column name_token))) p
      end
  else
  (* Constant declaration *)
  let '(m, p) := parser_match p TOKEN_CONST None in
  if m then
    if negb (parser_check p TOKEN_IDENTIFIER)
    then Returns None (parser_error p "Expected constant name after 'const'")
    else
      let name_token := p_current p in
      let p := parser_advance p in
      let '(ok, p) :=
        parser_expect p TOKEN_OPERATOR (Some "=") "Expected '=' after constant name" in
      if negb ok then Returns None p
      else
        call (value, p) <- expression p;
        match value with
        | None => Returns None (parser_error p "Expected expression after '='")
        | Some _ =>
            Returns (Some (create_var_decl_node (freed p (tok_value name_token)) value true
                             (tok_line name_token) (tok_column name_token))) p
        end
  else
  (* Return statement *)
  let '(m, p) := parser_match p TOKEN_RETURN None in
  if m then
    call (value, p) <-
      (if negb (parser_check p TOKEN_NEWLINE
                || parser_check p TOKEN_EOF
                || (parser_check p TOKEN_PUNCTUATION
                    && parser_check_value p TOKEN_PUNCTUATION (punct "}")))
       then expression p
       else Returns None p);
    Returns (Some (create_return_node value (cur_line p) (cur_column p))) p
  else
  (* Break and continue *)
  let '(m, p) := parser_match p TOKEN_BREAK None in
  if m then Returns (Some (create_break_node (cur_line p) (cur_column p))) p
  else
  let '(m, p) := parser_match p TOKEN_CONTINUE None in
  if m then Returns (Some (create_continue_node (cur_line p) (cur_column p))) p
  else
  (* If statement *)
  let '(m, p) := parser_match p TOKEN_IF None in
  if m then
    call (condition, p) <- parse_condition expression "Expected condition after 'if'" p;
    match condition with
    | None => Returns None p
    | Some _ =>
    let '(_, p) := parser_match p TOKEN_PUNCTUATION (punct ":") in
    call (then_branch, p) <- body "Expected statement after 'if' condition" p;
    match then_branch with
    | None => Returns None p
    | Some _ =>
    call (elif_branches, p) <-
      elif_loop expression (parse_block fuel) (parse_statement fuel) fuel None p;
    let '(m, p) := parser_match p TOKEN_ELSE None in
    call (else_result, p) <-
      (if m then
         let '(_, p) := parser_match p TOKEN_PUNCTUATION (punct ":") in
         call (else_branch, p) <- body "Expected statement after 'else'" p;
         Returns (match else_branch with
                  | None => None
                  | Some _ => Some else_branch
                  end) p
       else Returns (Some None) p);
    match else_result with
    | None => Returns None p
    | Some else_branch =>
        let '(Node t l c nm nx _) :=
          create_if_node condition then_branch else_branch (cur_line p) (cur_column p) in
        let attached :=
          match elif_branches with
          | Some first => attach_elif_branches None first
          | None => None
          end in
        Returns (Some (Node t l c nm nx (flow condition then_branch else_branch attached))) p
    end
    end
    end
  else
  (* While statement *)
  let '(m, p) := parser_match p TOKEN_WHILE None in
  if m then
    call (condition, p) <- parse_condition expression "Expected condition after 'while'" p;
    match condition with
    | None => Returns None p
    | Some _ =>
        let '(_, p) := parser_match p TOKEN_PUNCTUATION (punct ":") in
        call (loop_body, p) <- body "Expected statement after 'while' condition" p;
        match loop_body with
        | None => Returns None p
        | Some _ =>
            Returns (Some (create_while_node condition loop_body
                             (cur_line p) (cur_column p))) p
        end
    end
  else
  (* For statement *)
  let '(m, p) := parser_match p TOKEN_FOR None in
  if m then
    if negb (parser_check p TOKEN_IDENTIFIER)
    then Returns None (parser_error p "Expected iterator variable after 'for'")
    else
      let iterator_token := p_current p in
      let p := parser_advance p in
      let '(ok, p) :=
        parser_expect p TOKEN_IN None "Expected 'in' after iterator variable" in
      if negb ok then Returns None p
      else
        call (iterable, p) <- expression p;
        match iterable with
        | None => Returns None (parser_error p "Expected iterable expression after 'in'")
        | Some _ =>
            let '(_, p) := parser_match p TOKEN_PUNCTUATION (punct ":") in
            call (loop_body, p) <- body "Expected statement after 'for' header" p;
            match loop_body with
            | None => Returns None p
            | Some _ =>
                Returns (Some (create_for_node (freed p (tok_value iterator_token)) iterable
                                 loop_body (cur_line p) (cur_column p))) p
            end
        end
  else
  (* From import statement *)
  let '(m, p) := parser_match p TOKEN_FROM None in
  if m then
    if negb (parser_check p TOKEN_IDENTIFIER)
    then Returns None (parser_error p "Expected module name after 'from'")
    else
      let module_token := p_current p in
      let p := parser_advance p in
      let '(ok, p) :=
        parser_expect p TOKEN_USING None "Expected 'using' after module name" in
      if negb ok then Returns None p
      else
        let '(import_all, p) := parser_match p TOKEN_OPERATOR (Some "*") in
        call (names, p) <-
          (if import_all then Returns ([], 0) p else import_list fuel [] 0 p);
        Returns (Some (create_from_import_node (freed p (tok_value module_token))
                         (fst names) (snd names) import_all
                         (cur_line p) (cur_column p))) p
  else
  (* Expression statement *)
  call (expr, p) <- expression p;
  match expr with
  | Some _ => Returns (Some (create_expr_stmt_node expr (cur_line p) (cur_column p))) p
  | None => Returns None (parser_error p "Expected statement")
  end
  end.

Definition parse_program (fuel : nat) (p : Parser) : Outcome ASTNode :=
  call (statements, p) <- statement_loop (parse_statement fuel) false fuel None p;
  Returns (create_program_node statements) p.

(** [parse_source]: the tree, or NULL once the parser's error flag is set. *)
Definition parse_source (fuel : nat) (src : string) : Outcome (option ASTNode) :=
  let lx := lexer_create src in
  let parser := parser_create lx in
  call (ast, parser) <- parse_program fuel parser;
  Returns (if p_has_error parser then None else Some ast) parser.

End Rules.

(** * The vocabulary of the properties *)

Definition LF : string := String "010" EmptyString.

(** The first token of a source and the lexer after it. *)
Definition first_token (src : string) : Token := fst (lexer_next (lexer_create src)).

Definition after_first_token (src : string) : Lexer := snd (lexer_next (lexer_create src)).

(** The parser once its first token has been read. *)
Definition primed (src : string) : Parser :=
  parser_advance (parser_create (lexer_create src)).

(** The consumed ['\n'] bytes: those before the cursor. *)
Definition newlines_consumed (lx : Lexer) : Z :=
  Z.of_nat (List.length
    (filter (fun c => (c =? "010")%char)
            (list_ascii_of_string (substring 0 (position lx) (source lx))))).

Fixpoint replicate (n : nat) (c : ascii) : string :=
  match n with
  | O => EmptyString
  | S n => String c (replicate n c)
  end.

(** The next [n] tokens, as [n] calls of [lexer_next] return them. *)
Fixpoint next_tokens (n : nat) (lx : Lexer) : list Token :=
  match n with
  | O => []
  | S n => let '(t, lx') := lexer_next lx in t :: next_tokens n lx'
  end.

(** [scans lx lx']: [lx'] is [lx] after some bytes of the same source have
    been consumed; the lookahead queue and [current] are untouched. *)
Definition scans (lx lx' : Lexer) : Prop :=
  source lx' = source lx
  /\ (position lx <= position lx')%nat
  /\ ((position lx < position lx')%nat -> (position lx' <= String.length (source lx))%nat)
  /\ lookahead lx' = lookahead lx
  /\ lookahead_pos lx' = lookahead_pos lx
  /\ current lx' = current lx.

(** A property of the lexer state that the elementary steps of a token scan
    keep. *)
Definition step_closed (P : Lexer -> Prop) : Prop :=
  (forall lx, P lx -> P (advance lx))
  /\ (forall lx msg, P lx -> P (lexer_error lx msg))
  /\ (forall lx b, P lx -> P (set_string_buffer lx b)).

(** The lexer states a client reaches through the interface. *)
Inductive reachable : Lexer -> Prop :=
  | reach_create (src : string) : reachable (lexer_create src)
  | reach_next (lx : Lexer) : reachable lx -> reachable (snd (lexer_next lx))
  | reach_skip (lx : Lexer) : reachable lx -> reachable (lexer_skip lx)
  | reach_peek (lx lx' : Lexer) (fuel : nat) (k : Z) (t : Token) :
      reachable lx -> lexer_peek_token fuel lx k = Some (t, lx') -> reachable lx'.

(** A token that no rule consumes: the end of input as the lexer makes it. *)
Definition dead (t : Token) : bool :=
  (tok_type t =? TOKEN_EOF)%tok
  && match tok_value t with
     | None => true
     | Some _ => false
     end.

(** What is left to parse: the bytes to read, the queued tokens and the
    current token. *)
Definition measure (p : Parser) : nat :=
  remaining (lexer p) + Z.to_nat (lookahead_pos (lexer p))
  + (if dead (p_current p) then 0 else 1).

(** [unmoved p p']: the cursor of [p'] is where it was in [p] (the error
    fields may differ). *)
Definition unmoved (p p' : Parser) : Prop :=
  lexer p' = lexer p /\ p_current p' = p_current p.

(** [reach p p']: nothing was put back, and the tokens are the same when
    nothing was consumed. *)
Definition reach (p p' : Parser) : Prop :=
  (measure p' <= measure p)%nat /\ (measure p' = measure p -> unmoved p p').

(** [wp o Q]: the call returns in a state that satisfies [Q], or stops at
    the null read; it does not run out of fuel. *)
Definition wp {A : Type} (o : Outcome A) (Q : A -> Parser -> Prop) : Prop :=
  match o with
  | Returns a p => Q a p
  | Crashes _ => True
  | OutOfFuel => False
  end.

(** The call ends: it returns or stops at the null read. *)
Definition halts {A : Type} (o : Outcome A) : Prop := wp o (fun _ _ => True).

(** The postcondition of a rule that yields a nullable node: the cursor has
    not moved back, and a node was only built from consumed tokens. *)
Definition consumes (p : Parser) (r : option ASTNode) (p' : Parser) : Prop :=
  reach p p' /\ (r <> None -> (measure p' < measure p)%nat).

(** A rule behaves on all states of measure at most [n]. *)
Definition sound_upto (n : nat) (rule : Parser -> Outcome (option ASTNode)) : Prop :=
  forall p, (measure p <= n)%nat -> wp (rule p) (consumes p).

(** A rule that may return a node without consuming a token, as
    [parse_block] does on an empty block. *)
Definition weak_upto (n : nat) (rule : Parser -> Outcome (option ASTNode)) : Prop :=
  forall p, (measure p <= n)%nat -> wp (rule p) (fun _ p' => reach p p').

(** An alternative of [parser_match] that a dead token cannot satisfy. *)
Definition safe (alt : TokenType * option string) : Prop :=
  fst alt <> TOKEN_EOF \/ snd alt <> None.

(** A rule is sound on states of measure at most [n], given fuel for twelve
    calls per unit of measure and [level] more. *)
Definition sound_at (level : nat) (rule : nat -> Parser -> Outcome (option ASTNode))
    (n : nat) : Prop :=
  forall fuel p,
    (measure p <= n)%nat -> (12 * measure p + level <= fuel)%nat ->
    wp (rule fuel p) (consumes p).

Definition weak_at (level : nat) (rule : nat -> Parser -> Outcome (option ASTNode))
    (n : nat) : Prop :=
  forall fuel p,
    (measure p <= n)%nat -> (12 * measure p + level <= fuel)%nat ->
    wp (rule fuel p) (fun _ p' => reach p p').

Definition rules_sound (kw : TokenType) (stale : Parser -> string -> string) (n : nat)
    : Prop :=
  sound_at 1 (parse_primary kw stale) n
  /\ sound_at 2 (parse_unary kw stale) n
  /\ sound_at 3 (parse_multiplicative kw stale) n
  /\ sound_at 4 (parse_additive kw stale) n
  /\ sound_at 5 (parse_comparison kw stale) n
  /\ sound_at 6 (parse_logical_and kw stale) n
  /\ sound_at 7 (parse_logical_or kw stale) n
  /\ sound_at 8 (parse_assignment kw stale) n
  /\ sound_at 9 (parse_expression kw stale) n
  /\ sound_at 10 (parse_statement kw stale) n
  /\ weak_at 11 (parse_block kw stale) n.

(** The vocabulary of the malformed literals. *)

(** [stands_at lx s]: the bytes of [s] stand at the cursor. *)
Definition stands_at (lx : Lexer) (s : string) : Prop :=
  forall j c, String.get j s = Some c -> lexer_peek_at lx j = c.

Fixpoint all_digits (s : string) : bool :=
  match s with
  | EmptyString => true
  | String c r => isdigit c && all_digits r
  end.

Fixpoint no_nul (s : string) : bool :=
  match s with
  | EmptyString => true
  | String c r => negb (c =? NUL)%char && no_nul r
  end.

Definition is_exponent_marker (c : ascii) : bool := (c =? "e")%char || (c =? "E")%char.

(** The text of a decimal literal: digits, then a point and digits if
    [frac] is given, then an exponent (a marker, a sign or nothing, digits)
    if [ex] is given. *)
Definition fraction_text (frac : option string) : string :=
  match frac with
  | Some ds => String "." ds
  | None => EmptyString
  end.

Definition exponent_text (ex : option (ascii * string * string)) : string :=
  match ex with
  | Some (mark, sgn, ds) => String mark (sgn ++ ds)
  | None => EmptyString
  end.

Definition decimal_text (ds : string) (frac : option string)
    (ex : option (ascii * string * string)) : string :=
  ds ++ fraction_text frac ++ exponent_text ex.

Definition well_formed_fraction (frac : option string) : Prop :=
  match frac with
  | Some ds => all_digits ds = true
  | None => True
  end.

Definition well_formed_exponent (ex : option (ascii * string * string)) : Prop :=
  match ex with
  | Some (mark, sgn, ds) =>
      is_exponent_marker mark = true
      /\ (sgn = "" \/ sgn = "+" \/ sgn = "-")
      /\ all_digits ds = true
  | None => True
  end.

(** The vocabulary of the further properties. *)

Definition stops (t : Token) : bool :=
  (tok_type t =? TOKEN_EOF)%tok || (tok_type t =? TOKEN_ERROR)%tok.

(** A property of the lexer state that every write of a token scan keeps:
    the byte-wise advance, the error report, the start of a token, the line
    bookkeeping of the block comment and the scan of a string literal (the
    one place that writes the string buffer). *)
Definition scan_closed (P : Lexer -> Prop) : Prop :=
  (forall lx, P lx -> P (advance lx))
  /\ (forall lx msg, P lx -> P (lexer_error lx msg))
  /\ (forall lx, P lx -> P (lexer_start_token lx))
  /\ (forall lx ln col, P lx -> P (set_cursor lx (position lx) ln col))
  /\ (forall lx, P lx -> P (snd (lexer_read_string lx))).

(** A property that the queue operations of the interface keep as well. *)
Definition queue_closed (P : Lexer -> Prop) : Prop :=
  (forall lx la n, P lx -> P (set_lookahead lx la n))
  /\ (forall lx t, P lx -> P (set_current lx t)).


(** * Properties *)

Lemma TokenType_beq_eq (a b : TokenType) : (a =? b)%tok = true <-> a = b.
Proof.
  split; [apply internal_TokenType_dec_bl | apply internal_TokenType_dec_lb].
Qed.

Lemma TokenType_beq_refl (a : TokenType) : (a =? a)%tok = true.
Proof. now apply TokenType_beq_eq. Qed.

Lemma TokenType_beq_neq (a b : TokenType) : (a =? b)%tok = false <-> a <> b.
Proof.
  rewrite <- TokenType_beq_eq. destruct (a =? b)%tok; intuition congruence.
Qed.

(** ** Numeric literals *)

(** C9: ["42"], ["0xFF"] and ["0b1010"] are integer tokens of value 42, 255
    and 10; ["3.14e-2"] is a float token whose value is the binary64 number
    nearest to 0.0314, within [2^-58] of it. *)
Theorem numeric_literal_values :
  (tok_type (first_token "42") = TOKEN_NUMBER_INT /\ tok_int_val (first_token "42") = 42) /\
  (tok_type (first_token "0xFF") = TOKEN_NUMBER_INT /\ tok_int_val (first_token "0xFF") = 255) /\
  (tok_type (first_token "0b1010") = TOKEN_NUMBER_INT
   /\ tok_int_val (first_token "0b1010") = 10) /\
  (tok_type (first_token "3.14e-2") = TOKEN_NUMBER_FLOAT
   /\ exists q : Q,
        Q_of_double (tok_float_val (first_token "3.14e-2")) = Some q
        /\ (Qabs (q - (314 # 10000)) <= 1 # (2 ^ 58))%Q).
Proof.
  repeat split; try (vm_compute; reflexivity).
  exists (4525216905581874 # (2 ^ 57))%Q. split.
  - vm_compute. reflexivity.
  - apply Qle_bool_imp_le. vm_compute. reflexivity.
Qed.

(** ** Line counting *)

(** C7, at the source [/*], line feed, [*/]: one ['\n'] has been consumed when
    the end of input is reached, and the line counter stands at 3, not 2: the
    block comment counts the line feed itself and [lexer_advance] counts it
    again. *)
Theorem block_comment_newline_counted_twice :
  let src := "/*" ++ LF ++ "*/" in
  let lx := after_first_token src in
  tok_type (first_token src) = TOKEN_EOF
  /\ position lx = 5%nat
  /\ newlines_consumed lx = 1
  /\ line lx = 3
  /\ line lx <> 1 + newlines_consumed lx.
Proof. vm_compute. repeat split; congruence. Qed.

(** ** Strings and numbers: what the claims get wrong *)

(** C5, counterexample: a line feed between the quotes does not end the
    literal; the token is a string holding the line feed and no error is
    recorded. *)
Lemma string_with_raw_newline_is_accepted :
  let src := "'a" ++ LF ++ "b'" in
  tok_type (first_token src) = TOKEN_STRING
  /\ tok_value (first_token src) = Some ("a" ++ LF ++ "b")
  /\ has_error (after_first_token src) = false.
Proof. vm_compute. repeat split. Qed.

(** C6, counterexample: at the second ['.'] of [1.2.3] the scan stops; the
    token covers [1.2] only and the cursor rests on the second ['.']. *)
Lemma number_scan_stops_at_second_dot :
  let src := "1.2.3" in
  tok_value (first_token src) = Some "1.2"
  /\ tok_length (first_token src) = 3
  /\ position (after_first_token src) = 3%nat
  /\ has_error (after_first_token src) = true
  /\ error_msg (after_first_token src) = "Invalid number format".
Proof. vm_compute. repeat split. Qed.

(** ** The driver *)

(** [parser_create] copies the lexer's initial [current] token, which
    [lexer_create] sets to [TOKEN_EOF]; the loop of [parse_program] tests it
    before any token is read.  Whatever the source, [parse_source] returns an
    empty program and neither error flag is ever set. *)
Lemma parse_source_reads_no_token (kw : TokenType)
    (stale : Parser -> string -> string) (fuel : nat) (src : string) :
  parse_source kw stale (S fuel) src
  = Returns (Some (create_program_node None)) (parser_create (lexer_create src)).
Proof. reflexivity. Qed.

(** C1, at ["var x = 10 + 20 * 3"]: [parse_source] returns a program without
    statements.  Nor does the statement rule, started on the first token,
    build the declaration: the additive loop takes the token after ['+'] for
    the operator and skips it, the right operand starts at ['*'], and the rule
    returns NULL with the error flag set. *)
Theorem var_decl_source_yields_no_declaration (kw : TokenType)
    (stale : Parser -> string -> string) :
  let src := "var x = 10 + 20 * 3" in
  (forall fuel, parse_source kw stale (S fuel) src
                = Returns (Some (create_program_node None))
                          (parser_create (lexer_create src)))
  /\ exists p, parse_statement kw stale 30 (primed src) = Returns None p
               /\ p_has_error p = true
               /\ p_error_msg p = "Expected expression after '='".
Proof.
  split; [intros; apply parse_source_reads_no_token |].
  destruct kw; vm_compute; eexists; repeat split; reflexivity.
Qed.

(** C4, at ["from math using sin, cos, PI"]: [parse_source] returns a program
    without statements.  The statement rule, started on the first token,
    checks [using] with [parser_expect], which leaves it at the cursor; the
    import list then finds no identifier: the node has no imports and the
    error flag is set.  The module name of the node is copied after
    [parser_advance] has freed the text of the token [math]: it is whatever
    is found there. *)
Theorem from_import_source_yields_no_import (kw : TokenType)
    (stale : Parser -> string -> string) :
  let src := "from math using sin, cos, PI" in
  (forall fuel, parse_source kw stale (S fuel) src
                = Returns (Some (create_program_node None))
                          (parser_create (lexer_create src)))
  /\ exists p,
       parse_statement kw stale 30 (primed src)
       = Returns (Some (create_from_import_node (freed stale p (Some "math"))
                                                [] 0 false 1 11)) p
       /\ p_has_error p = true
       /\ p_error_msg p = "Expected identifier in import list".
Proof.
  split; [intros; apply parse_source_reads_no_token |].
  destruct kw; vm_compute; eexists; repeat split; reflexivity.
Qed.

(** C2, at an identifier of 129 letters: lexing it sets the lexer's error flag
    ("Identifier too long"), yet [parse_source] returns a tree.  Even with the
    first token read, [parse_program] ends with the parser's flag clear, the
    only flag [parse_source] looks at. *)
Theorem lexical_error_does_not_fail_parse (kw : TokenType)
    (stale : Parser -> string -> string) :
  let src := replicate 129 "a" in
  (has_error (snd (lex_all 3 (lexer_create src))) = true
   /\ error_msg (snd (lex_all 3 (lexer_create src))) = "Identifier too long")
  /\ (forall fuel, parse_source kw stale (S fuel) src
                   = Returns (Some (create_program_node None))
                             (parser_create (lexer_create src)))
  /\ exists ast p, parse_program kw stale 30 (primed src) = Returns ast p
                   /\ p_has_error p = false
                   /\ has_error (lexer p) = true.
Proof.
  split; [vm_compute; split; reflexivity |].
  split; [intros; apply parse_source_reads_no_token |].
  destruct kw; vm_compute; do 2 eexists; repeat split; reflexivity.
Qed.

(** ** The cursor only moves forward *)

Lemma scans_refl (lx : Lexer) : scans lx lx.
Proof. unfold scans. repeat split; auto; lia. Qed.

Lemma scans_trans (a b c : Lexer) : scans a b -> scans b c -> scans a c.
Proof.
  unfold scans. intros (S1 & P1 & B1 & L1 & N1 & C1) (S2 & P2 & B2 & L2 & N2 & C2).
  repeat split; try congruence; try lia.
  intros H. rewrite S1 in B2.
  destruct (Nat.eq_dec (position b) (position c)) as [E | E].
  - rewrite <- E. apply B1. lia.
  - apply B2. lia.
Qed.

Lemma scans_remaining (lx lx' : Lexer) :
  scans lx lx' -> (remaining lx' <= remaining lx)%nat.
Proof. unfold scans, remaining. intros (S1 & P1 & _). rewrite S1. lia. Qed.

Lemma scans_remaining_lt (lx lx' : Lexer) :
  scans lx lx' -> (position lx < position lx')%nat ->
  (remaining lx' < remaining lx)%nat.
Proof.
  unfold scans, remaining. intros (S1 & P1 & B1 & _) H.
  specialize (B1 H). rewrite S1. lia.
Qed.

Lemma get_some_lt (n : nat) (s : string) (c : ascii) :
  String.get n s = Some c -> (n < String.length s)%nat.
Proof.
  revert n. induction s as [| a s IH]; intros [| n] H; simpl in *;
    try discriminate; try lia.
  apply IH in H. lia.
Qed.

Lemma peek_not_NUL_in_source (lx : Lexer) (k : nat) :
  lexer_peek_at lx k <> NUL -> (position lx + k < String.length (source lx))%nat.
Proof.
  unfold lexer_peek_at. destruct (String.get _ _) eqn:E; [| congruence].
  intros _. eapply get_some_lt; eauto.
Qed.

Lemma advance_scans (lx : Lexer) : scans lx (advance lx).
Proof.
  unfold advance, lexer_advance.
  destruct (lexer_peek lx =? NUL)%char eqn:E; [apply scans_refl |].
  apply Ascii.eqb_neq in E. apply peek_not_NUL_in_source in E.
  destruct (lexer_peek lx =? "010")%char; unfold scans; simpl;
    repeat split; auto; lia.
Qed.

Lemma advance_position (lx : Lexer) :
  lexer_peek lx <> NUL -> position (advance lx) = S (position lx).
Proof.
  intros H. unfold advance, lexer_advance.
  apply Ascii.eqb_neq in H. rewrite H.
  destruct (lexer_peek lx =? "010")%char; reflexivity.
Qed.

Lemma advance_at_end (lx : Lexer) : lexer_peek lx = NUL -> advance lx = lx.
Proof.
  intros H. unfold advance, lexer_advance. rewrite H. reflexivity.
Qed.

Lemma lexer_advance_snd (lx : Lexer) : snd (lexer_advance lx) = advance lx.
Proof. reflexivity. Qed.

Lemma lexer_advance_fst (lx : Lexer) : fst (lexer_advance lx) = lexer_peek lx.
Proof.
  unfold lexer_advance.
  destruct (lexer_peek lx =? NUL)%char eqn:E.
  - apply Ascii.eqb_eq in E. now rewrite E.
  - destruct (lexer_peek lx =? "010")%char; reflexivity.
Qed.

Lemma lexer_error_scans (lx : Lexer) (msg : string) : scans lx (lexer_error lx msg).
Proof. unfold scans. simpl. repeat split; auto; lia. Qed.

Lemma start_token_scans (lx : Lexer) : scans lx (lexer_start_token lx).
Proof. unfold scans. simpl. repeat split; auto; lia. Qed.

Lemma set_string_buffer_scans (lx : Lexer) (b : string) :
  scans lx (set_string_buffer lx b).
Proof. unfold scans. simpl. repeat split; auto; lia. Qed.

Lemma set_cursor_same_position_scans (lx : Lexer) (ln col : Z) :
  scans lx (set_cursor lx (position lx) ln col).
Proof. unfold scans. simpl. repeat split; auto; lia. Qed.

Create HintDb scan.
#[local] Hint Resolve scans_refl advance_scans lexer_error_scans start_token_scans
  set_string_buffer_scans set_cursor_same_position_scans : scan.

Ltac scan_step :=
  match goal with
  | |- scans ?a ?a => apply scans_refl
  | |- scans ?a (advance ?b) => apply scans_trans with b; [| apply advance_scans]
  | |- scans ?a (lexer_error ?b _) => apply scans_trans with b; [| apply lexer_error_scans]
  | |- scans ?a (lexer_start_token ?b) =>
      apply scans_trans with b; [| apply start_token_scans]
  | |- scans ?a (set_string_buffer ?b _) =>
      apply scans_trans with b; [| apply set_string_buffer_scans]
  end.

Lemma skip_whitespace_loop_scans (fuel : nat) (lx : Lexer) :
  scans lx (skip_whitespace_loop fuel lx).
Proof.
  revert lx. induction fuel as [| fuel IH]; intros lx; simpl; auto with scan.
  destruct (lexer_peek lx =? NUL)%char; auto with scan.
  destruct (_ || _); auto with scan.
  eapply scans_trans; [apply advance_scans | apply IH].
Qed.

Lemma line_comment_loop_scans (fuel : nat) (lx : Lexer) :
  scans lx (line_comment_loop fuel lx).
Proof.
  revert lx. induction fuel as [| fuel IH]; intros lx; simpl; auto with scan.
  destruct (_ && _); auto with scan.
  eapply scans_trans; [apply advance_scans | apply IH].
Qed.

Lemma block_comment_loop_scans (fuel : nat) (depth : Z) (lx : Lexer) :
  scans lx (snd (block_comment_loop fuel depth lx)).
Proof.
  revert depth lx. induction fuel as [| fuel IH]; intros depth lx; simpl;
    auto with scan.
  destruct (_ && _); simpl; auto with scan.
  destruct (_ && _).
  { eapply scans_trans; [| apply IH]. repeat scan_step. }
  destruct (_ && _).
  { eapply scans_trans; [| apply IH]. repeat scan_step. }
  eapply scans_trans; [| apply IH].
  destruct (lexer_peek lx =? "010")%char; [| repeat scan_step].
  eapply scans_trans; [apply set_cursor_same_position_scans | apply advance_scans].
Qed.

Lemma skip_line_comment_scans (lx : Lexer) :
  scans lx (snd (lexer_skip_line_comment lx)).
Proof.
  unfold lexer_skip_line_comment. destruct (_ && _); cbn [snd]; auto with scan.
  eapply scans_trans; [| apply line_comment_loop_scans]. repeat scan_step.
Qed.

Lemma skip_block_comment_scans (lx : Lexer) :
  scans lx (snd (lexer_skip_block_comment lx)).
Proof.
  unfold lexer_skip_block_comment. destruct (_ && _); cbn [snd]; auto with scan.
  pose proof (block_comment_loop_scans (budget lx) 1 (advance (advance lx))) as H.
  destruct (block_comment_loop _ _ _) as [d lx']. cbn [snd] in *.
  assert (scans lx lx') by (eapply scans_trans; [| exact H]; repeat scan_step).
  destruct (d >? 0); [scan_step |]; assumption.
Qed.

Lemma skip_blanks_and_comments_scans (fuel : nat) (lx : Lexer) :
  scans lx (skip_blanks_and_comments fuel lx).
Proof.
  revert lx. induction fuel as [| fuel IH]; intros lx;
    cbn [skip_blanks_and_comments]; auto with scan.
  pose proof (skip_whitespace_loop_scans (budget lx) lx) as H1.
  fold (lexer_skip_whitespace lx) in H1.
  pose proof (skip_line_comment_scans (lexer_skip_whitespace lx)) as H2.
  destruct (lexer_skip_line_comment _) as [b1 lx1]. cbn [snd] in H2.
  destruct b1.
  { eapply scans_trans; [| apply IH]. eapply scans_trans; eauto. }
  pose proof (skip_block_comment_scans lx1) as H3.
  destruct (lexer_skip_block_comment lx1) as [b2 lx2]. cbn [snd] in H3.
  destruct b2.
  { eapply scans_trans; [| apply IH]. eapply scans_trans; eauto.
    eapply scans_trans; eauto. }
  eapply scans_trans; eauto. eapply scans_trans; eauto.
Qed.

Lemma scans_step_closed (lx0 : Lexer) : step_closed (scans lx0).
Proof.
  split; [| split]; intros; scan_step; assumption.
Qed.

Section StepClosed.

Variable P : Lexer -> Prop.
Hypothesis HP : step_closed P.

Let P_advance := proj1 HP.
Let P_error := proj1 (proj2 HP).
Let P_buffer := proj2 (proj2 HP).

Lemma lexer_advance_closed (lx : Lexer) : P lx -> P (snd (lexer_advance lx)).
Proof. apply P_advance. Qed.

Lemma number_loop_closed (fuel : nat) (h b f e : bool) (lx : Lexer) :
  P lx -> P (snd (number_loop fuel h b f e lx)).
Proof.
  revert f e lx. induction fuel as [| fuel IH]; intros f e lx H; simpl; auto.
  repeat match goal with
         | |- context [if ?c then _ else _] => destruct c; simpl
         end; auto.
Qed.

Lemma unicode_escape_loop_closed (n : nat) (lx : Lexer) :
  P lx -> P (unicode_escape_loop n lx).
Proof.
  revert lx. induction n as [| n IH]; intros lx H; simpl; auto.
  pose proof (lexer_advance_closed lx H) as H1.
  destruct (lexer_advance lx) as [h lx1]. simpl in H1.
  destruct (negb (isxdigit h)); auto.
Qed.

Lemma read_escape_closed (c : ascii) (lx : Lexer) :
  P lx -> P (snd (read_escape c lx)).
Proof.
  intros H. unfold read_escape.
  pose proof (lexer_advance_closed lx H) as H1.
  destruct (lexer_advance lx) as [next lx1]. simpl in H1.
  repeat match goal with
         | |- context [if (next =? ?c)%char then _ else _] =>
             destruct (next =? c)%char; cbn [snd]; auto
         end.
  - pose proof (lexer_advance_closed lx1 H1) as H2.
    destruct (lexer_advance lx1) as [h0 lx2]. cbn [snd] in H2.
    pose proof (lexer_advance_closed lx2 H2) as H3.
    destruct (lexer_advance lx2) as [h1 lx3]. cbn [snd] in *. assumption.
  - apply unicode_escape_loop_closed. assumption.
Qed.

Lemma string_loop_closed (fuel : nat) (quote : ascii) (lx : Lexer) :
  P lx -> P (string_loop fuel quote lx).
Proof.
  revert lx. induction fuel as [| fuel IH]; intros lx H; simpl; auto.
  destruct (_ && _); auto.
  pose proof (lexer_advance_closed lx H) as H1.
  destruct (lexer_advance lx) as [c lx1]. simpl in H1.
  assert (H2 : P (snd (if (c =? "\")%char then read_escape c lx1 else (c, lx1)))).
  { destruct (c =? "\")%char; [apply read_escape_closed |]; assumption. }
  destruct (if (c =? "\")%char then read_escape c lx1 else (c, lx1)) as [c' lx2].
  simpl in H2. destruct (_ >=? _); auto.
Qed.

Lemma identifier_loop_closed (fuel : nat) (lx : Lexer) :
  P lx -> P (identifier_loop fuel lx).
Proof.
  revert lx. induction fuel as [| fuel IH]; intros lx H; simpl; auto.
  destruct (is_identifier_char _); auto. destruct (_ >=? _); auto.
Qed.

Lemma advance_n_closed (n : nat) (lx : Lexer) : P lx -> P (advance_n n lx).
Proof. revert lx. induction n as [| n IH]; intros lx H; simpl; auto. Qed.

End StepClosed.

(** ** Number tokens *)

Lemma start_position_step_closed (n : nat) :
  step_closed (fun lx => start_position lx = n).
Proof.
  split; [| split]; intros lx; intros; auto.
  unfold advance, lexer_advance.
  destruct (_ =? NUL)%char; auto. destruct (_ =? "010")%char; auto.
Qed.

Lemma has_error_advance (lx : Lexer) : has_error (advance lx) = has_error lx.
Proof.
  unfold advance, lexer_advance.
  destruct (_ =? NUL)%char; auto. destruct (_ =? "010")%char; auto.
Qed.

Lemma tok_length_number_token (lx : Lexer) (text : string) (f h b : bool) :
  tok_length (lexer_make_number_token lx text f h b)
  = Z.of_nat (position lx) - Z.of_nat (start_position lx).
Proof. unfold lexer_make_number_token. destruct f, h, b; reflexivity. Qed.

Lemma tok_value_number_token (lx : Lexer) (text : string) (f h b : bool) :
  tok_value (lexer_make_number_token lx text f h b) = Some (c_str text).
Proof. unfold lexer_make_number_token. destruct f, h, b; reflexivity. Qed.

Lemma tok_type_number_token (lx : Lexer) (text : string) (f h b : bool) :
  tok_type (lexer_make_number_token lx text f h b)
  = if f then TOKEN_NUMBER_FLOAT else TOKEN_NUMBER_INT.
Proof. unfold lexer_make_number_token. destruct f, h, b; reflexivity. Qed.

(** ** Reading at the cursor *)

Lemma lexer_advance_pair (lx : Lexer) :
  lexer_advance lx = (lexer_peek lx, advance lx).
Proof.
  rewrite (surjective_pairing (lexer_advance lx)).
  now rewrite lexer_advance_fst, lexer_advance_snd.
Qed.

Lemma peek_at_scans (lx lx' : Lexer) (k : nat) :
  scans lx lx' ->
  lexer_peek_at lx' k = lexer_peek_at lx (position lx' - position lx + k).
Proof.
  intros (S1 & P1 & _). unfold lexer_peek_at. rewrite S1.
  replace (position lx + (position lx' - position lx + k))%nat
    with (position lx' + k)%nat by lia.
  reflexivity.
Qed.

Lemma peek_at_start_token (lx : Lexer) (k : nat) :
  lexer_peek_at (lexer_start_token lx) k = lexer_peek_at lx k.
Proof. reflexivity. Qed.

Lemma peek_at_advance (lx : Lexer) (k : nat) :
  lexer_peek lx <> NUL ->
  lexer_peek_at (advance lx) k = lexer_peek_at lx (S k).
Proof.
  intros H. rewrite (peek_at_scans lx (advance lx)) by apply advance_scans.
  rewrite advance_position by assumption.
  f_equal. lia.
Qed.

(** Nothing is skipped in front of a byte that is neither a blank nor the
    start of a comment. *)
Lemma skip_blanks_and_comments_noop (lx : Lexer) :
  let c := lexer_peek lx in
  (c =? " ")%char || (c =? "009")%char || (c =? "013")%char = false ->
  (c =? "/")%char && ((lexer_peek_at lx 1 =? "/")%char || (lexer_peek_at lx 1 =? "*")%char)
  = false ->
  skip_blanks_and_comments (budget lx) lx = lx.
Proof.
  intros c Hws Hcm. unfold budget. cbn [skip_blanks_and_comments].
  assert (E : lexer_skip_whitespace lx = lx).
  { unfold lexer_skip_whitespace, budget. cbn [skip_whitespace_loop].
    fold c. rewrite Hws. destruct (c =? NUL)%char; reflexivity. }
  rewrite E. unfold lexer_skip_line_comment, lexer_skip_block_comment.
  unfold c, lexer_peek in Hcm.
  destruct (lexer_peek_at lx 0 =? "/")%char eqn:Ec.
  - simpl in Hcm. apply orb_false_iff in Hcm. destruct Hcm as [E1 E2].
    rewrite E1. cbn [andb]. rewrite Ec, E2. reflexivity.
  - cbn [andb]. rewrite Ec. reflexivity.
Qed.

Lemma empty_queue (lx : Lexer) :
  lookahead_pos lx <= 0 -> (lookahead_pos lx >? 0) = false.
Proof. intros H. rewrite Z.gtb_ltb. apply Z.ltb_ge. assumption. Qed.

(** ** Unclosed strings *)

(** C5, amended: when the quote that opens a string literal does not occur
    again in the rest of the input, [lexer_next] records "Unclosed string" and
    returns an error token.  (A line feed inside the literal is an ordinary
    byte of it.) *)
Theorem unclosed_string_at_end_of_input (lx : Lexer) (quote : ascii) :
  lookahead_pos lx <= 0 ->
  quote = "034"%char \/ quote = "'"%char ->
  lexer_peek lx = quote ->
  (forall k, (0 < k)%nat -> lexer_peek_at lx k <> quote) ->
  let t := fst (lexer_next lx) in
  let lx' := snd (lexer_next lx) in
  tok_type t = TOKEN_ERROR
  /\ tok_value t = Some "Unclosed string"
  /\ has_error lx' = true
  /\ error_msg lx' = "Unclosed string".
Proof.
  intros Hla Hq Hpeek Hrest.
  assert (Hscan : lexer_scan lx = lexer_read_string lx).
  { unfold lexer_scan. rewrite skip_blanks_and_comments_noop.
    - rewrite Hpeek. destruct Hq as [-> | ->]; reflexivity.
    - rewrite Hpeek. destruct Hq as [-> | ->]; reflexivity.
    - rewrite Hpeek. destruct Hq as [-> | ->]; reflexivity. }
  unfold lexer_next. rewrite (empty_queue lx Hla).
  rewrite Hscan. unfold lexer_read_string.
  rewrite lexer_advance_pair.
  assert (Hq0 : lexer_peek (lexer_start_token lx) = quote) by exact Hpeek.
  rewrite Hq0.
  set (lx1 := set_string_buffer (advance (lexer_start_token lx)) "").
  assert (Hnn : quote <> NUL) by (destruct Hq as [-> | ->]; discriminate).
  assert (H1 : scans lx lx1 /\ position lx1 = S (position lx)).
  { split; [subst lx1; repeat scan_step |].
    subst lx1. cbn [set_string_buffer position].
    rewrite advance_position by (rewrite Hq0; assumption). reflexivity. }
  destruct H1 as [Hs1 Hp1].
  pose proof (string_loop_closed _ (scans_step_closed lx1) (budget lx1) quote lx1
                (scans_refl lx1)) as Hs2.
  set (lx2 := string_loop (budget lx1) quote lx1) in *.
  assert (Hs : scans lx lx2) by (eapply scans_trans; eauto).
  assert (Hne : (lexer_peek lx2 =? quote)%char = false).
  { apply Ascii.eqb_neq. unfold lexer_peek. rewrite (peek_at_scans lx lx2) by assumption.
    apply Hrest. destruct Hs2 as (_ & Hp2 & _). lia. }
  rewrite Hne. cbn. repeat split.
Qed.

Lemma unclosed_string_at_end_of_input_witness :
  let lx := lexer_create (String "034" "abc") in
  tok_type (fst (lexer_next lx)) = TOKEN_ERROR
  /\ tok_value (fst (lexer_next lx)) = Some "Unclosed string"
  /\ has_error (snd (lexer_next lx)) = true
  /\ error_msg (snd (lexer_next lx)) = "Unclosed string".
Proof.
  apply (unclosed_string_at_end_of_input (lexer_create (String "034" "abc")) "034"%char).
  - simpl. lia.
  - left. reflexivity.
  - reflexivity.
  - intros k Hk.
    destruct k as [| [| [| [| k]]]]; try lia; vm_compute; discriminate.
Defined.

(** ** Operators *)

Lemma operator_matches_from_ext (lx lx' : Lexer) (n j : nat) (str : string) :
  (forall i, (j <= i < j + n)%nat -> lexer_peek_at lx i = lexer_peek_at lx' i) ->
  operator_matches_from lx j n str = operator_matches_from lx' j n str.
Proof.
  revert j. induction n as [| n IH]; intros j H; simpl; [reflexivity |].
  rewrite (H j) by lia. rewrite (IH (S j)) by (intros; apply H; lia).
  reflexivity.
Qed.

(** The choice of the operator depends on the two bytes at the cursor only. *)
Lemma best_operator_ext (lx lx' : Lexer) (table : list Operator) (best : option Operator) :
  (forall i, (i < 2)%nat -> lexer_peek_at lx i = lexer_peek_at lx' i) ->
  Forall (fun o => (op_length o <= 2)%nat) table ->
  best_operator lx table best = best_operator lx' table best.
Proof.
  intros H HF. revert best. induction HF as [| o table Ho _ IH]; intros best; simpl.
  { reflexivity. }
  unfold operator_matches.
  rewrite (operator_matches_from_ext lx lx') by (intros; apply H; lia).
  apply IH.
Qed.

Lemma operator_table_lengths : Forall (fun o => (op_length o <= 2)%nat) operator_table.
Proof. repeat constructor. Qed.

Lemma advance_n_position (n : nat) (lx : Lexer) :
  (forall j, (j < n)%nat -> lexer_peek_at lx j <> NUL) ->
  position (advance_n n lx) = (position lx + n)%nat.
Proof.
  revert lx. induction n as [| n IH]; intros lx H; simpl; [lia |].
  assert (H0 : lexer_peek lx <> NUL) by (apply (H 0%nat); lia).
  rewrite IH.
  - rewrite advance_position by assumption. lia.
  - intros j Hj. rewrite peek_at_advance by assumption. apply H. lia.
Qed.

(** The scan of an operator, given the operator the table yields for the two
    bytes at the cursor. *)
Lemma read_operator_result (lx : Lexer) (o : Operator) :
  best_operator (lexer_start_token lx) operator_table None = Some o ->
  (forall j, (j < op_length o)%nat -> lexer_peek_at lx j <> NUL) ->
  let t := fst (lexer_read_operator lx) in
  let lx' := snd (lexer_read_operator lx) in
  tok_type t = TOKEN_OPERATOR
  /\ tok_value t = Some (c_str (op_str o))
  /\ tok_length t = Z.of_nat (op_length o)
  /\ position lx' = (position lx + op_length o)%nat.
Proof.
  intros Hbest Hnn. unfold lexer_read_operator. rewrite Hbest. cbn [fst snd].
  assert (Hp : position (advance_n (op_length o) (lexer_start_token lx))
               = (position lx + op_length o)%nat).
  { rewrite advance_n_position; [reflexivity | exact Hnn]. }
  assert (Hs : start_position (advance_n (op_length o) (lexer_start_token lx))
               = position lx).
  { apply (advance_n_closed _ (start_position_step_closed (position lx))).
    reflexivity. }
  unfold lexer_make_token. cbn [tok_type tok_value tok_length option_map].
  rewrite Hp, Hs. repeat split. lia.
Qed.

Ltac operator_case lx :=
  match goal with
  | H0 : Some ?c0 = Some (lexer_peek_at lx 0), H1 : Some ?c1 = Some (lexer_peek_at lx 1)
    |- _ =>
      injection H0 as H0; injection H1 as H1; symmetry in H0, H1;
      let s := constr:(String c0 (String c1 EmptyString)) in
      assert (Hscan : lexer_scan lx = lexer_read_operator lx)
        by (unfold lexer_scan;
            rewrite skip_blanks_and_comments_noop;
            unfold lexer_peek; rewrite ?H0, ?H1; reflexivity);
      assert (Hbest : best_operator (lexer_start_token lx) operator_table None
                      = Some (mkOperator s 2 TOKEN_OPERATOR))
        by (rewrite (best_operator_ext _ (lexer_create s));
            [ reflexivity
            | intros [| [| i]] Hi; [exact H0 | exact H1 | lia]
            | exact operator_table_lengths ]);
      rewrite Hscan;
      apply (read_operator_result lx _ Hbest);
      intros [| [| j]] Hj; [rewrite H0 | rewrite H1 | simpl in Hj; lia];
      discriminate
  end.

(** C8: when the two bytes of a two-character operator stand at the cursor
    (and no token is queued), [lexer_next] returns them as one operator token
    of length 2 and moves the cursor past both. *)
Theorem two_char_operator_is_one_token (lx : Lexer) (s : string) :
  In s two_char_operators ->
  lookahead_pos lx <= 0 ->
  String.get 0 s = Some (lexer_peek_at lx 0) ->
  String.get 1 s = Some (lexer_peek_at lx 1) ->
  let t := fst (lexer_next lx) in
  let lx' := snd (lexer_next lx) in
  tok_type t = TOKEN_OPERATOR
  /\ tok_value t = Some s
  /\ tok_length t = 2
  /\ position lx' = (position lx + 2)%nat.
Proof.
  intros Hin Hla H0 H1. unfold lexer_next. rewrite (empty_queue lx Hla).
  simpl in Hin.
  repeat (destruct Hin as [<- | Hin]; [simpl in H0, H1; operator_case lx |]).
  contradiction.
Qed.

Lemma two_char_operator_is_one_token_witness :
  let lx := lexer_create "<=" in
  tok_type (fst (lexer_next lx)) = TOKEN_OPERATOR
  /\ tok_value (fst (lexer_next lx)) = Some "<="
  /\ tok_length (fst (lexer_next lx)) = 2
  /\ position (snd (lexer_next lx)) = (position lx + 2)%nat.
Proof.
  apply (two_char_operator_is_one_token (lexer_create "<=") "<=").
  - simpl. tauto.
  - simpl. lia.
  - reflexivity.
  - reflexivity.
Defined.

(** ** One token at a time *)

Lemma read_number_scans (lx : Lexer) : scans lx (snd (lexer_read_number lx)).
Proof.
  unfold lexer_read_number.
  set (pre := if (lexer_peek (lexer_start_token lx) =? "0")%char then _ else _).
  assert (Hpre : scans lx (snd pre)).
  { subst pre. destruct (_ =? "0")%char; [| cbn [snd]; repeat scan_step].
    destruct (_ || _); [cbn [snd]; repeat scan_step |].
    destruct (_ || _); cbn [snd]; repeat scan_step. }
  destruct pre as [[h b] lx1]. cbn [snd] in Hpre.
  pose proof (number_loop_closed _ (scans_step_closed lx) (budget lx1) h b false false
                lx1 Hpre) as H.
  destruct (number_loop _ _ _ _ _ _) as [f lx2]. exact H.
Qed.

Lemma read_string_scans (lx : Lexer) : scans lx (snd (lexer_read_string lx)).
Proof.
  unfold lexer_read_string. rewrite lexer_advance_pair.
  set (lx1 := set_string_buffer (advance (lexer_start_token lx)) "").
  assert (H1 : scans lx lx1) by (subst lx1; repeat scan_step).
  pose proof (string_loop_closed _ (scans_step_closed lx) (budget lx1)
                (lexer_peek (lexer_start_token lx)) lx1 H1) as H2.
  destruct (negb _); cbn [snd]; repeat scan_step; exact H2.
Qed.

Lemma read_identifier_scans (lx : Lexer) : scans lx (snd (lexer_read_identifier lx)).
Proof.
  unfold lexer_read_identifier.
  set (lx1 := advance (lexer_start_token lx)).
  assert (H1 : scans lx lx1) by (subst lx1; repeat scan_step).
  pose proof (identifier_loop_closed _ (scans_step_closed lx) (budget lx1) lx1 H1) as H2.
  destruct (keyword_lookup _ _); exact H2.
Qed.

Lemma read_operator_scans (lx : Lexer) : scans lx (snd (lexer_read_operator lx)).
Proof.
  unfold lexer_read_operator.
  destruct (best_operator _ _ _) as [o |]; cbn [snd].
  - apply (advance_n_closed _ (scans_step_closed lx)). repeat scan_step.
  - repeat scan_step.
Qed.

Lemma lexer_scan_scans (lx : Lexer) : scans lx (snd (lexer_scan lx)).
Proof.
  unfold lexer_scan.
  pose proof (skip_blanks_and_comments_scans (budget lx) lx) as H0.
  set (lx0 := skip_blanks_and_comments (budget lx) lx) in *.
  destruct (lexer_peek lx0 =? NUL)%char; [exact H0 |].
  destruct (lexer_peek lx0 =? "010")%char; [cbn [snd]; repeat scan_step; exact H0 |].
  cbv zeta.
  destruct (isdigit (lexer_peek lx0)
            || ((lexer_peek lx0 =? ".")%char && isdigit (lexer_peek_at lx0 1)));
    [eapply scans_trans; [exact H0 | apply read_number_scans] |].
  destruct ((lexer_peek lx0 =? "034")%char || (lexer_peek lx0 =? "'")%char);
    [eapply scans_trans; [exact H0 | apply read_string_scans] |].
  destruct (is_identifier_start (lexer_peek lx0));
    [eapply scans_trans; [exact H0 | apply read_identifier_scans] |].
  destruct (starts_operator (lexer_peek_at lx0 0));
    [eapply scans_trans; [exact H0 | apply read_operator_scans] |].
  destruct (strchr punctuation_chars (lexer_peek lx0)).
  - rewrite lexer_advance_pair. cbn [snd]. repeat scan_step. exact H0.
  - cbn [snd]. repeat scan_step. exact H0.
Qed.

Lemma lexer_next_queue (lx : Lexer) :
  0 <= lookahead_pos lx <= 1 ->
  lookahead_pos (snd (lexer_next lx)) = 0.
Proof.
  intros H. unfold lexer_next. destruct (lookahead_pos lx >? 0) eqn:E.
  - cbn. apply Z.gtb_lt in E. lia.
  - pose proof (lexer_scan_scans lx) as (_ & _ & _ & _ & Hn & _).
    rewrite Hn. rewrite Z.gtb_ltb in E. apply Z.ltb_ge in E. lia.
Qed.

(** When the fill loop of [lexer_peek_token] ends, the queue holds more than
    [k] tokens, and no more than one if it held no more than one. *)
Lemma peek_fill_loop_exit (fuel : nat) (lx lx' : Lexer) (k : Z) :
  peek_fill_loop fuel lx k = Some lx' -> k < lookahead_pos lx'.
Proof.
  revert lx. induction fuel as [| fuel IH]; intros lx; simpl;
    destruct (lookahead_pos lx <=? k) eqn:E; try discriminate;
    try (intros [= <-]; apply Z.leb_gt in E; lia).
  destruct (lexer_next lx) as [t lx1]. apply IH.
Qed.

Lemma peek_fill_loop_queue (fuel : nat) (lx lx' : Lexer) (k : Z) :
  0 <= lookahead_pos lx <= 1 ->
  peek_fill_loop fuel lx k = Some lx' -> 0 <= lookahead_pos lx' <= 1.
Proof.
  revert lx. induction fuel as [| fuel IH]; intros lx H; simpl;
    destruct (lookahead_pos lx <=? k) eqn:E; try discriminate;
    try (intros [= <-]; assumption).
  pose proof (lexer_next_queue lx H) as Hn.
  destruct (lexer_next lx) as [t lx1]. cbn [snd] in Hn.
  apply IH. cbn. lia.
Qed.

(** The queue of a reachable lexer holds at most one token. *)
Lemma reachable_queue (lx : Lexer) : reachable lx -> 0 <= lookahead_pos lx <= 1.
Proof.
  induction 1 as [src | lx _ IH | lx _ IH | lx lx' fuel k t _ IH Hpeek].
  - cbn. lia.
  - rewrite lexer_next_queue by assumption. lia.
  - unfold lexer_skip. destruct (lookahead_pos lx >? 0) eqn:E.
    + cbn. apply Z.gtb_lt in E. lia.
    + pose proof (lexer_next_queue lx IH) as Hn.
      destruct (lexer_next lx) as [t lx1]. cbn in *. lia.
  - unfold lexer_peek_token in Hpeek.
    destruct (_ || _); [injection Hpeek as _ <-; assumption |].
    destruct (peek_fill_loop fuel lx k) as [lx1 |] eqn:E; [| discriminate].
    injection Hpeek as _ <-. eapply peek_fill_loop_queue; eauto.
Qed.

(** ** Every token but the end of input consumes a byte *)

Lemma scans_position_lt (a b c : Lexer) :
  scans a b -> (position a < position b)%nat -> scans b c ->
  (position a < position c)%nat.
Proof. intros _ H (_ & P & _). lia. Qed.

Lemma advance_moves (lx : Lexer) :
  lexer_peek lx <> NUL -> (position lx < position (advance lx))%nat.
Proof. intros H. rewrite advance_position by assumption. lia. Qed.

Lemma read_number_progress (lx : Lexer) :
  isdigit (lexer_peek lx) || ((lexer_peek lx =? ".")%char && isdigit (lexer_peek_at lx 1))
  = true ->
  tok_type (fst (lexer_read_number lx)) <> TOKEN_EOF
  /\ (position lx < position (snd (lexer_read_number lx)))%nat.
Proof.
  intros Hc.
  assert (Hnn : lexer_peek lx <> NUL).
  { intros E. rewrite E in Hc. discriminate. }
  unfold lexer_read_number.
  set (lx0 := lexer_start_token lx).
  assert (Hpk : lexer_peek lx0 = lexer_peek lx) by reflexivity.
  assert (Hpk1 : lexer_peek_at lx0 1 = lexer_peek_at lx 1) by reflexivity.
  assert (Hp0 : position lx0 = position lx) by reflexivity.
  assert (Hadv : (position lx < position (advance lx0))%nat).
  { rewrite <- Hp0. apply advance_moves. rewrite Hpk. assumption. }
  assert (Hadv2 : (position lx < position (advance (advance lx0)))%nat).
  { eapply Nat.lt_le_trans; [exact Hadv |]. apply (advance_scans (advance lx0)). }
  assert (Hloop : forall fuel h b f e l,
             (position lx < position l)%nat ->
             (position lx < position (snd (number_loop fuel h b f e l)))%nat).
  { intros fuel h b f e l Hl.
    apply (number_loop_closed (fun l' => (position lx < position l')%nat)); [| exact Hl].
    split; [| split]; intros l' ; intros; auto.
    eapply Nat.lt_le_trans; [eassumption |]. apply (advance_scans l'). }
  set (pre := if (lexer_peek lx0 =? "0")%char then _ else _).
  assert (Hres : (position lx
                  < position (snd (let '(h, b, l) := pre in
                                   number_loop (budget l) h b false false l)))%nat).
  { subst pre. rewrite Hpk, Hpk1.
    assert (Hplain : (position lx
                      < position (snd (number_loop (budget lx0) false false false false
                                                   lx0)))%nat).
    { unfold budget. cbn [number_loop]. rewrite Hpk.
      destruct (lexer_peek lx =? ".")%char eqn:Edot.
      - cbn [orb]. apply Hloop. exact Hadv.
      - cbn [andb] in Hc. rewrite orb_false_r in Hc.
        destruct ((lexer_peek lx =? "e")%char || (lexer_peek lx =? "E")%char) eqn:Ee.
        + apply orb_true_iff in Ee. rewrite !Ascii.eqb_eq in Ee.
          destruct Ee as [Ee | Ee]; rewrite Ee in Hc; discriminate.
        + rewrite Hc. cbn [negb]. apply Hloop. exact Hadv. }
    destruct (lexer_peek lx =? "0")%char; [| exact Hplain].
    destruct ((lexer_peek_at lx 1 =? "x")%char || (lexer_peek_at lx 1 =? "X")%char);
      [apply Hloop; exact Hadv2 |].
    destruct ((lexer_peek_at lx 1 =? "b")%char || (lexer_peek_at lx 1 =? "B")%char);
      [apply Hloop; exact Hadv2 | exact Hplain]. }
  destruct pre as [[h b] l]. destruct (number_loop _ _ _ _ _ _) as [f l2].
  cbn [fst snd] in *. split; [| exact Hres].
  rewrite tok_type_number_token. destruct f; discriminate.
Qed.

Lemma read_string_progress (lx : Lexer) :
  lexer_peek lx <> NUL ->
  tok_type (fst (lexer_read_string lx)) <> TOKEN_EOF
  /\ (position lx < position (snd (lexer_read_string lx)))%nat.
Proof.
  intros Hnn. unfold lexer_read_string. rewrite lexer_advance_pair.
  set (lx1 := set_string_buffer (advance (lexer_start_token lx)) "").
  assert (H1 : (position lx < position lx1)%nat).
  { subst lx1. cbn [set_string_buffer position].
    apply (advance_moves (lexer_start_token lx)). exact Hnn. }
  pose proof (string_loop_closed _ (scans_step_closed lx1) (budget lx1)
                (lexer_peek (lexer_start_token lx)) lx1 (scans_refl lx1))
    as (_ & H2 & _).
  destruct (negb _); cbn [fst snd]; (split; [discriminate |]).
  - cbn [lexer_error position]. lia.
  - pose proof (advance_scans (string_loop (budget lx1)
                  (lexer_peek (lexer_start_token lx)) lx1)) as (_ & H3 & _). lia.
Qed.

Lemma keyword_lookup_in (table : list (string * TokenType)) (text : string)
    (ty : TokenType) :
  keyword_lookup table text = Some ty -> In ty (map snd table).
Proof.
  induction table as [| [kw ty'] table IH]; simpl; [discriminate |].
  destruct (String.eqb _ _); [intros [= ->]; auto | auto].
Qed.

Lemma keyword_is_not_EOF (text : string) (ty : TokenType) :
  keyword_lookup keyword_table text = Some ty -> ty <> TOKEN_EOF.
Proof.
  intros H. apply keyword_lookup_in in H. simpl in H.
  repeat (destruct H as [<- | H]; [discriminate |]). contradiction.
Qed.

Lemma read_identifier_progress (lx : Lexer) :
  lexer_peek lx <> NUL ->
  tok_type (fst (lexer_read_identifier lx)) <> TOKEN_EOF
  /\ (position lx < position (snd (lexer_read_identifier lx)))%nat.
Proof.
  intros Hnn. unfold lexer_read_identifier.
  set (lx1 := advance (lexer_start_token lx)).
  assert (H1 : (position lx < position lx1)%nat)
    by (apply (advance_moves (lexer_start_token lx)); exact Hnn).
  pose proof (identifier_loop_closed _ (scans_step_closed lx1) (budget lx1) lx1
                (scans_refl lx1)) as (_ & H2 & _).
  destruct (keyword_lookup _ _) as [ty |] eqn:E; cbn [fst snd]; split; try lia.
  - cbn. eapply keyword_is_not_EOF; eauto.
  - discriminate.
Qed.

Lemma best_operator_length (lx : Lexer) (table : list Operator)
    (best : option Operator) (o : Operator) :
  Forall (fun o => (1 <= op_length o)%nat) table ->
  (forall b, best = Some b -> (1 <= op_length b)%nat) ->
  best_operator lx table best = Some o -> (1 <= op_length o)%nat.
Proof.
  intros HF. revert best. induction HF as [| o' table Ho _ IH]; intros best Hb; simpl.
  { intros E. auto. }
  apply IH. intros b.
  destruct (operator_matches lx o'); [| auto].
  destruct best as [b0 |]; [| intros [= <-]; exact Ho].
  destruct (_ <? _)%nat; [intros [= <-]; exact Ho | auto].
Qed.

Lemma read_operator_progress (lx : Lexer) :
  lexer_peek lx <> NUL ->
  tok_type (fst (lexer_read_operator lx)) <> TOKEN_EOF
  /\ (position lx < position (snd (lexer_read_operator lx)))%nat.
Proof.
  intros Hnn. unfold lexer_read_operator.
  destruct (best_operator _ _ _) as [o |] eqn:E; cbn [fst snd];
    (split; [discriminate |]).
  - apply best_operator_length in E;
      [| repeat constructor | intros b; discriminate].
    destruct (op_length o) as [| n]; [lia |]. cbn [advance_n].
    eapply Nat.lt_le_trans;
      [apply (advance_moves (lexer_start_token lx)); exact Hnn |].
    apply (advance_n_closed _ (scans_step_closed (advance (lexer_start_token lx)))).
    apply scans_refl.
  - apply (advance_moves (lexer_error (lexer_start_token lx) _)). exact Hnn.
Qed.

(** The token of a scan is the end of input, without text, or it has
    consumed at least one byte. *)
Lemma lexer_scan_progress (lx : Lexer) :
  (tok_type (fst (lexer_scan lx)) = TOKEN_EOF /\ tok_value (fst (lexer_scan lx)) = None)
  \/ (tok_type (fst (lexer_scan lx)) <> TOKEN_EOF
      /\ (position lx < position (snd (lexer_scan lx)))%nat).
Proof.
  unfold lexer_scan.
  pose proof (skip_blanks_and_comments_scans (budget lx) lx) as (_ & H0 & _).
  set (lx0 := skip_blanks_and_comments (budget lx) lx) in *.
  destruct (lexer_peek lx0 =? NUL)%char eqn:En; [left; split; reflexivity | right].
  apply Ascii.eqb_neq in En.
  assert (Hlift : forall (r : Token * Lexer),
             tok_type (fst r) <> TOKEN_EOF /\ (position lx0 < position (snd r))%nat ->
             tok_type (fst r) <> TOKEN_EOF /\ (position lx < position (snd r))%nat).
  { intros r [A B]. split; [exact A | lia]. }
  destruct (lexer_peek lx0 =? "010")%char.
  { apply Hlift. cbn [fst snd]. split; [discriminate |].
    apply (advance_moves (lexer_start_token lx0)). exact En. }
  cbv zeta.
  destruct (isdigit (lexer_peek lx0)
            || ((lexer_peek lx0 =? ".")%char && isdigit (lexer_peek_at lx0 1))) eqn:Ed;
    [apply Hlift, read_number_progress; exact Ed |].
  destruct ((lexer_peek lx0 =? "034")%char || (lexer_peek lx0 =? "'")%char);
    [apply Hlift, read_string_progress; exact En |].
  destruct (is_identifier_start (lexer_peek lx0));
    [apply Hlift, read_identifier_progress; exact En |].
  destruct (starts_operator (lexer_peek_at lx0 0));
    [apply Hlift, read_operator_progress; exact En |].
  destruct (strchr punctuation_chars (lexer_peek lx0)).
  - rewrite lexer_advance_pair. apply Hlift. cbn [fst snd]. split; [discriminate |].
    apply (advance_moves (lexer_start_token lx0)). exact En.
  - apply Hlift. cbn [fst snd]. split; [discriminate |].
    apply (advance_moves (lexer_error (lexer_start_token lx0) _)). exact En.
Qed.

(** ** Termination of the parser *)

Lemma parser_advance_measure (p : Parser) :
  (measure (parser_advance p) <= measure p)%nat
  /\ (dead (p_current p) = false -> (measure (parser_advance p) < measure p)%nat).
Proof.
  unfold measure, parser_advance, lexer_skip, lexer_current.
  cbn [lexer p_current].
  destruct (lookahead_pos (lexer p) >? 0) eqn:E.
  - apply Z.gtb_lt in E.
    unfold remaining. cbn [set_lookahead lookahead_pos source position].
    replace (Z.to_nat (lookahead_pos (lexer p) - 1))
      with (Z.to_nat (lookahead_pos (lexer p)) - 1)%nat by lia.
    assert (1 <= Z.to_nat (lookahead_pos (lexer p)))%nat by lia.
    split; [| intros ->];
      match goal with |- context [if dead ?t then _ else _] => destruct (dead t) end;
      try match goal with |- context [if dead ?t then _ else _] => destruct (dead t) end;
      lia.
  - rewrite Z.gtb_ltb in E. apply Z.ltb_ge in E.
    unfold lexer_next. rewrite (empty_queue _ E).
    pose proof (lexer_scan_scans (lexer p)) as Hs.
    pose proof (lexer_scan_progress (lexer p)) as Hp.
    destruct (lexer_scan (lexer p)) as [t lx1]. cbn [fst snd] in *.
    pose proof (scans_remaining _ _ Hs) as Hr.
    pose proof (scans_remaining_lt _ _ Hs) as Hrlt.
    destruct Hs as (_ & _ & _ & _ & Hn & _).
    cbn [set_current lookahead_pos current]. rewrite Hn, (empty_queue _ E).
    replace (remaining (set_current lx1 t)) with (remaining lx1) by reflexivity.
    replace (Z.to_nat (lookahead_pos (lexer p))) with 0%nat by lia.
    destruct Hp as [[Ht Hv] | [Ht Hlt]].
    + assert (Hd : dead t = true).
      { unfold dead. rewrite Ht, Hv. reflexivity. }
      rewrite Hd. split; [| intros ->]; try destruct (dead _); lia.
    + specialize (Hrlt Hlt).
      split; [| intros ->]; repeat destruct (dead _); lia.
Qed.

Lemma parser_advance_le (p : Parser) : (measure (parser_advance p) <= measure p)%nat.
Proof. apply parser_advance_measure. Qed.

Lemma parser_advance_lt (p : Parser) :
  dead (p_current p) = false -> (measure (parser_advance p) < measure p)%nat.
Proof. apply parser_advance_measure. Qed.

Lemma unmoved_measure (p p' : Parser) : unmoved p p' -> measure p' = measure p.
Proof. intros [E1 E2]. unfold measure. now rewrite E1, E2. Qed.

Lemma reach_refl (p : Parser) : reach p p.
Proof. split; [lia | intros _; split; reflexivity]. Qed.

Lemma reach_lt (p p' : Parser) : (measure p' < measure p)%nat -> reach p p'.
Proof. intros H. split; lia. Qed.

Lemma reach_trans (a b c : Parser) : reach a b -> reach b c -> reach a c.
Proof.
  intros [L1 U1] [L2 U2]. split; [lia |]. intros E.
  destruct U1 as [A1 A2]; [lia |]. destruct U2 as [B1 B2]; [lia |].
  split; congruence.
Qed.

Lemma measure_error (p : Parser) (msg : string) :
  measure (parser_error p msg) = measure p.
Proof. reflexivity. Qed.

Lemma reach_error (p : Parser) (msg : string) : reach p (parser_error p msg).
Proof. split; [rewrite measure_error; lia | intros _; split; reflexivity]. Qed.

Lemma reach_error_r (a b : Parser) (msg : string) :
  reach a b -> reach a (parser_error b msg).
Proof. intros H. eapply reach_trans; [exact H | apply reach_error]. Qed.

Lemma reach_advance (p : Parser) :
  dead (p_current p) = false -> reach p (parser_advance p).
Proof. intros H. apply reach_lt, parser_advance_lt, H. Qed.

Lemma wp_bind {A B : Type} (m : Outcome A) (k : A -> Parser -> Outcome B)
    (Q : B -> Parser -> Prop) :
  wp m (fun a p => wp (k a p) Q) -> wp (bind m k) Q.
Proof. destruct m; simpl; auto. Qed.

Lemma wp_mono {A : Type} (o : Outcome A) (Q Q' : A -> Parser -> Prop) :
  wp o Q -> (forall a p, Q a p -> Q' a p) -> wp o Q'.
Proof. destruct o; simpl; auto. Qed.

Lemma check_value_live (p : Parser) (type : TokenType) (value : option string) :
  safe (type, value) ->
  parser_check_value p type value = true -> dead (p_current p) = false.
Proof.
  unfold safe, parser_check_value, dead. cbn [fst snd]. intros Hs Hc.
  destruct (tok_type (p_current p) =? type)%tok eqn:E; [| discriminate].
  apply TokenType_beq_eq in E. cbn [negb] in Hc.
  destruct (tok_value (p_current p)); [apply andb_false_r |].
  destruct value; [discriminate |].
  destruct Hs as [Hs | Hs]; [| congruence].
  apply andb_false_iff. left. apply TokenType_beq_neq. congruence.
Qed.

Lemma check_live (p : Parser) (type : TokenType) :
  type <> TOKEN_EOF -> parser_check p type = true -> dead (p_current p) = false.
Proof.
  unfold parser_check, dead. intros Hs Hc. apply TokenType_beq_eq in Hc.
  apply andb_false_iff. left. apply TokenType_beq_neq. congruence.
Qed.

Lemma parser_match_spec (p : Parser) (type : TokenType) (value : option string) :
  safe (type, value) ->
  parser_match p type value = (false, p)
  \/ (parser_match p type value = (true, parser_advance p)
      /\ (measure (parser_advance p) < measure p)%nat).
Proof.
  intros Hs. unfold parser_match.
  destruct (parser_check_value p type value) eqn:E; [right | left; reflexivity].
  split; [reflexivity |]. eapply parser_advance_lt, check_value_live; eauto.
Qed.

Lemma parser_match_any_spec (p : Parser) (alts : list (TokenType * option string)) :
  Forall safe alts ->
  parser_match_any p alts = (false, p)
  \/ exists p', parser_match_any p alts = (true, p')
                /\ (measure p' < measure p)%nat.
Proof.
  induction 1 as [| [type value] alts Hs _ IH]; simpl; [left; reflexivity |].
  destruct (parser_match_spec p type value Hs) as [E | [E Hlt]]; rewrite E.
  - exact IH.
  - right. eauto.
Qed.

Lemma parser_expect_spec (p : Parser) (type : TokenType) (value : option string)
    (msg : string) :
  parser_expect p type value msg = (true, p)
  \/ parser_expect p type value msg = (false, parser_error p msg).
Proof. unfold parser_expect. destruct (negb _); auto. Qed.

Lemma parse_literal_spec (stale : Parser -> string -> string) (p : Parser) :
  parse_literal stale p = (None, p)
  \/ exists n, parse_literal stale p = (Some n, parser_advance p)
               /\ (measure (parser_advance p) < measure p)%nat.
Proof.
  unfold parse_literal.
  destruct (tok_type (p_current p)) eqn:E; auto; right; eexists;
    (split; [reflexivity |]);
    apply parser_advance_lt; unfold dead; rewrite E; reflexivity.
Qed.

Lemma parse_identifier_spec (stale : Parser -> string -> string) (p : Parser) :
  parse_identifier stale p = (None, p)
  \/ exists n, parse_identifier stale p = (Some n, parser_advance p)
               /\ (measure (parser_advance p) < measure p)%nat.
Proof.
  unfold parse_identifier.
  destruct (parser_check p TOKEN_IDENTIFIER) eqn:E; cbn [negb]; auto.
  right. eexists. split; [reflexivity |].
  eapply parser_advance_lt, check_live; [| exact E]. discriminate.
Qed.

(** Closing a goal on reachability and measures from the facts at hand. *)
Ltac reach_facts :=
  cbv beta in *;
  repeat match goal with
         | H : consumes _ _ _ |- _ => destruct H
         | H : reach _ _ |- _ => destruct H
         | H : Some _ <> None -> _ |- _ => specialize (H ltac:(discriminate))
         | H : None <> None -> _ |- _ => clear H
         end.

Ltac close_reach :=
  reach_facts; rewrite ?measure_error in *;
  match goal with
  | |- reach _ (parser_error _ _) => apply reach_error_r; close_reach
  | |- reach _ _ =>
      split; [lia |];
      let E := fresh "E" in
      intros E;
      repeat match goal with
             | H : measure ?b = measure ?a -> unmoved ?a ?b |- _ =>
                 let U := fresh "U" in
                 assert (U : unmoved a b) by (apply H; lia); clear H; destruct U
             end;
      first [exfalso; lia | split; congruence]
  | |- (_ < _)%nat => lia
  | |- (_ <= _)%nat => lia
  end.

Ltac close_consumes :=
  match goal with
  | |- consumes _ _ _ =>
      split; [close_reach | intros ?; first [congruence | close_reach]]
  end.

Lemma binary_loop_terminates (stale : Parser -> string -> string)
    (operand : Parser -> Outcome (option ASTNode))
    (ops : list (TokenType * option string)) (msg : string) (n : nat) :
  sound_upto n operand -> Forall safe ops ->
  forall fuel lhs p,
    (measure p <= n)%nat -> (measure p < fuel)%nat ->
    wp (binary_loop stale operand ops msg fuel lhs p) (fun _ p' => reach p p').
Proof.
  intros Hop Hsafe. induction fuel as [| fuel IH]; intros lhs p Hn Hf; [lia |].
  cbn [binary_loop].
  destruct (parser_match_any_spec p ops Hsafe) as [E | (p1 & E & Hlt)]; rewrite E.
  - apply reach_refl.
  - cbv zeta. pose proof (parser_advance_le p1) as Hadv.
    apply wp_bind. eapply wp_mono; [apply Hop; lia |].
    intros rhs p3 Hc. destruct rhs as [r |].
    + eapply wp_mono; [apply IH; reach_facts; lia |].
      cbv beta. intros _ p4 H4. close_reach.
    + cbn [wp]. close_reach.
Qed.

Lemma binary_level_terminates (stale : Parser -> string -> string)
    (operand : Parser -> Outcome (option ASTNode))
    (ops : list (TokenType * option string)) (msg : string) (n : nat) :
  sound_upto n operand -> Forall safe ops ->
  forall fuel p,
    (measure p <= n)%nat -> (measure p < fuel)%nat ->
    wp (binary_level stale operand ops msg fuel p) (consumes p).
Proof.
  intros Hop Hsafe fuel p Hn Hf. unfold binary_level.
  apply wp_bind. eapply wp_mono; [apply Hop; lia |].
  intros lhs p1 Hc. destruct lhs as [l |].
  - eapply wp_mono;
      [apply (binary_loop_terminates stale operand ops msg n Hop Hsafe); reach_facts; lia |].
    cbv beta. intros r p2 H2. destruct Hc as [Hr Hs].
    assert (measure p1 < measure p)%nat by (apply Hs; discriminate).
    split; [close_reach | intros _; close_reach].
  - cbn [wp]. close_consumes.
Qed.

Lemma expression_list_terminates (expression : Parser -> Outcome (option ASTNode))
    (close msg_item msg_sep : string) (n : nat) :
  sound_upto n expression ->
  forall fuel items count p,
    (measure p <= n)%nat -> (measure p < fuel)%nat ->
    wp (expression_list expression close msg_item msg_sep fuel items count p)
       (fun _ p' => reach p p').
Proof.
  intros Hex. induction fuel as [| fuel IH]; intros items count p Hn Hf; [lia |].
  cbn [expression_list].
  apply wp_bind. eapply wp_mono; [apply Hex; lia |].
  intros item p1 Hc. destruct item as [i |]; [| cbn [wp]; close_reach].
  destruct Hc as [Hr Hs].
  assert (Hlt : (measure p1 < measure p)%nat) by (apply Hs; discriminate).
  destruct (parser_match_spec p1 TOKEN_PUNCTUATION (punct ","))
    as [E | [E Hlt2]]; [right; discriminate | |]; rewrite E.
  - destruct (parser_match_spec p1 TOKEN_PUNCTUATION (punct close))
      as [E' | [E' Hlt3]]; [right; discriminate | |]; rewrite E'; cbn [wp];
      close_reach.
  - eapply wp_mono; [apply IH; lia |]. cbv beta. intros _ p3 H3. close_reach.
Qed.

Lemma dict_pairs_terminates (expression : Parser -> Outcome (option ASTNode))
    (n : nat) :
  sound_upto n expression ->
  forall fuel keys values pair_count p,
    (measure p <= n)%nat -> (measure p < fuel)%nat ->
    wp (dict_pairs expression fuel keys values pair_count p)
       (fun _ p' => reach p p').
Proof.
  intros Hex. induction fuel as [| fuel IH]; intros keys values pair_count p Hn Hf;
    [lia |].
  cbn [dict_pairs].
  destruct (parser_check p TOKEN_STRING || parser_check p TOKEN_IDENTIFIER) eqn:Ek;
    [| cbn [wp]; close_reach].
  assert (Hlive : dead (p_current p) = false).
  { apply orb_true_iff in Ek.
    destruct Ek as [Ek | Ek]; (eapply check_live; [| exact Ek]); discriminate. }
  pose proof (parser_advance_lt p Hlive) as Hlt. cbv zeta.
  destruct (parser_expect_spec (parser_advance p) TOKEN_PUNCTUATION (punct ":")
              "Expected ':' after dictionary key") as [E | E]; rewrite E; cbn [negb].
  - apply wp_bind. eapply wp_mono; [apply Hex; lia |].
    intros value p1 Hc. destruct value as [v |]; [| cbn [wp]; close_reach].
    destruct (parser_match_spec p1 TOKEN_PUNCTUATION (punct ","))
      as [E1 | [E1 Hlt1]]; [right; discriminate | |]; rewrite E1.
    + destruct (parser_match_spec p1 TOKEN_PUNCTUATION (punct "}"))
        as [E2 | [E2 Hlt2]]; [right; discriminate | |]; rewrite E2; cbn [wp];
        close_reach.
    + eapply wp_mono; [apply IH; reach_facts; lia |].
      cbv beta. intros _ p3 H3. close_reach.
  - cbn [wp]. close_reach.
Qed.

Lemma parse_condition_terminates (expression : Parser -> Outcome (option ASTNode))
    (msg : string) (n : nat) :
  sound_upto n expression ->
  forall p, (measure p <= n)%nat ->
    wp (parse_condition expression msg p) (consumes p).
Proof.
  intros Hex p Hn. unfold parse_condition.
  assert (Hbody : forall has_paren p0,
             reach p p0 ->
             wp (call (condition, p1) <- expression p0;
                 match condition with
                 | None => Returns None (parser_error p1 msg)
                 | Some _ =>
                     if has_paren : bool then
                       let '(ok, p2) :=
                         parser_expect p1 TOKEN_PUNCTUATION (punct ")")
                                       "Expected ')' after condition" in
                       Returns (if ok then condition else None) p2
                     else Returns condition p1
                 end) (consumes p)).
  { intros has_paren p0 H0. apply wp_bind.
    eapply wp_mono; [apply Hex; reach_facts; lia |].
    intros condition p1 Hc. destruct condition as [c |]; [| cbn [wp]; close_consumes].
    destruct Hc as [Hr Hs].
    assert (Hlt : (measure p1 < measure p0)%nat) by (apply Hs; discriminate).
    destruct has_paren; [| cbn [wp]; split; [close_reach | intros _; close_reach]].
    destruct (parser_expect_spec p1 TOKEN_PUNCTUATION (punct ")")
                "Expected ')' after condition") as [E | E]; rewrite E; cbn [wp];
      (split; [close_reach | intros _; close_reach]). }
  destruct (parser_match_spec p TOKEN_PUNCTUATION (punct "("))
    as [E | [E Hlt]]; [right; discriminate | |]; rewrite E.
  - exact (Hbody false p (reach_refl p)).
  - exact (Hbody true _ (reach_lt _ _ Hlt)).
Qed.

Lemma parse_body_terminates (blk statement : Parser -> Outcome (option ASTNode))
    (msg : string) (n : nat) :
  weak_upto n blk -> sound_upto n statement ->
  forall p, (measure p <= n)%nat ->
    wp (parse_body blk statement msg p) (consumes p).
Proof.
  intros Hb Hs p Hn. unfold parse_body.
  destruct (parser_match_spec p TOKEN_PUNCTUATION (punct "{"))
    as [E | [E Hlt]]; [right; discriminate | |]; rewrite E.
  - apply wp_bind. eapply wp_mono; [apply Hs; lia |].
    intros body p1 Hc. destruct body; cbn [wp]; [exact Hc | close_consumes].
  - apply wp_bind. eapply wp_mono; [apply Hb; lia |].
    intros body p1 Hc.
    destruct (parser_expect_spec p1 TOKEN_PUNCTUATION (punct "}")
                "Expected '}' after block") as [E1 | E1]; rewrite E1; cbn [wp];
      (split; [close_reach | intros _; close_reach]).
Qed.

Lemma elif_loop_terminates (expression blk statement : Parser -> Outcome (option ASTNode))
    (n : nat) :
  sound_upto n expression -> weak_upto n blk -> sound_upto n statement ->
  forall fuel elif_branches p,
    (measure p <= n)%nat -> (measure p < fuel)%nat ->
    wp (elif_loop expression blk statement fuel elif_branches p)
       (fun _ p' => reach p p').
Proof.
  intros Hex Hb Hs. induction fuel as [| fuel IH]; intros elifs p Hn Hf; [lia |].
  cbn [elif_loop].
  destruct (parser_match_spec p TOKEN_ELIF None)
    as [E | [E Hlt]]; [left; discriminate | |]; rewrite E; [apply reach_refl |].
  apply wp_bind.
  eapply wp_mono; [apply (parse_condition_terminates expression _ n Hex); lia |].
  intros cond p1 Hc. destruct cond as [c |]; [| cbn [wp]; close_reach].
  assert (Hcolon : exists p2, parser_match p1 TOKEN_PUNCTUATION (punct ":") = (fst (parser_match p1 TOKEN_PUNCTUATION (punct ":")), p2)
                              /\ (measure p2 <= measure p1)%nat).
  { destruct (parser_match_spec p1 TOKEN_PUNCTUATION (punct ":"))
      as [E1 | [E1 Hlt1]]; [right; discriminate | |]; rewrite E1; cbn [fst];
      eexists; (split; [reflexivity | lia]). }
  destruct Hcolon as (p2 & E2 & Hle2). rewrite E2.
  apply wp_bind.
  eapply wp_mono;
    [apply (parse_body_terminates blk statement _ n Hb Hs); reach_facts; lia |].
  intros body p3 Hc3. destruct body as [b |]; [| cbn [wp]; close_reach].
  eapply wp_mono; [apply IH; reach_facts; lia |].
  cbv beta. intros _ p4 H4. close_reach.
Qed.

Lemma import_list_terminates (fuel : nat) :
  forall imports import_count p,
    (measure p < fuel)%nat ->
    wp (import_list fuel imports import_count p) (fun _ p' => reach p p').
Proof.
  induction fuel as [| fuel IH]; intros imports count p Hf; [lia |].
  cbn [import_list].
  destruct (parser_check p TOKEN_IDENTIFIER) eqn:E; cbn [negb];
    [| cbn [wp]; close_reach].
  assert (Hlt : (measure (parser_advance p) < measure p)%nat).
  { eapply parser_advance_lt, check_live; [| exact E]. discriminate. }
  cbv zeta.
  destruct (parser_match_spec (parser_advance p) TOKEN_PUNCTUATION (punct ","))
    as [E1 | [E1 Hlt1]]; [right; discriminate | |]; rewrite E1.
  - cbn [wp]. close_reach.
  - eapply wp_mono; [apply IH; lia |]. cbv beta. intros _ p3 H3. close_reach.
Qed.

Lemma skip_to_line_end_terminates (fuel : nat) :
  forall p,
    (measure p < fuel)%nat ->
    wp (skip_to_line_end fuel p)
       (fun _ p' =>
          (measure p' <= measure p)%nat
          /\ (parser_check p TOKEN_NEWLINE = false ->
              parser_check p TOKEN_EOF = false ->
              (measure p' < measure p)%nat)
          /\ parser_check p' TOKEN_NEWLINE || parser_check p' TOKEN_EOF = true).
Proof.
  induction fuel as [| fuel IH]; intros p Hf; [lia |].
  cbn [skip_to_line_end].
  destruct (parser_check p TOKEN_NEWLINE) eqn:En; cbn [negb andb];
    [cbn [wp]; rewrite En; repeat split; [lia | discriminate] |].
  destruct (parser_check p TOKEN_EOF) eqn:Ee; cbn [negb];
    [cbn [wp]; rewrite En, Ee; repeat split; [lia | discriminate] |].
  assert (Hlt : (measure (parser_advance p) < measure p)%nat).
  { apply parser_advance_lt. unfold dead, parser_check in *. rewrite Ee. reflexivity. }
  eapply wp_mono; [apply IH; lia |]. cbv beta. intros _ p1 (H1 & _ & H3).
  repeat split; [lia | intros; lia | exact H3].
Qed.

Lemma statement_loop_terminates (statement : Parser -> Outcome (option ASTNode))
    (in_block : bool) (n : nat) :
  sound_upto n statement ->
  forall fuel statements p,
    (measure p <= n)%nat -> (measure p + 2 <= fuel)%nat ->
    wp (statement_loop statement in_block fuel statements p)
       (fun _ p' => reach p p').
Proof.
  intros Hs. induction fuel as [| fuel IH]; intros stmts p Hn Hf; [lia |].
  cbn [statement_loop].
  set (continue := if in_block then _ else _).
  destruct continue eqn:Ec; [| apply reach_refl].
  destruct (parser_check p TOKEN_NEWLINE) eqn:En.
  { assert (Hlt : (measure (parser_advance p) < measure p)%nat).
    { eapply parser_advance_lt, check_live; [| exact En]. discriminate. }
    eapply wp_mono; [apply IH; lia |]. cbv beta. intros _ p1 H1. close_reach. }
  destruct (in_block && parser_check p TOKEN_EOF) eqn:Ee; [cbn [wp]; close_reach |].
  assert (Hneof : parser_check p TOKEN_EOF = false).
  { subst continue. destruct in_block; [exact Ee |].
    destruct (parser_check p TOKEN_EOF); [discriminate | reflexivity]. }
  apply wp_bind. eapply wp_mono; [apply Hs; lia |].
  intros stmt p1 Hc. destruct stmt as [s |].
  - destruct Hc as [Hr Hst].
    assert (Hlt : (measure p1 < measure p)%nat) by (apply Hst; discriminate).
    assert (Hsemi : (measure (snd (parser_match p1 TOKEN_PUNCTUATION (punct ";")))
                     <= measure p1)%nat).
    { destruct (parser_match_spec p1 TOKEN_PUNCTUATION (punct ";"))
        as [E1 | [E1 Hlt1]]; [right; discriminate | |]; rewrite E1; cbn [snd]; lia. }
    destruct (parser_match p1 TOKEN_PUNCTUATION (punct ";")) as [m p2].
    cbn [snd] in Hsemi.
    set (p3 := if parser_check p2 TOKEN_NEWLINE then parser_advance p2 else p2).
    assert (H3 : (measure p3 <= measure p2)%nat).
    { subst p3. destruct (parser_check p2 TOKEN_NEWLINE); [apply parser_advance_le | lia]. }
    eapply wp_mono; [apply IH; lia |]. cbv beta. intros _ p4 H4. close_reach.
  - apply wp_bind.
    eapply wp_mono; [apply skip_to_line_end_terminates; reach_facts; lia |].
    cbv beta. intros _ p2 (Hle & Hstrict & _).
    assert (Hlt : (measure p2 < measure p)%nat).
    { destruct Hc as [[Hle1 Hun] _].
      destruct (Nat.eq_dec (measure p1) (measure p)) as [Heq | Hne]; [| lia].
      destruct (Hun Heq) as [_ Hcur].
      assert (measure p2 < measure p1)%nat; [| lia].
      apply Hstrict; unfold parser_check in *; rewrite Hcur; assumption. }
    eapply wp_mono; [apply IH; lia |]. cbv beta. intros _ p4 H4. close_reach.
Qed.

Ltac solve_safe :=
  unfold safe; cbn [fst snd]; first [left; discriminate | right; discriminate].

Ltac all_safe :=
  unfold unary_ops, logical_and_ops, logical_or_ops, multiplicative_ops, additive_ops,
    comparison_ops, assignment_ops, op;
  repeat (apply Forall_cons; [solve_safe |]); apply Forall_nil.

(** One [parser_match] of the rule under consideration: the goal splits into
    the case where it fails and the case where it consumes the token. *)
Ltac step_match :=
  match goal with
  | |- context [parser_match ?p ?ty ?v] =>
      let E := fresh "E" in
      let Hlt := fresh "Hlt" in
      destruct (parser_match_spec p ty v) as [E | [E Hlt]];
      [solve_safe | rewrite E; cbv iota beta | rewrite E; cbv iota beta]
  end.

Ltac step_expect :=
  match goal with
  | |- context [parser_expect ?p ?ty ?v ?m] =>
      let E := fresh "E" in
      destruct (parser_expect_spec p ty v m) as [E | E];
      rewrite E; cbv iota beta; cbn [negb]
  end.

Ltac done_returns := cbn [bind wp]; first [close_consumes | close_reach].

Section ParserTermination.

Variable kw : TokenType.
Variable stale : Parser -> string -> string.

Lemma sound_at_upto (level : nat) (rule : nat -> Parser -> Outcome (option ASTNode))
    (m fuel : nat) :
  sound_at level rule m -> (12 * m + level <= fuel)%nat -> sound_upto m (rule fuel).
Proof. intros H Hf p Hp. apply H; [assumption | lia]. Qed.

Lemma weak_at_upto (level : nat) (rule : nat -> Parser -> Outcome (option ASTNode))
    (m fuel : nat) :
  weak_at level rule m -> (12 * m + level <= fuel)%nat -> weak_upto m (rule fuel).
Proof. intros H Hf p Hp. apply H; [assumption | lia]. Qed.

Section Step.

Variable n : nat.
Hypothesis IH : forall m, (m < n)%nat -> rules_sound kw stale m.

Lemma expression_below (m fuel : nat) :
  (m < n)%nat -> (12 * m + 9 <= fuel)%nat -> sound_upto m (parse_expression kw stale fuel).
Proof.
  intros Hm Hf. apply (sound_at_upto 9); [| exact Hf].
  apply (IH m Hm).
Qed.

Lemma statement_below (m fuel : nat) :
  (m < n)%nat -> (12 * m + 10 <= fuel)%nat -> sound_upto m (parse_statement kw stale fuel).
Proof.
  intros Hm Hf. apply (sound_at_upto 10); [| exact Hf].
  apply (IH m Hm).
Qed.

Lemma block_below (m fuel : nat) :
  (m < n)%nat -> (12 * m + 11 <= fuel)%nat -> weak_upto m (parse_block kw stale fuel).
Proof.
  intros Hm Hf. apply (weak_at_upto 11); [| exact Hf].
  apply (IH m Hm).
Qed.

Lemma primary_sound : sound_at 1 (parse_primary kw stale) n.
Proof.
  intros fuel p Hn Hf. destruct fuel as [| fuel]; [lia |]. cbn [parse_primary].
  destruct (parse_literal_spec stale p) as [E | (nd & E & Hlt)]; rewrite E;
    [| done_returns].
  destruct (parse_identifier_spec stale p) as [E1 | (nd & E1 & Hlt)]; rewrite E1.
  - (* array, dictionary, parenthesis *)
    step_match.
    + step_match.
      * step_match; [done_returns |].
        apply wp_bind.
        eapply wp_mono; [apply (expression_below (measure (parser_advance p))); lia |].
        intros expr p1 Hc. destruct expr as [e |]; [| done_returns].
        step_expect; done_returns.
      * step_match.
        -- apply wp_bind.
           eapply wp_mono;
             [apply (dict_pairs_terminates _ (measure (parser_advance p)));
              [apply expression_below; lia | lia | lia] |].
           intros [[keys values] pair_count] p1 Hc. done_returns.
        -- cbn [bind]. done_returns.
    + step_match.
      * apply wp_bind.
        eapply wp_mono;
          [apply (expression_list_terminates _ _ _ _ (measure (parser_advance p)));
           [apply expression_below; lia | lia | lia] |].
        intros elems p1 Hc. done_returns.
      * cbn [bind]. done_returns.
  - (* identifier, member access, call *)
    step_match.
    + step_match; [done_returns |].
      step_match.
      * apply wp_bind.
        eapply wp_mono;
          [apply (expression_list_terminates _ _ _ _
                    (measure (parser_advance (parser_advance p))));
           [apply expression_below; lia | lia | lia] |].
        intros args p1 Hc. done_returns.
      * cbn [bind]. done_returns.
    + destruct (negb (parser_check _ _)); [done_returns |].
      pose proof (parser_advance_le (parser_advance (parser_advance p))).
      done_returns.
Qed.

Lemma match_unary_spec (p : Parser) (alts : list (TokenType * option string * string)) :
  Forall (fun a => safe (fst a)) alts ->
  match_unary p alts = (None, p)
  \/ exists t p', match_unary p alts = (Some t, p')
                  /\ (measure p' < measure p)%nat.
Proof.
  induction 1 as [| [[type value] text] alts Hs _ IHa]; simpl; [left; reflexivity |].
  destruct (parser_match_spec p type value Hs) as [E | [E Hlt]]; rewrite E.
  - exact IHa.
  - right. eauto.
Qed.

Lemma unary_ops_safe : Forall (fun a => safe (fst a)) (unary_ops kw).
Proof. all_safe. Qed.

Lemma unary_sound : sound_at 1 (parse_primary kw stale) n -> sound_at 2 (parse_unary kw stale) n.
Proof.
  intros Hprim fuel p Hn Hf. destruct fuel as [| fuel]; [lia |]. cbn [parse_unary].
  destruct (match_unary_spec p (unary_ops kw) unary_ops_safe)
    as [E | (t & p1 & E & Hlt)]; rewrite E.
  - apply Hprim; lia.
  - apply wp_bind.
    assert (Hrec : sound_upto (measure p1) (parse_unary kw stale fuel)).
    { apply (sound_at_upto 2); [apply (IH (measure p1)); lia | lia]. }
    eapply wp_mono; [apply Hrec; lia |].
    intros operand p2 Hc. destruct operand; done_returns.
Qed.

Lemma binary_sound (level : nat)
    (operand : nat -> Parser -> Outcome (option ASTNode))
    (ops : list (TokenType * option string)) (msg : string)
    (fuel : nat) (p : Parser) :
  (1 <= level)%nat ->
  sound_at level operand n -> Forall safe ops ->
  (measure p <= n)%nat -> (12 * measure p + level <= fuel)%nat ->
  wp (binary_level stale (operand fuel) ops msg fuel p) (consumes p).
Proof.
  intros Hl Hop Hsafe Hn Hf.
  apply (binary_level_terminates stale _ _ _ (measure p)); try assumption; try lia.
  intros q Hq. apply Hop; lia.
Qed.

Lemma multiplicative_sound :
  sound_at 2 (parse_unary kw stale) n -> sound_at 3 (parse_multiplicative kw stale) n.
Proof.
  intros H fuel p Hn Hf. destruct fuel as [| fuel]; [lia |].
  cbn [parse_multiplicative].
  apply (binary_sound 2); [lia | exact H | all_safe | exact Hn | lia].
Qed.

Lemma additive_sound :
  sound_at 3 (parse_multiplicative kw stale) n -> sound_at 4 (parse_additive kw stale) n.
Proof.
  intros H fuel p Hn Hf. destruct fuel as [| fuel]; [lia |].
  cbn [parse_additive].
  apply (binary_sound 3); [lia | exact H | all_safe | exact Hn | lia].
Qed.

Lemma comparison_sound :
  sound_at 4 (parse_additive kw stale) n -> sound_at 5 (parse_comparison kw stale) n.
Proof.
  intros H fuel p Hn Hf. destruct fuel as [| fuel]; [lia |].
  cbn [parse_comparison].
  apply (binary_sound 4); [lia | exact H | all_safe | exact Hn | lia].
Qed.

Lemma logical_and_sound :
  sound_at 5 (parse_comparison kw stale) n -> sound_at 6 (parse_logical_and kw stale) n.
Proof.
  intros H fuel p Hn Hf. destruct fuel as [| fuel]; [lia |].
  cbn [parse_logical_and].
  apply (binary_sound 5); [lia | exact H | all_safe | exact Hn | lia].
Qed.

Lemma logical_or_sound :
  sound_at 6 (parse_logical_and kw stale) n -> sound_at 7 (parse_logical_or kw stale) n.
Proof.
  intros H fuel p Hn Hf. destruct fuel as [| fuel]; [lia |].
  cbn [parse_logical_or].
  apply (binary_sound 6); [lia | exact H | all_safe | exact Hn | lia].
Qed.

Lemma assignment_sound :
  sound_at 7 (parse_logical_or kw stale) n -> sound_at 8 (parse_assignment kw stale) n.
Proof.
  intros Hor fuel p Hn Hf. destruct fuel as [| fuel]; [lia |].
  cbn [parse_assignment].
  apply wp_bind. eapply wp_mono; [apply Hor; lia |].
  intros lhs p1 Hc. destruct lhs as [l |]; [| done_returns].
  destruct Hc as [Hr Hs].
  assert (Hlt : (measure p1 < measure p)%nat) by (apply Hs; discriminate).
  destruct (parser_match_any_spec p1 assignment_ops) as [E | (p2 & E & Hlt2)];
    [all_safe | |]; rewrite E; [done_returns |].
  cbv zeta. pose proof (parser_advance_le p2) as Hadv.
  unfold freed. destruct (tok_value (p_current p2)) as [text |]; [| exact I].
  cbn [option_map]. destruct (_ && _); [done_returns |].
  apply wp_bind.
  assert (Hrec : sound_upto (measure (parser_advance p2)) (parse_assignment kw stale fuel)).
  { apply (sound_at_upto 8); [apply (IH (measure (parser_advance p2))); lia | lia]. }
  eapply wp_mono; [apply Hrec; lia |].
  intros rhs p3 Hc3. destruct rhs; done_returns.
Qed.

Lemma expression_sound :
  sound_at 8 (parse_assignment kw stale) n -> sound_at 9 (parse_expression kw stale) n.
Proof.
  intros H fuel p Hn Hf. destruct fuel as [| fuel]; [lia |].
  cbn [parse_expression]. apply H; lia.
Qed.

Lemma block_sound :
  sound_at 10 (parse_statement kw stale) n -> weak_at 11 (parse_block kw stale) n.
Proof.
  intros H fuel p Hn Hf. destruct fuel as [| fuel]; [lia |].
  cbn [parse_block]. apply wp_bind.
  eapply wp_mono;
    [apply (statement_loop_terminates _ true (measure p)); [| lia | lia] |].
  - intros q Hq. apply H; lia.
  - intros statements p1 Hc. done_returns.
Qed.

Lemma parser_match_le (p : Parser) (type : TokenType) (value : option string) :
  (measure (snd (parser_match p type value)) <= measure p)%nat.
Proof.
  unfold parser_match. destruct (parser_check_value p type value); cbn [snd];
    [apply parser_advance_le | lia].
Qed.

(** A [parser_match] whose outcome does not matter for termination. *)
Ltac skip_match :=
  match goal with
  | |- context [parser_match ?p ?ty ?v] =>
      let H := fresh "Hle" in
      let m := fresh "m" in
      let q := fresh "q" in
      pose proof (parser_match_le p ty v) as H;
      destruct (parser_match p ty v) as [m q];
      cbn [snd] in H; cbv iota beta
  end.

Ltac call_expression :=
  apply wp_bind; eapply wp_mono;
  [ match goal with
    | |- wp (parse_expression _ _ _ ?q) _ =>
        apply (expression_below (measure q)); reach_facts; lia
    end
  | ].

Ltac call_condition :=
  apply wp_bind; eapply wp_mono;
  [ match goal with
    | |- wp (parse_condition _ _ ?q) _ =>
        apply (parse_condition_terminates _ _ (measure q));
        [apply expression_below; reach_facts; lia | lia]
    end
  | ].

Ltac call_body :=
  apply wp_bind; eapply wp_mono;
  [ match goal with
    | |- wp (parse_body _ _ _ ?q) _ =>
        apply (parse_body_terminates _ _ _ (measure q));
        [ apply block_below; reach_facts; lia
        | apply statement_below; reach_facts; lia
        | lia ]
    end
  | ].

Lemma statement_sound :
  sound_at 9 (parse_expression kw stale) n -> sound_at 10 (parse_statement kw stale) n.
Proof.
  intros Hex fuel p Hn Hf. destruct fuel as [| fuel]; [lia |].
  cbn [parse_statement].
  (* var *)
  step_match.
  2: { destruct (negb (parser_check _ _)); [done_returns |].
       pose proof (parser_advance_le (parser_advance p)) as Hadv.
       step_match.
       - cbn [bind]. done_returns.
       - apply wp_bind. call_expression.
         intros value p2 Hc. destruct value; cbn [bind wp]; done_returns. }
  (* const *)
  step_match.
  2: { destruct (negb (parser_check _ _)); [done_returns |].
       pose proof (parser_advance_le (parser_advance p)) as Hadv.
       step_expect; [| done_returns].
       call_expression.
       intros value p2 Hc. destruct value; done_returns. }
  (* return *)
  step_match.
  2: { apply wp_bind. destruct (negb _).
       - eapply wp_mono;
           [apply (expression_below (measure (parser_advance p))); lia |].
         intros value p2 Hc. done_returns.
       - done_returns. }
  (* break, continue *)
  step_match; [| done_returns].
  step_match; [| done_returns].
  (* if *)
  step_match.
  2: { call_condition.
       intros condition p1 Hc. destruct condition as [c |]; [| done_returns].
       skip_match. call_body.
       intros then_branch p2 Hc2. destruct then_branch as [t |]; [| done_returns].
       apply wp_bind.
       eapply wp_mono;
         [apply (elif_loop_terminates _ _ _ (measure p2));
          [ apply expression_below; reach_facts; lia
          | apply block_below; reach_facts; lia
          | apply statement_below; reach_facts; lia
          | lia
          | reach_facts; lia ] |].
       intros elif_branches p3 Hc3. skip_match.
       apply wp_bind. destruct m0.
       - skip_match. call_body.
         intros else_branch p4 Hc4. cbn [wp].
         destruct else_branch; unfold create_if_node; done_returns.
       - unfold create_if_node. done_returns. }
  (* while *)
  step_match.
  2: { call_condition.
       intros condition p1 Hc. destruct condition as [c |]; [| done_returns].
       skip_match. call_body.
       intros loop_body p2 Hc2. destruct loop_body; done_returns. }
  (* for *)
  step_match.
  2: { destruct (negb (parser_check _ _)); [done_returns |].
       pose proof (parser_advance_le (parser_advance p)) as Hadv.
       step_expect; [| done_returns].
       call_expression.
       intros iterable p1 Hc. destruct iterable as [i |]; [| done_returns].
       skip_match. call_body.
       intros loop_body p2 Hc2. destruct loop_body; done_returns. }
  (* from *)
  step_match.
  2: { destruct (negb (parser_check _ _)); [done_returns |].
       pose proof (parser_advance_le (parser_advance p)) as Hadv.
       step_expect; [| done_returns].
       step_match.
       - apply wp_bind.
         eapply wp_mono; [apply import_list_terminates; lia |].
         intros names p1 Hc. done_returns.
       - cbn [bind]. done_returns. }
  (* expression statement *)
  apply wp_bind. eapply wp_mono; [apply Hex; lia |].
  intros expr p1 Hc. destruct expr; done_returns.
Qed.

(** All the rules are sound on the states of measure at most [n]. *)
Lemma rules_sound_step : rules_sound kw stale n.
Proof.
  pose proof primary_sound as H1.
  pose proof (unary_sound H1) as H2.
  pose proof (multiplicative_sound H2) as H3.
  pose proof (additive_sound H3) as H4.
  pose proof (comparison_sound H4) as H5.
  pose proof (logical_and_sound H5) as H6.
  pose proof (logical_or_sound H6) as H7.
  pose proof (assignment_sound H7) as H8.
  pose proof (expression_sound H8) as H9.
  pose proof (statement_sound H9) as H10.
  pose proof (block_sound H10) as H11.
  repeat split; assumption.
Qed.

End Step.

Lemma rules_sound_all (n : nat) : rules_sound kw stale n.
Proof.
  induction n as [n IHn] using lt_wf_ind. apply rules_sound_step. exact IHn.
Qed.

(** From any parser state [parse_program] ends within a number of steps
    linear in what is left to parse. *)
Lemma parse_program_halts (p : Parser) (fuel : nat) :
  (12 * measure p + 12 <= fuel)%nat ->
  wp (parse_program kw stale fuel p) (fun _ p' => reach p p').
Proof.
  intros Hf. unfold parse_program. apply wp_bind.
  eapply wp_mono;
    [apply (statement_loop_terminates _ false (measure p)); [| lia | lia] |].
  - apply (sound_at_upto 10); [apply rules_sound_all | lia].
  - intros statements p1 Hc. exact Hc.
Qed.

End ParserTermination.


(** C3: [parse_source] returns on every source, and the loops it is built
    from end from every parser state: [parse_program] needs no more than
    [12 * measure p + 12] steps, the panic-mode loop and the statement loop
    losing measure at each round, and a statement that yields a node has
    consumed a token. *)
Theorem parse_source_terminates (kw : TokenType)
    (stale : Parser -> string -> string) (src : string) (p : Parser)
    (extra : nat) :
  (exists ast p', forall fuel, parse_source kw stale (S fuel) src = Returns (Some ast) p')
  /\ halts (parse_program kw stale (12 * measure p + 12 + extra) p)
  /\ wp (parse_statement kw stale (12 * measure p + 10 + extra) p) (consumes p)
  /\ wp (skip_to_line_end (measure p + 1 + extra) p)
        (fun _ p' => parser_check p' TOKEN_NEWLINE || parser_check p' TOKEN_EOF = true).
Proof.
  split; [| split; [| split]].
  - do 2 eexists. intros fuel. apply parse_source_reads_no_token.
  - eapply wp_mono; [apply parse_program_halts; lia | auto].
  - apply (rules_sound_all kw stale (measure p)); lia.
  - eapply wp_mono; [apply skip_to_line_end_terminates; lia |].
    cbv beta. intros _ p' (_ & _ & H). exact H.
Qed.

(** ** The budgets of the lexer's loops are never used up

    Each loop of the lexer is run with [budget lx] iterations.  Whatever
    number of iterations above the bytes left is given, the result is the
    same: the loops end on their own condition. *)

Lemma advance_remaining (lx : Lexer) :
  lexer_peek lx <> NUL -> (remaining (advance lx) < remaining lx)%nat.
Proof.
  intros H. apply scans_remaining_lt; [apply advance_scans | apply advance_moves, H].
Qed.

Lemma remaining_le_advance (lx : Lexer) : (remaining (advance lx) <= remaining lx)%nat.
Proof. apply scans_remaining, advance_scans. Qed.

Lemma skip_whitespace_loop_fuel (fuel fuel' : nat) (lx : Lexer) :
  (remaining lx < fuel)%nat -> (remaining lx < fuel')%nat ->
  skip_whitespace_loop fuel lx = skip_whitespace_loop fuel' lx.
Proof.
  revert fuel' lx. induction fuel as [| fuel IH]; intros [| fuel'] lx H H'; try lia.
  cbn [skip_whitespace_loop].
  destruct (lexer_peek lx =? NUL)%char eqn:E; [reflexivity |].
  apply Ascii.eqb_neq, advance_remaining in E.
  destruct (_ || _); [| reflexivity]. apply IH; lia.
Qed.

Lemma line_comment_loop_fuel (fuel fuel' : nat) (lx : Lexer) :
  (remaining lx < fuel)%nat -> (remaining lx < fuel')%nat ->
  line_comment_loop fuel lx = line_comment_loop fuel' lx.
Proof.
  revert fuel' lx. induction fuel as [| fuel IH]; intros [| fuel'] lx H H'; try lia.
  cbn [line_comment_loop].
  destruct (lexer_peek lx =? NUL)%char eqn:E;
    [rewrite andb_false_r; reflexivity |].
  apply Ascii.eqb_neq, advance_remaining in E.
  destruct (_ && _); [| reflexivity]. apply IH; lia.
Qed.

Lemma block_comment_loop_fuel (fuel fuel' : nat) (depth : Z) (lx : Lexer) :
  (remaining lx < fuel)%nat -> (remaining lx < fuel')%nat ->
  block_comment_loop fuel depth lx = block_comment_loop fuel' depth lx.
Proof.
  revert fuel' depth lx.
  induction fuel as [| fuel IH]; intros [| fuel'] depth lx H H'; try lia.
  cbn [block_comment_loop].
  destruct (lexer_peek lx =? NUL)%char eqn:E;
    [rewrite andb_false_r; reflexivity |].
  apply Ascii.eqb_neq in E. pose proof (advance_remaining lx E) as Hr.
  pose proof (remaining_le_advance (advance lx)) as Hr2.
  destruct (_ && _); [| reflexivity].
  destruct (_ && _); [apply IH; lia |].
  destruct (_ && _); [apply IH; lia |].
  destruct (lexer_peek lx =? "010")%char; [| apply IH; lia].
  pose proof (advance_remaining (set_cursor lx (position lx) (line lx + 1) 0) E) as Hr3.
  apply IH; unfold remaining in *; cbn [set_cursor source position] in *; lia.
Qed.

Lemma number_loop_fuel (fuel fuel' : nat) (h b f e : bool) (lx : Lexer) :
  (remaining lx < fuel)%nat -> (remaining lx < fuel')%nat ->
  number_loop fuel h b f e lx = number_loop fuel' h b f e lx.
Proof.
  revert fuel' f e lx.
  induction fuel as [| fuel IH]; intros [| fuel'] f e lx H H'; try lia.
  cbn [number_loop].
  pose proof (remaining_le_advance (advance lx)) as Hr2.
  destruct (lexer_peek lx =? NUL)%char eqn:E.
  { apply Ascii.eqb_eq in E. rewrite E. destruct h, b; reflexivity. }
  apply Ascii.eqb_neq in E. pose proof (advance_remaining lx E) as Hr.
  destruct h; [destruct (negb _); [reflexivity | apply IH; lia] |].
  destruct b; [destruct (_ && _); [reflexivity | apply IH; lia] |].
  destruct (_ =? ".")%char; [destruct (f || e); [reflexivity | apply IH; lia] |].
  destruct (_ || _).
  { destruct e; [reflexivity |]. destruct (_ || _); apply IH; lia. }
  destruct (negb _); [reflexivity | apply IH; lia].
Qed.

Lemma string_loop_fuel (fuel fuel' : nat) (quote : ascii) (lx : Lexer) :
  (remaining lx < fuel)%nat -> (remaining lx < fuel')%nat ->
  string_loop fuel quote lx = string_loop fuel' quote lx.
Proof.
  revert fuel' lx. induction fuel as [| fuel IH]; intros [| fuel'] lx H H'; try lia.
  cbn [string_loop].
  destruct (lexer_peek lx =? NUL)%char eqn:E;
    [rewrite andb_false_r; reflexivity |].
  apply Ascii.eqb_neq in E. pose proof (advance_remaining lx E) as Hr.
  destruct (_ && _); [| reflexivity].
  rewrite lexer_advance_pair.
  set (r := if (lexer_peek lx =? "\")%char then _ else _).
  assert (Hs : scans (advance lx) (snd r)).
  { subst r. destruct (_ =? "\")%char; [| apply scans_refl].
    apply (read_escape_closed _ (scans_step_closed (advance lx))), scans_refl. }
  apply scans_remaining in Hs. destruct r as [c lx2]. cbn [snd] in Hs.
  destruct (_ >=? _); [reflexivity |].
  apply IH; unfold remaining in *; cbn [set_string_buffer source position]; lia.
Qed.

Lemma identifier_loop_fuel (fuel fuel' : nat) (lx : Lexer) :
  (remaining lx < fuel)%nat -> (remaining lx < fuel')%nat ->
  identifier_loop fuel lx = identifier_loop fuel' lx.
Proof.
  revert fuel' lx. induction fuel as [| fuel IH]; intros [| fuel'] lx H H'; try lia.
  cbn [identifier_loop].
  destruct (is_identifier_char (lexer_peek lx)) eqn:E; [| reflexivity].
  assert (En : lexer_peek lx <> NUL) by (intros E0; rewrite E0 in E; discriminate).
  pose proof (advance_remaining lx En) as Hr.
  destruct (_ >=? _); [reflexivity | apply IH; lia].
Qed.

Lemma skip_blanks_and_comments_fuel (fuel fuel' : nat) (lx : Lexer) :
  (remaining lx < fuel)%nat -> (remaining lx < fuel')%nat ->
  skip_blanks_and_comments fuel lx = skip_blanks_and_comments fuel' lx.
Proof.
  revert fuel' lx. induction fuel as [| fuel IH]; intros [| fuel'] lx H H'; try lia.
  cbn [skip_blanks_and_comments].
  pose proof (skip_whitespace_loop_scans (budget lx) lx) as H1.
  fold (lexer_skip_whitespace lx) in H1.
  set (lx0 := lexer_skip_whitespace lx) in *.
  apply scans_remaining in H1.
  assert (Hcomment : forall l, lexer_peek_at l 0 = "/"%char ->
                               (remaining (advance (advance l)) < remaining l)%nat).
  { intros l Hl. pose proof (remaining_le_advance (advance l)).
    assert (Hnn : lexer_peek l <> NUL) by (unfold lexer_peek; rewrite Hl; discriminate).
    pose proof (advance_remaining l Hnn). lia. }
  unfold lexer_skip_line_comment.
  destruct (lexer_peek_at lx0 0 =? "/")%char eqn:E0; cbn [andb].
  2: { unfold lexer_skip_block_comment. rewrite E0. reflexivity. }
  apply Ascii.eqb_eq in E0. specialize (Hcomment lx0 E0).
  destruct (lexer_peek_at lx0 1 =? "/")%char.
  { pose proof (line_comment_loop_scans (budget lx0) (advance (advance lx0))) as H2.
    apply scans_remaining in H2. apply IH; lia. }
  unfold lexer_skip_block_comment. rewrite E0. cbn [Ascii.eqb Bool.eqb andb].
  destruct (lexer_peek_at lx0 1 =? "*")%char; [| reflexivity].
  pose proof (block_comment_loop_scans (budget lx0) 1 (advance (advance lx0))) as H2.
  apply scans_remaining in H2.
  destruct (block_comment_loop _ _ _) as [d lx2]. cbn [snd] in H2.
  assert (Hr : (remaining (if d >? 0 then lexer_error lx2 "Unclosed multi-line comment"
                           else lx2) = remaining lx2)%nat)
    by (destruct (d >? 0); reflexivity).
  apply IH; lia.
Qed.

(** ** Malformed numbers *)

Lemma digit_facts (c : ascii) :
  isdigit c = true ->
  (c =? ".")%char = false /\ (c =? "e")%char || (c =? "E")%char = false
  /\ (c =? "+")%char || (c =? "-")%char = false /\ (c =? NUL)%char = false.
Proof.
  destruct c as [b0 b1 b2 b3 b4 b5 b6 b7].
  destruct b0, b1, b2, b3, b4, b5, b6, b7; vm_compute; intros; try discriminate;
    repeat split.
Qed.

Lemma all_digits_no_nul (s : string) : all_digits s = true -> no_nul s = true.
Proof.
  induction s as [| c s IH]; simpl; [reflexivity |].
  intros H. apply andb_true_iff in H. destruct H as [Hc Hs].
  apply digit_facts in Hc. destruct Hc as (_ & _ & _ & ->). simpl. auto.
Qed.

Lemma no_nul_app (a b : string) : no_nul (a ++ b) = no_nul a && no_nul b.
Proof.
  induction a as [| c a IH]; simpl; [reflexivity |].
  rewrite IH. now rewrite andb_assoc.
Qed.

Lemma c_str_no_nul (s : string) : no_nul s = true -> c_str s = s.
Proof.
  induction s as [| c s IH]; simpl; [reflexivity |].
  intros H. apply andb_true_iff in H. destruct H as [Hc Hs].
  apply negb_true_iff in Hc. rewrite Hc, IH; auto.
Qed.

Lemma stands_at_head (lx : Lexer) (c : ascii) (s : string) :
  stands_at lx (String c s) -> lexer_peek lx = c.
Proof. intros H. apply (H 0%nat). reflexivity. Qed.

Lemma stands_at_tail (lx : Lexer) (c : ascii) (s : string) :
  stands_at lx (String c s) -> c <> NUL -> stands_at (advance lx) s.
Proof.
  intros H Hc j d Hj. rewrite peek_at_advance.
  - apply H. exact Hj.
  - rewrite (stands_at_head _ _ _ H). exact Hc.
Qed.

Lemma advance_n_add (a b : nat) (lx : Lexer) :
  advance_n (a + b) lx = advance_n b (advance_n a lx).
Proof. revert lx. induction a as [| a IH]; intros lx; simpl; auto. Qed.

(** Consuming a text that stands at the cursor. *)
Lemma advance_over (a rest : string) (lx : Lexer) :
  no_nul a = true -> stands_at lx (a ++ rest) ->
  stands_at (advance_n (String.length a) lx) rest
  /\ position (advance_n (String.length a) lx) = (position lx + String.length a)%nat.
Proof.
  revert lx. induction a as [| c a IH]; intros lx Hn Hs; simpl.
  - split; [exact Hs | lia].
  - simpl in Hn. apply andb_true_iff in Hn. destruct Hn as [Hc Hn].
    apply negb_true_iff, Ascii.eqb_neq in Hc.
    destruct (IH (advance lx) Hn (stands_at_tail _ _ _ Hs Hc)) as [H1 H2].
    split; [exact H1 |]. rewrite H2, advance_position; [lia |].
    rewrite (stands_at_head _ _ _ Hs). exact Hc.
Qed.

Lemma advance_n_remaining (n : nat) (lx : Lexer) :
  (remaining (advance_n n lx) <= remaining lx)%nat.
Proof.
  apply scans_remaining. apply (advance_n_closed _ (scans_step_closed lx)), scans_refl.
Qed.

Lemma get_stands (s src : string) (p : nat) :
  (forall j c, String.get j s = Some c -> String.get (p + j) src = Some c) ->
  substring p (String.length s) src = s.
Proof.
  revert src. induction p as [| p IHp]; intros src H.
  - revert src H. induction s as [| c s IH]; intros src H.
    + destruct src; reflexivity.
    + pose proof (H 0%nat c eq_refl) as H0. simpl in H0.
      destruct src as [| c' src]; [discriminate |]. simpl in H0. injection H0 as ->.
      simpl. f_equal. apply IH. intros j d Hj. apply (H (S j) d Hj).
  - destruct src as [| c' src].
    + destruct s as [| c s]; [reflexivity |].
      specialize (H 0%nat c eq_refl). destruct p; discriminate.
    + simpl. apply IHp. intros j d Hj. apply (H j d Hj).
Qed.

Lemma stands_at_lexeme (lx : Lexer) (s : string) :
  no_nul s = true -> stands_at lx s ->
  substring (position lx) (String.length s) (source lx) = s.
Proof.
  intros Hn Hs. apply get_stands. intros j c Hj.
  assert (Hc : c <> NUL).
  { clear Hs. revert j Hj. induction s as [| d s IH]; intros j Hj; [destruct j; discriminate |].
    simpl in Hn. apply andb_true_iff in Hn. destruct Hn as [Hd Hn].
    destruct j as [| j]; simpl in Hj.
    - injection Hj as <-. now apply negb_true_iff, Ascii.eqb_neq in Hd.
    - eapply IH; eauto. }
  specialize (Hs j c Hj). unfold lexer_peek_at in Hs.
  destruct (String.get (position lx + j) (source lx)); congruence.
Qed.

Section DecimalLoop.

Variable fuel : nat.

Lemma number_loop_refuel (f e : bool) (lx : Lexer) (fuel' : nat) :
  (remaining lx < fuel)%nat -> (remaining lx < fuel')%nat ->
  number_loop fuel false false f e lx = number_loop fuel' false false f e lx.
Proof. intros. apply number_loop_fuel; assumption. Qed.

Lemma number_loop_digit (f e : bool) (lx : Lexer) :
  (remaining lx < fuel)%nat -> isdigit (lexer_peek lx) = true ->
  number_loop fuel false false f e lx = number_loop fuel false false f e (advance lx).
Proof.
  intros Hf Hd. destruct (digit_facts _ Hd) as (H1 & H2 & _ & H4).
  apply Ascii.eqb_neq in H4. pose proof (advance_remaining lx H4) as Hr.
  rewrite (number_loop_refuel f e lx (S fuel)) by lia.
  cbn [number_loop]. rewrite H1, H2, Hd. cbn [negb].
  symmetry. apply number_loop_refuel; lia.
Qed.

Lemma number_loop_digits (ds rest : string) (f e : bool) (lx : Lexer) :
  all_digits ds = true -> stands_at lx (ds ++ rest) -> (remaining lx < fuel)%nat ->
  number_loop fuel false false f e lx = number_loop fuel false false f e (advance_n (String.length ds) lx).
Proof.
  revert lx. induction ds as [| d ds IH]; intros lx Hd Hs Hf; [reflexivity |].
  simpl in Hd. apply andb_true_iff in Hd. destruct Hd as [Hd Hds].
  pose proof (stands_at_head _ _ _ Hs) as Hpk.
  destruct (digit_facts _ Hd) as (_ & _ & _ & Hn). apply Ascii.eqb_neq in Hn.
  rewrite number_loop_digit by (rewrite ?Hpk; assumption).
  cbn [String.length advance_n]. apply IH.
  - exact Hds.
  - apply (stands_at_tail _ _ _ Hs Hn).
  - pose proof (remaining_le_advance lx). lia.
Qed.

Lemma number_loop_point (e : bool) (lx : Lexer) :
  (remaining lx < fuel)%nat -> lexer_peek lx = "."%char ->
  number_loop fuel false false false false lx = number_loop fuel false false true false (advance lx).
Proof.
  intros Hf Hp.
  assert (Hn : lexer_peek lx <> NUL) by (rewrite Hp; discriminate).
  pose proof (advance_remaining lx Hn) as Hr.
  rewrite (number_loop_refuel false false lx (S fuel)) by lia.
  cbn [number_loop]. rewrite Hp. cbn.
  symmetry. apply number_loop_refuel; lia.
Qed.

Lemma number_loop_marker (f : bool) (lx : Lexer) :
  (remaining lx < fuel)%nat -> is_exponent_marker (lexer_peek lx) = true ->
  number_loop fuel false false f false lx
  = number_loop fuel false false true true (if (lexer_peek_at lx 1 =? "+")%char || (lexer_peek_at lx 1 =? "-")%char
                  then advance (advance lx) else advance lx).
Proof.
  intros Hf Hm.
  assert (Hn : lexer_peek lx <> NUL).
  { intros E. rewrite E in Hm. discriminate. }
  assert (Hdot : (lexer_peek lx =? ".")%char = false).
  { unfold is_exponent_marker in Hm. apply orb_true_iff in Hm.
    rewrite !Ascii.eqb_eq in Hm. destruct Hm as [-> | ->]; reflexivity. }
  pose proof (advance_remaining lx Hn) as Hr.
  pose proof (remaining_le_advance (advance lx)) as Hr2.
  rewrite (number_loop_refuel f false lx (S fuel)) by lia.
  cbn [number_loop]. rewrite Hdot. unfold is_exponent_marker in Hm. rewrite Hm.
  destruct ((lexer_peek_at lx 1 =? "+")%char || (lexer_peek_at lx 1 =? "-")%char);
    symmetry; apply number_loop_refuel; lia.
Qed.

Lemma number_loop_offending (f e : bool) (lx : Lexer) :
  (remaining lx < fuel)%nat ->
  (lexer_peek lx = "."%char /\ f || e = true)
  \/ (is_exponent_marker (lexer_peek lx) = true /\ e = true) ->
  number_loop fuel false false f e lx = (f, lexer_error lx "Invalid number format").
Proof.
  intros Hf H.
  rewrite (number_loop_refuel f e lx (S fuel)) by lia.
  cbn [number_loop]. destruct H as [[Hp Hfe] | [Hm He]].
  - rewrite Hp. cbn. rewrite Hfe. reflexivity.
  - assert (Hdot : (lexer_peek lx =? ".")%char = false).
    { unfold is_exponent_marker in Hm. apply orb_true_iff in Hm.
      rewrite !Ascii.eqb_eq in Hm. destruct Hm as [-> | ->]; reflexivity. }
    rewrite Hdot. unfold is_exponent_marker in Hm. rewrite Hm, He. reflexivity.
Qed.

End DecimalLoop.

Lemma string_length_app (a b : string) :
  String.length (a ++ b) = (String.length a + String.length b)%nat.
Proof. induction a as [| x a IH]; simpl; [reflexivity | now rewrite IH]. Qed.

Lemma string_app_assoc (a b c : string) : (a ++ b) ++ c = a ++ (b ++ c).
Proof. induction a as [| x a IH]; simpl; [reflexivity | now rewrite IH]. Qed.

Lemma marker_facts (c : ascii) :
  is_exponent_marker c = true ->
  (c =? NUL)%char = false /\ (c =? ".")%char = false
  /\ (c =? "+")%char || (c =? "-")%char = false /\ (c =? "0")%char = false
  /\ (c =? "x")%char || (c =? "X")%char = false
  /\ (c =? "b")%char || (c =? "B")%char = false.
Proof.
  unfold is_exponent_marker. intros H. apply orb_true_iff in H.
  rewrite !Ascii.eqb_eq in H. destruct H as [-> | ->]; repeat split.
Qed.

Lemma well_formed_fraction_no_nul (frac : option string) :
  well_formed_fraction frac -> no_nul (fraction_text frac) = true.
Proof. destruct frac as [ds |]; simpl; [apply all_digits_no_nul | reflexivity]. Qed.

Lemma well_formed_exponent_no_nul (ex : option (ascii * string * string)) :
  well_formed_exponent ex -> no_nul (exponent_text ex) = true.
Proof.
  destruct ex as [[[mark sgn] ds] |]; simpl; [| reflexivity].
  intros (Hm & Hs & Hd). destruct (marker_facts _ Hm) as (-> & _). simpl.
  rewrite no_nul_app, (all_digits_no_nul _ Hd).
  destruct Hs as [-> | [-> | ->]]; reflexivity.
Qed.

Section DecimalLiteral.

Variable fuel : nat.

Lemma number_loop_fraction (frac : option string) (rest : string) (lx : Lexer) :
  well_formed_fraction frac ->
  stands_at lx (fraction_text frac ++ rest) -> (remaining lx < fuel)%nat ->
  number_loop fuel false false false false lx
  = number_loop fuel false false (match frac with Some _ => true | None => false end) false
       (advance_n (String.length (fraction_text frac)) lx).
Proof.
  destruct frac as [ds |]; simpl; [| reflexivity].
  intros Hd Hs Hf. pose proof (stands_at_head _ _ _ Hs) as Hp.
  rewrite (number_loop_point fuel false lx Hf Hp).
  apply (number_loop_digits fuel ds rest); [exact Hd | |].
  - apply (stands_at_tail _ _ _ Hs). discriminate.
  - pose proof (remaining_le_advance lx). lia.
Qed.

Lemma number_loop_exponent (ex : option (ascii * string * string)) (f : bool) (c : ascii)
    (rest : string) (lx : Lexer) :
  well_formed_exponent ex ->
  (c =? "+")%char || (c =? "-")%char = false ->
  stands_at lx (exponent_text ex ++ String c rest) -> (remaining lx < fuel)%nat ->
  number_loop fuel false false f false lx
  = number_loop fuel false false (match ex with Some _ => true | None => f end) (match ex with Some _ => true | None => false end)
       (advance_n (String.length (exponent_text ex)) lx).
Proof.
  destruct ex as [[[mark sgn] ds] |]; simpl; [| reflexivity].
  intros (Hm & Hsg & Hd) Hc Hs Hf.
  pose proof (stands_at_head _ _ _ Hs) as Hp.
  destruct (marker_facts _ Hm) as (Hn & _). apply Ascii.eqb_neq in Hn.
  pose proof (stands_at_tail _ _ _ Hs Hn) as Hs1.
  pose proof (remaining_le_advance lx) as Hr1.
  pose proof (remaining_le_advance (advance lx)) as Hr2.
  rewrite number_loop_marker by (rewrite ?Hp; assumption).
  assert (Hnext : lexer_peek_at lx 1 = lexer_peek (advance lx)).
  { unfold lexer_peek. rewrite peek_at_advance; [reflexivity |]. rewrite Hp. exact Hn. }
  rewrite Hnext.
  destruct Hsg as [-> | [-> | ->]]; cbn [append String.length] in *.
  - (* no sign *)
    assert (Hns : (lexer_peek (advance lx) =? "+")%char
                  || (lexer_peek (advance lx) =? "-")%char = false).
    { destruct ds as [| d ds]; cbn [append] in Hs1;
        rewrite (stands_at_head _ _ _ Hs1); [exact Hc |].
      simpl in Hd. apply andb_true_iff in Hd. destruct Hd as [Hd _].
      apply (digit_facts _ Hd). }
    rewrite Hns. cbn [advance_n].
    apply (number_loop_digits fuel ds (String c rest)); [exact Hd | exact Hs1 | lia].
  - rewrite (stands_at_head _ _ _ Hs1). cbn [Ascii.eqb Bool.eqb orb andb advance_n].
    apply (number_loop_digits fuel ds (String c rest)); [exact Hd | | lia].
    apply (stands_at_tail _ _ _ Hs1). discriminate.
  - rewrite (stands_at_head _ _ _ Hs1). cbn [Ascii.eqb Bool.eqb orb andb advance_n].
    apply (number_loop_digits fuel ds (String c rest)); [exact Hd | | lia].
    apply (stands_at_tail _ _ _ Hs1). discriminate.
Qed.

(** The loop of [lexer_read_number] over a decimal literal that is followed
    by a point or an exponent marker it cannot take. *)
Lemma number_loop_malformed (ds : string) (frac : option string)
    (ex : option (ascii * string * string)) (c : ascii) (rest : string) (lx : Lexer) :
  all_digits ds = true -> well_formed_fraction frac -> well_formed_exponent ex ->
  (c = "."%char /\ (frac <> None \/ ex <> None))
  \/ (is_exponent_marker c = true /\ ex <> None) ->
  stands_at lx (decimal_text ds frac ex ++ String c rest) ->
  (remaining lx < fuel)%nat ->
  number_loop fuel false false false false lx
  = (true, lexer_error (advance_n (String.length (decimal_text ds frac ex)) lx)
                       "Invalid number format").
Proof.
  intros Hd Hfr Hex Hc Hs Hf. unfold decimal_text in *.
  rewrite !string_app_assoc in Hs.
  assert (Hsign : (c =? "+")%char || (c =? "-")%char = false).
  { destruct Hc as [[-> _] | [Hm _]]; [reflexivity | apply (marker_facts _ Hm)]. }
  (* digits *)
  destruct (advance_over ds _ lx (all_digits_no_nul _ Hd) Hs) as [Hs1 _].
  pose proof (advance_n_remaining (String.length ds) lx) as Hr1.
  rewrite (number_loop_digits fuel ds _ false false lx Hd Hs Hf).
  set (l1 := advance_n (String.length ds) lx) in *.
  (* fraction *)
  destruct (advance_over (fraction_text frac) _ l1
              (well_formed_fraction_no_nul _ Hfr) Hs1) as [Hs2 _].
  pose proof (advance_n_remaining (String.length (fraction_text frac)) l1) as Hr2.
  rewrite (number_loop_fraction frac _ l1 Hfr Hs1) by lia.
  set (l2 := advance_n (String.length (fraction_text frac)) l1) in *.
  (* exponent *)
  destruct (advance_over (exponent_text ex) _ l2
              (well_formed_exponent_no_nul _ Hex) Hs2) as [Hs3 _].
  pose proof (advance_n_remaining (String.length (exponent_text ex)) l2) as Hr3.
  rewrite (number_loop_exponent ex _ c rest l2 Hex Hsign Hs2) by lia.
  set (l3 := advance_n (String.length (exponent_text ex)) l2) in *.
  assert (El : advance_n (String.length (ds ++ fraction_text frac ++ exponent_text ex)) lx
               = l3).
  { rewrite !string_length_app, !advance_n_add. reflexivity. }
  rewrite El.
  pose proof (stands_at_head _ _ _ Hs3) as Hp.
  rewrite number_loop_offending.
  - f_equal. destruct ex; [reflexivity |]. destruct frac; [reflexivity |].
    destruct Hc as [[_ [H | H]] | [_ H]]; congruence.
  - lia.
  - rewrite Hp. destruct Hc as [[-> Hne] | [Hm Hne]]; [left | right].
    + split; [reflexivity |]. destruct ex; [reflexivity |].
      destruct frac; [reflexivity |]. destruct Hne; congruence.
    + split; [exact Hm |]. destruct ex; [reflexivity | congruence].
Qed.

End DecimalLiteral.

Lemma after_digits (frac : option string) (ex : option (ascii * string * string))
    (c : ascii) (rest : string) :
  well_formed_exponent ex ->
  c = "."%char \/ is_exponent_marker c = true ->
  exists d r,
    fraction_text frac ++ exponent_text ex ++ String c rest = String d r
    /\ (d = "."%char \/ is_exponent_marker d = true).
Proof.
  intros Hex Hc. destruct frac as [ds |]; simpl; [eauto |].
  destruct ex as [[[mark sgn] ds] |]; simpl; [| eauto].
  destruct Hex as (Hm & _). eauto.
Qed.

Lemma not_a_radix_prefix (d : ascii) :
  d = "."%char \/ is_exponent_marker d = true \/ isdigit d = true ->
  (d =? "x")%char || (d =? "X")%char = false
  /\ (d =? "b")%char || (d =? "B")%char = false.
Proof.
  intros [-> | [H | H]]; [split; reflexivity | |].
  - destruct (marker_facts _ H) as (_ & _ & _ & _ & H1 & H2). auto.
  - destruct d as [b0 b1 b2 b3 b4 b5 b6 b7].
    destruct b0, b1, b2, b3, b4, b5, b6, b7; vm_compute in H; try discriminate;
      split; reflexivity.
Qed.

(** C6, amended: a decimal literal stands at the cursor (digits, then
    perhaps a point and digits, then perhaps an exponent: a marker, perhaps a
    sign, digits) and is followed by a byte it cannot take: a ['.'] when a
    point or an exponent has been read, or an exponent marker when an
    exponent has been read.  Then [lexer_read_number] records "Invalid number
    format" and stops on that byte: the token, a float, is the literal read
    so far, and the cursor rests on the offending byte. *)
Theorem malformed_number_is_reported (lx : Lexer) (ds : string) (frac : option string)
    (ex : option (ascii * string * string)) (c : ascii) :
  all_digits ds = true -> well_formed_fraction frac -> well_formed_exponent ex ->
  (c = "."%char /\ (frac <> None \/ ex <> None))
  \/ (is_exponent_marker c = true /\ ex <> None) ->
  let text := decimal_text ds frac ex in
  stands_at lx (text ++ String c EmptyString) ->
  let t := fst (lexer_read_number lx) in
  let lx' := snd (lexer_read_number lx) in
  has_error lx' = true
  /\ error_msg lx' = "Invalid number format"
  /\ position lx' = (position lx + String.length text)%nat
  /\ lexer_peek lx' = c
  /\ tok_type t = TOKEN_NUMBER_FLOAT
  /\ tok_value t = Some text
  /\ tok_length t = Z.of_nat (String.length text).
Proof.
  intros Hd Hfr Hex Hc text Hs.
  assert (Hc' : c = "."%char \/ is_exponent_marker c = true)
    by (destruct Hc as [[H _] | [H _]]; auto).
  assert (Hnn : no_nul text = true).
  { unfold text, decimal_text. rewrite !no_nul_app, (all_digits_no_nul _ Hd),
      (well_formed_fraction_no_nul _ Hfr), (well_formed_exponent_no_nul _ Hex).
    reflexivity. }
  set (lx0 := lexer_start_token lx).
  assert (Hs0 : stands_at lx0 (text ++ String c EmptyString)) by exact Hs.
  unfold lexer_read_number. fold lx0.
  (* no radix prefix *)
  assert (Hpre : (if (lexer_peek lx0 =? "0")%char
                  then
                    if (lexer_peek_at lx0 1 =? "x")%char || (lexer_peek_at lx0 1 =? "X")%char
                    then (true, false, advance (advance lx0))
                    else if (lexer_peek_at lx0 1 =? "b")%char
                            || (lexer_peek_at lx0 1 =? "B")%char
                         then (false, true, advance (advance lx0))
                         else (false, false, lx0)
                  else (false, false, lx0)) = (false, false, lx0)).
  { destruct (lexer_peek lx0 =? "0")%char eqn:E0; [| reflexivity].
    apply Ascii.eqb_eq in E0.
    assert (Hsecond : exists d, lexer_peek_at lx0 1 = d
                                /\ (d = "."%char \/ is_exponent_marker d = true
                                    \/ isdigit d = true)).
    { unfold text, decimal_text in Hs0. rewrite !string_app_assoc in Hs0.
      destruct (after_digits frac ex c EmptyString Hex Hc') as (d & r & Er & Hdr).
      rewrite Er in Hs0.
      destruct ds as [| d1 ds1]; cbn [append] in Hs0.
      - rewrite (stands_at_head _ _ _ Hs0) in E0. subst d.
        destruct Hdr as [Hdr | Hdr]; [discriminate |].
        destruct (marker_facts _ Hdr) as (_ & _ & _ & H0 & _). discriminate.
      - destruct ds1 as [| d2 ds2]; cbn [append] in Hs0.
        + exists d. split; [apply (Hs0 1%nat); reflexivity | tauto].
        + exists d2. split; [apply (Hs0 1%nat); reflexivity |].
          simpl in Hd. apply andb_true_iff in Hd. destruct Hd as [_ Hd].
          apply andb_true_iff in Hd. tauto. }
    destruct Hsecond as (d & -> & Hd2).
    destruct (not_a_radix_prefix d Hd2) as [-> ->]. reflexivity. }
  rewrite Hpre.
  rewrite (number_loop_malformed (budget lx0) ds frac ex c EmptyString lx0 Hd Hfr Hex Hc Hs0)
    by (unfold budget; lia).
  fold text.
  destruct (advance_over text (String c EmptyString) lx0 Hnn Hs0) as [Hs1 Hp1].
  set (l1 := advance_n (String.length text) lx0) in *.
  assert (Hst : start_position l1 = position lx).
  { apply (advance_n_closed _ (start_position_step_closed (position lx))). reflexivity. }
  assert (Hsrc : source l1 = source lx).
  { apply (advance_n_closed _ (scans_step_closed lx0) _ lx0 (scans_refl lx0)). }
  cbn [fst snd].
  rewrite tok_type_number_token, tok_value_number_token, tok_length_number_token.
  assert (Hlex : lexeme (lexer_error l1 "Invalid number format") = text).
  { unfold lexeme. cbn [lexer_error start_position position source].
    rewrite Hst, Hsrc, Hp1. change (position lx0) with (position lx).
    replace (position lx + String.length text - position lx)%nat
      with (String.length text) by lia.
    apply stands_at_lexeme; [exact Hnn |].
    intros j d Hj. apply Hs. rewrite <- append_correct1; [exact Hj |].
    apply get_some_lt in Hj. exact Hj. }
  rewrite Hlex, (c_str_no_nul _ Hnn).
  cbn [has_error error_msg position start_position lexer_error].
  rewrite Hst, Hp1. change (position lx0) with (position lx).
  repeat split; try reflexivity.
  - apply (stands_at_head _ _ _ Hs1).
  - lia.
Qed.

Lemma malformed_number_is_reported_witness :
  let lx := lexer_create "1.5e+3e2" in
  has_error (snd (lexer_read_number lx)) = true
  /\ error_msg (snd (lexer_read_number lx)) = "Invalid number format"
  /\ position (snd (lexer_read_number lx)) = (position lx + String.length "1.5e+3")%nat
  /\ lexer_peek (snd (lexer_read_number lx)) = "e"%char
  /\ tok_type (fst (lexer_read_number lx)) = TOKEN_NUMBER_FLOAT
  /\ tok_value (fst (lexer_read_number lx)) = Some "1.5e+3"
  /\ tok_length (fst (lexer_read_number lx)) = Z.of_nat (String.length "1.5e+3").
Proof.
  apply (malformed_number_is_reported (lexer_create "1.5e+3e2")
           "1" (Some "5") (Some ("e"%char, "+", "3")) "e"%char).
  - reflexivity.
  - reflexivity.
  - simpl. tauto.
  - right. split; [reflexivity | discriminate].
  - intros j d.
    do 7 (destruct j as [| j]; [intros [= <-]; reflexivity |]).
    destruct j; discriminate.
Defined.

(** ** Two further facts about the code *)

(** [lexer_peek_token(lexer, 1)] does not return: the token its loop fetches
    with [lexer_next] is the one it queued the round before. *)
Lemma peek_fill_loop_one (fuel : nat) (lx : Lexer) :
  0 <= lookahead_pos lx <= 1 -> peek_fill_loop fuel lx 1 = None.
Proof.
  revert lx. induction fuel as [| fuel IH]; intros lx H; cbn [peek_fill_loop];
    (replace (lookahead_pos lx <=? 1) with true by (symmetry; apply Z.leb_le; lia));
    [reflexivity |].
  pose proof (lexer_next_queue lx H) as Hn.
  destruct (lexer_next lx) as [t lx1]. cbn [snd] in Hn.
  apply IH. cbn. lia.
Qed.

Lemma peek_one_never_returns (lx : Lexer) (fuel : nat) :
  reachable lx -> lexer_peek_token fuel lx 1 = None.
Proof.
  intros Hr. apply reachable_queue in Hr. unfold lexer_peek_token.
  cbn [orb Z.ltb Z.geb Z.compare MAX_LOOKAHEAD].
  now rewrite peek_fill_loop_one.
Qed.

Lemma substring_snoc (n : nat) (s : string) (c : ascii) :
  String.get n s = Some c ->
  substring 0 (S n) s = substring 0 n s ++ String c EmptyString.
Proof.
  revert n. induction s as [| a s IH]; intros n H; [destruct n; discriminate |].
  destruct n as [| n].
  - simpl in H. injection H as ->. simpl. destruct s; reflexivity.
  - simpl in H. cbn [substring]. rewrite (IH n H). reflexivity.
Qed.

Lemma list_ascii_of_string_app (a b : string) :
  list_ascii_of_string (a ++ b) = (list_ascii_of_string a ++ list_ascii_of_string b)%list.
Proof. induction a as [| c a IH]; simpl; [reflexivity | now rewrite IH]. Qed.

(** Outside block comments a consumed line feed is counted once:
    [lexer_advance] keeps the line counter in step with the line feeds
    consumed. *)
Lemma lexer_advance_counts_newlines (lx : Lexer) :
  line (advance lx) - newlines_consumed (advance lx) = line lx - newlines_consumed lx.
Proof.
  unfold advance, lexer_advance.
  destruct (lexer_peek lx =? NUL)%char eqn:En; [reflexivity |].
  assert (Hget : String.get (position lx) (source lx) = Some (lexer_peek lx)).
  { unfold lexer_peek, lexer_peek_at in *. rewrite Nat.add_0_r in *.
    destruct (String.get _ _); [reflexivity | discriminate]. }
  unfold newlines_consumed.
  destruct (lexer_peek lx =? "010")%char eqn:El;
    cbn [snd set_cursor source position line];
    rewrite (substring_snoc _ _ _ Hget), list_ascii_of_string_app, filter_app,
      length_app; cbn [list_ascii_of_string filter]; rewrite El; cbn [List.length]; lia.
Qed.

(** ** The scan does not look at the queue *)

Section Frame.

Variable la : Token * Token.
Variable k : Z.

(** The same lexer with another lookahead queue. *)
Let Q (lx : Lexer) : Lexer := set_lookahead lx la k.

Lemma advance_frame (lx : Lexer) : advance (Q lx) = Q (advance lx).
Proof.
  unfold advance, lexer_advance. change (lexer_peek (Q lx)) with (lexer_peek lx).
  destruct (_ =? NUL)%char; [reflexivity |].
  destruct (_ =? "010")%char; reflexivity.
Qed.

Lemma lexer_advance_frame (lx : Lexer) :
  lexer_advance (Q lx) = (fst (lexer_advance lx), Q (snd (lexer_advance lx))).
Proof.
  rewrite !lexer_advance_pair. cbn [fst snd]. now rewrite advance_frame.
Qed.

Lemma skip_whitespace_loop_frame (fuel : nat) (lx : Lexer) :
  skip_whitespace_loop fuel (Q lx) = Q (skip_whitespace_loop fuel lx).
Proof.
  revert lx. induction fuel as [| fuel IH]; intros lx; cbn [skip_whitespace_loop];
    [reflexivity |].
  change (lexer_peek (Q lx)) with (lexer_peek lx).
  destruct (_ =? NUL)%char; [reflexivity |].
  destruct (_ || _); [| reflexivity]. now rewrite advance_frame, IH.
Qed.

Lemma line_comment_loop_frame (fuel : nat) (lx : Lexer) :
  line_comment_loop fuel (Q lx) = Q (line_comment_loop fuel lx).
Proof.
  revert lx. induction fuel as [| fuel IH]; intros lx; cbn [line_comment_loop];
    [reflexivity |].
  change (lexer_peek (Q lx)) with (lexer_peek lx).
  destruct (_ && _); [| reflexivity]. now rewrite advance_frame, IH.
Qed.

Lemma block_comment_loop_frame (fuel : nat) (depth : Z) (lx : Lexer) :
  block_comment_loop fuel depth (Q lx)
  = (fst (block_comment_loop fuel depth lx), Q (snd (block_comment_loop fuel depth lx))).
Proof.
  revert depth lx. induction fuel as [| fuel IH]; intros depth lx;
    cbn [block_comment_loop]; [reflexivity |].
  change (lexer_peek (Q lx)) with (lexer_peek lx).
  change (lexer_peek_at (Q lx)) with (lexer_peek_at lx).
  destruct (_ && _); [| reflexivity].
  destruct (_ && _); [now rewrite !advance_frame, IH |].
  destruct (_ && _); [now rewrite !advance_frame, IH |].
  destruct (_ =? "010")%char.
  - change (set_cursor (Q lx) (position (Q lx)) (line (Q lx) + 1) 0)
      with (Q (set_cursor lx (position lx) (line lx + 1) 0)).
    now rewrite advance_frame, IH.
  - now rewrite advance_frame, IH.
Qed.

Lemma number_loop_frame (fuel : nat) (h b f e : bool) (lx : Lexer) :
  number_loop fuel h b f e (Q lx)
  = (fst (number_loop fuel h b f e lx), Q (snd (number_loop fuel h b f e lx))).
Proof.
  revert f e lx. induction fuel as [| fuel IH]; intros f e lx; cbn [number_loop];
    [reflexivity |].
  change (lexer_peek (Q lx)) with (lexer_peek lx).
  change (lexer_peek_at (Q lx)) with (lexer_peek_at lx).
  destruct h; [destruct (negb _); [reflexivity | now rewrite advance_frame, IH] |].
  destruct b; [destruct (_ && _); [reflexivity | now rewrite advance_frame, IH] |].
  destruct (_ =? ".")%char;
    [destruct (f || e); [reflexivity | now rewrite advance_frame, IH] |].
  destruct (_ || _).
  { destruct e; [reflexivity |].
    destruct (_ || _); now rewrite !advance_frame, IH. }
  destruct (negb _); [reflexivity | now rewrite advance_frame, IH].
Qed.

Lemma unicode_escape_loop_frame (n : nat) (lx : Lexer) :
  unicode_escape_loop n (Q lx) = Q (unicode_escape_loop n lx).
Proof.
  revert lx. induction n as [| n IH]; intros lx; cbn [unicode_escape_loop];
    [reflexivity |].
  rewrite lexer_advance_frame. destruct (lexer_advance lx) as [h lx1]. cbn [fst snd].
  destruct (negb _); [reflexivity | apply IH].
Qed.

Lemma read_escape_frame (c : ascii) (lx : Lexer) :
  read_escape c (Q lx) = (fst (read_escape c lx), Q (snd (read_escape c lx))).
Proof.
  unfold read_escape. rewrite lexer_advance_frame.
  destruct (lexer_advance lx) as [next lx1]. cbn [fst snd].
  repeat match goal with
         | |- context [if (next =? ?c)%char then _ else _] =>
             destruct (next =? c)%char; [try reflexivity |]
         end; try reflexivity.
  - rewrite lexer_advance_frame. destruct (lexer_advance lx1) as [h0 lx2]. cbn [fst snd].
    rewrite lexer_advance_frame. destruct (lexer_advance lx2) as [h1 lx3]. reflexivity.
  - cbn [fst snd]. now rewrite unicode_escape_loop_frame.
Qed.

Lemma string_loop_frame (fuel : nat) (quote : ascii) (lx : Lexer) :
  string_loop fuel quote (Q lx) = Q (string_loop fuel quote lx).
Proof.
  revert lx. induction fuel as [| fuel IH]; intros lx; cbn [string_loop];
    [reflexivity |].
  change (lexer_peek (Q lx)) with (lexer_peek lx).
  destruct (_ && _); [| reflexivity].
  rewrite lexer_advance_frame. destruct (lexer_advance lx) as [c lx1]. cbn [fst snd].
  set (r := if (c =? "\")%char then read_escape c lx1 else (c, lx1)).
  assert (E : (if (c =? "\")%char then read_escape c (Q lx1) else (c, Q lx1))
              = (fst r, Q (snd r))).
  { subst r. destruct (c =? "\")%char; [apply read_escape_frame | reflexivity]. }
  rewrite E. destruct r as [c' lx2]. cbn [fst snd].
  change (string_buffer_pos (Q lx2)) with (string_buffer_pos lx2).
  destruct (_ >=? _); [reflexivity |].
  change (set_string_buffer (Q lx2) (string_buffer (Q lx2) ++ String c' ""))
    with (Q (set_string_buffer lx2 (string_buffer lx2 ++ String c' ""))).
  apply IH.
Qed.

Lemma identifier_loop_frame (fuel : nat) (lx : Lexer) :
  identifier_loop fuel (Q lx) = Q (identifier_loop fuel lx).
Proof.
  revert lx. induction fuel as [| fuel IH]; intros lx; cbn [identifier_loop];
    [reflexivity |].
  change (lexer_peek (Q lx)) with (lexer_peek lx).
  destruct (is_identifier_char _); [| reflexivity].
  change (position (Q lx)) with (position lx).
  change (start_position (Q lx)) with (start_position lx).
  destruct (_ >=? _); [reflexivity | now rewrite advance_frame, IH].
Qed.

Lemma advance_n_frame (n : nat) (lx : Lexer) : advance_n n (Q lx) = Q (advance_n n lx).
Proof.
  revert lx. induction n as [| n IH]; intros lx; cbn [advance_n]; [reflexivity |].
  now rewrite advance_frame, IH.
Qed.

Lemma skip_blanks_and_comments_frame (fuel : nat) (lx : Lexer) :
  skip_blanks_and_comments fuel (Q lx) = Q (skip_blanks_and_comments fuel lx).
Proof.
  revert lx. induction fuel as [| fuel IH]; intros lx; cbn [skip_blanks_and_comments];
    [reflexivity |].
  unfold lexer_skip_whitespace. change (budget (Q lx)) with (budget lx).
  rewrite skip_whitespace_loop_frame.
  set (lx0 := skip_whitespace_loop (budget lx) lx).
  unfold lexer_skip_line_comment, lexer_skip_block_comment.
  change (lexer_peek_at (Q lx0)) with (lexer_peek_at lx0).
  change (budget (Q lx0)) with (budget lx0).
  destruct (_ && _).
  { rewrite !advance_frame, line_comment_loop_frame. apply IH. }
  destruct (_ && _); [| reflexivity].
  rewrite !advance_frame, block_comment_loop_frame.
  destruct (block_comment_loop _ _ _) as [d lx2]. cbn [fst snd].
  destruct (d >? 0);
    [exact (IH (lexer_error lx2 "Unclosed multi-line comment")) | apply IH].
Qed.

Lemma read_number_frame (lx : Lexer) :
  lexer_read_number (Q lx) = (fst (lexer_read_number lx), Q (snd (lexer_read_number lx))).
Proof.
  unfold lexer_read_number.
  change (lexer_start_token (Q lx)) with (Q (lexer_start_token lx)).
  set (lx0 := lexer_start_token lx).
  change (lexer_peek (Q lx0)) with (lexer_peek lx0).
  change (lexer_peek_at (Q lx0)) with (lexer_peek_at lx0).
  cbv zeta.
  destruct (lexer_peek lx0 =? "0")%char;
    [ destruct ((lexer_peek_at lx0 1 =? "x")%char || (lexer_peek_at lx0 1 =? "X")%char);
      [| destruct ((lexer_peek_at lx0 1 =? "b")%char
                   || (lexer_peek_at lx0 1 =? "B")%char) ] |];
    cbv iota beta; rewrite ?advance_frame;
    match goal with
    | |- context [number_loop (budget (Q ?l)) _ _ _ _ (Q ?l)] =>
        change (budget (Q l)) with (budget l)
    end;
    rewrite number_loop_frame;
    destruct (number_loop _ _ _ _ _ _) as [f lx2]; reflexivity.
Qed.

Lemma read_string_frame (lx : Lexer) :
  lexer_read_string (Q lx) = (fst (lexer_read_string lx), Q (snd (lexer_read_string lx))).
Proof.
  unfold lexer_read_string.
  change (lexer_start_token (Q lx)) with (Q (lexer_start_token lx)).
  rewrite lexer_advance_frame.
  destruct (lexer_advance (lexer_start_token lx)) as [quote lx1]. cbn [fst snd].
  change (set_string_buffer (Q lx1) "") with (Q (set_string_buffer lx1 "")).
  change (budget (Q (set_string_buffer lx1 ""))) with (budget (set_string_buffer lx1 "")).
  rewrite string_loop_frame.
  set (lx2 := string_loop _ _ _).
  change (lexer_peek (Q lx2)) with (lexer_peek lx2).
  destruct (negb _); [reflexivity |].
  rewrite advance_frame. reflexivity.
Qed.

Lemma read_identifier_frame (lx : Lexer) :
  lexer_read_identifier (Q lx)
  = (fst (lexer_read_identifier lx), Q (snd (lexer_read_identifier lx))).
Proof.
  unfold lexer_read_identifier.
  change (lexer_start_token (Q lx)) with (Q (lexer_start_token lx)).
  rewrite advance_frame.
  change (budget (Q (advance (lexer_start_token lx))))
    with (budget (advance (lexer_start_token lx))).
  rewrite identifier_loop_frame.
  set (lx2 := identifier_loop _ _).
  change (lexeme (Q lx2)) with (lexeme lx2).
  destruct (keyword_lookup _ _); reflexivity.
Qed.

Lemma read_operator_frame (lx : Lexer) :
  lexer_read_operator (Q lx)
  = (fst (lexer_read_operator lx), Q (snd (lexer_read_operator lx))).
Proof.
  unfold lexer_read_operator.
  change (lexer_start_token (Q lx)) with (Q (lexer_start_token lx)).
  rewrite (best_operator_ext (Q (lexer_start_token lx)) (lexer_start_token lx))
    by (auto using operator_table_lengths).
  destruct (best_operator _ _ _) as [o |].
  - rewrite advance_n_frame. reflexivity.
  - change (lexer_peek (Q (lexer_start_token lx))) with (lexer_peek (lexer_start_token lx)).
    change (lexer_error (Q (lexer_start_token lx)) ?m)
      with (Q (lexer_error (lexer_start_token lx) m)).
    rewrite advance_frame. reflexivity.
Qed.

(** The token of a scan and the cursor after it do not depend on the
    lookahead queue, which the scan hands on untouched. *)
Lemma lexer_scan_frame (lx : Lexer) :
  lexer_scan (Q lx) = (fst (lexer_scan lx), Q (snd (lexer_scan lx))).
Proof.
  unfold lexer_scan. change (budget (Q lx)) with (budget lx).
  rewrite skip_blanks_and_comments_frame.
  set (lx0 := skip_blanks_and_comments (budget lx) lx).
  change (lexer_peek (Q lx0)) with (lexer_peek lx0).
  change (lexer_peek_at (Q lx0)) with (lexer_peek_at lx0).
  destruct (lexer_peek lx0 =? NUL)%char; [reflexivity |].
  destruct (lexer_peek lx0 =? "010")%char.
  { change (lexer_start_token (Q lx0)) with (Q (lexer_start_token lx0)).
    rewrite advance_frame. reflexivity. }
  cbv zeta.
  destruct (isdigit (lexer_peek lx0)
            || ((lexer_peek lx0 =? ".")%char && isdigit (lexer_peek_at lx0 1)));
    [apply read_number_frame |].
  destruct ((lexer_peek lx0 =? "034")%char || (lexer_peek lx0 =? "'")%char);
    [apply read_string_frame |].
  destruct (is_identifier_start (lexer_peek lx0)); [apply read_identifier_frame |].
  destruct (starts_operator (lexer_peek_at lx0 0)); [apply read_operator_frame |].
  change (lexer_start_token (Q lx0)) with (Q (lexer_start_token lx0)).
  destruct (strchr punctuation_chars (lexer_peek lx0)).
  - rewrite lexer_advance_frame.
    destruct (lexer_advance (lexer_start_token lx0)) as [c lx1]. reflexivity.
  - match goal with
    | |- context [advance (lexer_error (Q ?l) ?m)] =>
        change (lexer_error (Q l) m) with (Q (lexer_error l m))
    end.
    rewrite advance_frame. reflexivity.
Qed.

End Frame.

(** ** Peeking *)

Lemma next_tokens_frame (n : nat) (lx : Lexer) (la : Token * Token) :
  lookahead_pos lx = 0 ->
  next_tokens n (set_lookahead lx la 0) = next_tokens n lx.
Proof.
  revert lx la. induction n as [| n IH]; intros lx la H0; [reflexivity |].
  cbn [next_tokens]. unfold lexer_next.
  change (lookahead_pos (set_lookahead lx la 0)) with 0. rewrite H0.
  cbn [Z.gtb Z.compare]. rewrite lexer_scan_frame.
  pose proof (lexer_scan_scans lx) as (_ & _ & _ & _ & Hn & _).
  destruct (lexer_scan lx) as [t lx1]. cbn [fst snd] in *.
  f_equal. apply IH. congruence.
Qed.

(** C10: in a reachable state [lexer_peek_token(lexer, 0)] returns (one
    iteration of its loop is enough), and the [lexer_next] that follows
    returns the very same token, which is also the token [lexer_next] returns
    when the peek is left out; the tokens consumed after a peek are, in number
    and order, those consumed without it. *)
Theorem peek_then_next_same_token (lx : Lexer) :
  reachable lx ->
  exists (t : Token) (lx' : Lexer),
    (forall fuel, lexer_peek_token (S fuel) lx 0 = Some (t, lx'))
    /\ fst (lexer_next lx') = t
    /\ fst (lexer_next lx) = t
    /\ forall n, next_tokens n lx' = next_tokens n lx.
Proof.
  intros Hr. apply reachable_queue in Hr.
  unfold lexer_peek_token. cbn [orb Z.ltb Z.geb Z.compare MAX_LOOKAHEAD].
  destruct (lookahead_pos lx >? 0) eqn:E.
  - exists (slot (lookahead lx) 0), lx.
    assert (E' : (lookahead_pos lx <=? 0) = false)
      by (apply Z.leb_gt; apply Z.gtb_lt in E; lia).
    repeat split.
    + intros fuel. cbn [peek_fill_loop]. rewrite E'. reflexivity.
    + unfold lexer_next. rewrite E. reflexivity.
    + unfold lexer_next. rewrite E. reflexivity.
  - assert (E0 : lookahead_pos lx = 0)
      by (rewrite Z.gtb_ltb in E; apply Z.ltb_ge in E; lia).
    pose proof (lexer_scan_scans lx) as (_ & _ & _ & _ & Hn & _).
    assert (Hnext : lexer_next lx = lexer_scan lx)
      by (unfold lexer_next; rewrite E; reflexivity).
    destruct (lexer_scan lx) as [t lx1] eqn:Es. cbn [snd] in Hn.
    exists t, (set_lookahead lx1 (set_slot (lookahead lx1) 0 t) 1).
    rewrite E0 in Hn.
    split; [| split; [| split]].
    + intros fuel. cbn [peek_fill_loop]. rewrite E0. cbn [Z.leb Z.compare].
      rewrite Hnext, Hn. cbn [Z.add].
      destruct fuel; reflexivity.
    + reflexivity.
    + rewrite Hnext. reflexivity.
    + intros [| n]; [reflexivity |]. cbn [next_tokens]. rewrite Hnext.
      change (lexer_next (set_lookahead lx1 (set_slot (lookahead lx1) 0 t) 1))
        with (t, set_lookahead lx1
                   (set_slot (set_slot (set_slot (lookahead lx1) 0 t) 0
                                       (slot (set_slot (lookahead lx1) 0 t) 1)) 1
                      (set_value (slot (set_slot (set_slot (lookahead lx1) 0 t) 0
                                          (slot (set_slot (lookahead lx1) 0 t) 1)) 1)
                                 None)) 0).
      apply (f_equal (cons t)). apply next_tokens_frame. exact Hn.
Qed.

Lemma peek_then_next_same_token_witness :
  exists (t : Token) (lx' : Lexer),
    (forall fuel, lexer_peek_token (S fuel) (lexer_create "x = 1") 0 = Some (t, lx'))
    /\ fst (lexer_next lx') = t
    /\ fst (lexer_next (lexer_create "x = 1")) = t
    /\ forall n, next_tokens n lx' = next_tokens n (lexer_create "x = 1").
Proof.
  apply (peek_then_next_same_token (lexer_create "x = 1")).
  apply reach_create.
Defined.

(** * Further properties of the lexer *)

(** ** The token loop of the drivers *)

Lemma lex_all_fuel (fuel fuel' : nat) (lx : Lexer) :
  lookahead_pos lx <= 0 ->
  (remaining lx < fuel)%nat -> (remaining lx < fuel')%nat ->
  lex_all fuel lx = lex_all fuel' lx.
Proof.
  revert fuel' lx. induction fuel as [| fuel IH]; intros [| fuel'] lx Hq H H'; try lia.
  cbn [lex_all]. unfold lexer_next. rewrite (empty_queue lx Hq).
  pose proof (lexer_scan_progress lx) as Hp.
  pose proof (lexer_scan_scans lx) as Hs.
  destruct (lexer_scan lx) as [t lx1]. cbn [fst snd] in *.
  destruct Hp as [[E _] | [_ Hlt]].
  - rewrite E. reflexivity.
  - pose proof (scans_remaining_lt _ _ Hs Hlt) as Hr.
    destruct Hs as (_ & _ & _ & _ & Hn & _).
    rewrite (IH fuel' lx1) by (try lia; congruence). reflexivity.
Qed.

Lemma lex_all_ends (fuel : nat) (lx : Lexer) :
  lookahead_pos lx <= 0 ->
  (remaining lx < fuel)%nat ->
  exists front last,
    fst (lex_all fuel lx) = (front ++ [last])%list
    /\ stops last = true
    /\ Forall (fun t => stops t = false) front
    /\ (List.length front <= remaining lx)%nat.
Proof.
  revert lx. induction fuel as [| fuel IH]; intros lx Hq H; [lia |].
  cbn [lex_all]. unfold lexer_next. rewrite (empty_queue lx Hq).
  pose proof (lexer_scan_progress lx) as Hp.
  pose proof (lexer_scan_scans lx) as Hs.
  destruct (lexer_scan lx) as [t lx1]. cbn [fst snd] in *.
  fold (stops t).
  destruct (stops t) eqn:Et.
  - exists [], t. cbn. repeat split; auto. lia.
  - destruct Hp as [[E _] | [_ Hlt]].
    { unfold stops in Et. rewrite E in Et. discriminate. }
    pose proof (scans_remaining_lt _ _ Hs Hlt) as Hr.
    destruct Hs as (_ & _ & _ & _ & Hn & _).
    destruct (IH lx1) as (front & last & E1 & E2 & E3 & E4); [congruence | lia |].
    destruct (lex_all fuel lx1) as [ts lx2]. cbn [fst] in *. subst ts.
    exists (t :: front), last. cbn. repeat split; auto. lia.
Qed.

(** X1: the token loop of the drivers ([do token = lexer_next(lexer) while
    the token is neither [TOKEN_EOF] nor [TOKEN_ERROR]]) ends on every
    source: it reads at most one token per byte and then the token that stops
    it, and more rounds than that change nothing. *)
Theorem driver_loop_ends (src : string) (extra : nat) :
  let n := String.length src in
  lex_all (S n + extra) (lexer_create src) = lex_all (S n) (lexer_create src)
  /\ exists front last,
       fst (lex_all (S n) (lexer_create src)) = (front ++ [last])%list
       /\ stops last = true
       /\ Forall (fun t => stops t = false) front
       /\ (List.length front <= n)%nat.
Proof.
  cbv zeta. split.
  - apply lex_all_fuel; cbn; lia.
  - destruct (lex_all_ends (S (String.length src)) (lexer_create src))
      as (front & last & H); [cbn; lia | cbn; lia |].
    exists front, last. cbn in H. rewrite Nat.sub_0_r in H. exact H.
Qed.

(** X2: [lexer_peek_token(lexer, 1)], a lookahead within [MAX_LOOKAHEAD],
    never returns: whatever number of rounds its loop is given, it has not
    ended.  (Each round takes back with [lexer_next] the token queued the
    round before.) *)
Theorem peek_token_one_never_returns (lx : Lexer) (fuel : nat) :
  reachable lx ->
  1 < MAX_LOOKAHEAD /\ lexer_peek_token fuel lx 1 = None.
Proof.
  intros Hr. split; [reflexivity |]. apply peek_one_never_returns. exact Hr.
Qed.

Lemma peek_token_one_never_returns_witness :
  1 < MAX_LOOKAHEAD /\ lexer_peek_token 1000 (lexer_create "a b c") 1 = None.
Proof.
  apply (peek_token_one_never_returns (lexer_create "a b c") 1000).
  apply reach_create.
Defined.

(** ** Error tokens *)

Lemma best_operator_some (lx : Lexer) (table : list Operator) (b : Operator) :
  best_operator lx table (Some b) <> None.
Proof.
  revert b. induction table as [| o table IH]; intros b; cbn [best_operator].
  - discriminate.
  - destruct (operator_matches lx o); [| apply IH].
    destruct (_ <? _)%nat; apply IH.
Qed.

Lemma best_operator_found (lx : Lexer) (table : list Operator) (best : option Operator)
    (o : Operator) :
  In o table -> operator_matches lx o = true ->
  best_operator lx table best <> None.
Proof.
  revert best. induction table as [| o' table IH]; intros best Hin Hm; [contradiction |].
  cbn [best_operator]. destruct Hin as [-> | Hin].
  - rewrite Hm. destruct best as [b |].
    + destruct (_ <? _)%nat; apply best_operator_some.
    + apply best_operator_some.
  - apply IH; assumption.
Qed.

(** Every byte that starts an operator is an operator by itself. *)
Lemma starts_operator_matches (lx : Lexer) :
  starts_operator (lexer_peek_at lx 0) = true ->
  best_operator lx operator_table None <> None.
Proof.
  intros H.
  assert (Hex : exists o, In o operator_table /\ operator_matches lx o = true).
  { unfold starts_operator in H. apply existsb_exists in H.
    destruct H as (o0 & Hin & Hc).
    assert (Hone : forall c, In c ["+"; "-"; "*"; "/"; "%"; "="; "<"; ">"; "!"; "&"; "|";
                                   "^"; "~"]%char ->
                             lexer_peek_at lx 0 = c ->
                             exists o, In o operator_table /\ operator_matches lx o = true).
    { intros c Hc0 Hpk.
      exists (mkOperator (String c EmptyString) 1 TOKEN_OPERATOR). split.
      - cbn in Hc0. cbn.
        repeat (destruct Hc0 as [<- | Hc0]; [tauto |]). contradiction.
      - unfold operator_matches. cbn. rewrite Hpk, Ascii.eqb_refl. reflexivity. }
    cbn in Hin.
    repeat (destruct Hin as [<- | Hin];
            [cbn in Hc; apply Ascii.eqb_eq in Hc; refine (Hone _ _ Hc); cbn; tauto |]).
    contradiction. }
  destruct Hex as (o & Hin & Hm). eapply best_operator_found; eauto.
Qed.

Lemma keyword_is_not_ERROR (text : string) (ty : TokenType) :
  keyword_lookup keyword_table text = Some ty -> ty <> TOKEN_ERROR.
Proof.
  intros H. apply keyword_lookup_in in H. simpl in H.
  repeat (destruct H as [<- | H]; [discriminate |]). contradiction.
Qed.

Lemma lexer_scan_error_token (lx : Lexer) :
  tok_type (fst (lexer_scan lx)) = TOKEN_ERROR ->
  has_error (snd (lexer_scan lx)) = true
  /\ tok_length (fst (lexer_scan lx)) = 0
  /\ (tok_value (fst (lexer_scan lx)) = Some "Unclosed string"
      \/ tok_value (fst (lexer_scan lx)) = Some "Unknown character").
Proof.
  unfold lexer_scan.
  set (lx0 := skip_blanks_and_comments (budget lx) lx).
  destruct (lexer_peek lx0 =? NUL)%char; [discriminate |].
  destruct (lexer_peek lx0 =? "010")%char; [discriminate |].
  cbv zeta.
  destruct (isdigit (lexer_peek lx0)
            || ((lexer_peek lx0 =? ".")%char && isdigit (lexer_peek_at lx0 1))).
  { unfold lexer_read_number.
    destruct (if (lexer_peek (lexer_start_token lx0) =? "0")%char then _ else _)
      as [[h b] lx1].
    destruct (number_loop _ _ _ _ _ _) as [f lx2]. cbn [fst snd].
    rewrite tok_type_number_token. destruct f; discriminate. }
  destruct ((lexer_peek lx0 =? "034")%char || (lexer_peek lx0 =? "'")%char).
  { unfold lexer_read_string. rewrite lexer_advance_pair.
    destruct (negb _); cbn [fst snd]; [| discriminate].
    intros _. cbn. auto. }
  destruct (is_identifier_start (lexer_peek lx0)).
  { unfold lexer_read_identifier.
    destruct (keyword_lookup _ _) as [ty |] eqn:E; cbn [fst snd]; [| discriminate].
    cbn. intros ->. apply keyword_is_not_ERROR in E. contradiction. }
  destruct (starts_operator (lexer_peek_at lx0 0)) eqn:Eo.
  { unfold lexer_read_operator.
    pose proof (starts_operator_matches (lexer_start_token lx0) Eo) as Hb.
    destruct (best_operator _ _ _); [discriminate | contradiction]. }
  destruct (strchr punctuation_chars (lexer_peek lx0)).
  { rewrite lexer_advance_pair. discriminate. }
  cbn [fst snd]. intros _. rewrite has_error_advance. cbn. auto.
Qed.

(** X3: a [TOKEN_ERROR] that [lexer_next] scans comes with the error flag
    set; its length is 0 and its text is "Unclosed string" or "Unknown
    character".  (The "Unknown operator" token of [lexer_read_operator] is
    never made: every byte that starts an operator is an operator.) *)
Theorem error_token_sets_error_flag (lx : Lexer) :
  lookahead_pos lx <= 0 ->
  tok_type (fst (lexer_next lx)) = TOKEN_ERROR ->
  has_error (snd (lexer_next lx)) = true
  /\ tok_length (fst (lexer_next lx)) = 0
  /\ (tok_value (fst (lexer_next lx)) = Some "Unclosed string"
      \/ tok_value (fst (lexer_next lx)) = Some "Unknown character").
Proof.
  intros Hq. unfold lexer_next. rewrite (empty_queue lx Hq).
  apply lexer_scan_error_token.
Qed.

Lemma error_token_sets_error_flag_witness :
  let lx := lexer_create "x @" in
  let lx1 := snd (lexer_next lx) in
  has_error (snd (lexer_next lx1)) = true
  /\ tok_length (fst (lexer_next lx1)) = 0
  /\ (tok_value (fst (lexer_next lx1)) = Some "Unclosed string"
      \/ tok_value (fst (lexer_next lx1)) = Some "Unknown character").
Proof.
  apply (error_token_sets_error_flag (snd (lexer_next (lexer_create "x @")))).
  - vm_compute. discriminate.
  - vm_compute. reflexivity.
Defined.

(** ** What every scan keeps *)

Section ScanClosed.

Variable P : Lexer -> Prop.
Hypothesis HP : scan_closed P.

Let P_advance := proj1 HP.
Let P_error := proj1 (proj2 HP).
Let P_start := proj1 (proj2 (proj2 HP)).
Let P_cursor := proj1 (proj2 (proj2 (proj2 HP))).
Let P_string := proj2 (proj2 (proj2 (proj2 HP))).

Lemma skip_whitespace_loop_closed (fuel : nat) (lx : Lexer) :
  P lx -> P (skip_whitespace_loop fuel lx).
Proof.
  revert lx. induction fuel as [| fuel IH]; intros lx H; simpl; auto.
  destruct (lexer_peek lx =? NUL)%char; auto. destruct (_ || _); auto.
Qed.

Lemma line_comment_loop_closed (fuel : nat) (lx : Lexer) :
  P lx -> P (line_comment_loop fuel lx).
Proof.
  revert lx. induction fuel as [| fuel IH]; intros lx H; simpl; auto.
  destruct (_ && _); auto.
Qed.

Lemma block_comment_loop_closed (fuel : nat) (depth : Z) (lx : Lexer) :
  P lx -> P (snd (block_comment_loop fuel depth lx)).
Proof.
  revert depth lx. induction fuel as [| fuel IH]; intros depth lx H; simpl; auto.
  destruct (_ && _); simpl; auto.
  destruct (_ && _); [apply IH; auto |].
  destruct (_ && _); [apply IH; auto |].
  apply IH. destruct (lexer_peek lx =? "010")%char; auto.
Qed.

Lemma skip_blanks_and_comments_closed (fuel : nat) (lx : Lexer) :
  P lx -> P (skip_blanks_and_comments fuel lx).
Proof.
  revert lx. induction fuel as [| fuel IH]; intros lx H;
    cbn [skip_blanks_and_comments]; auto.
  assert (H1 : P (lexer_skip_whitespace lx)) by (apply skip_whitespace_loop_closed, H).
  set (lx0 := lexer_skip_whitespace lx) in *.
  unfold lexer_skip_line_comment.
  destruct (_ && _).
  { apply IH, line_comment_loop_closed. auto. }
  unfold lexer_skip_block_comment.
  destruct (_ && _); [| exact H1].
  pose proof (block_comment_loop_closed (budget lx0) 1 (advance (advance lx0))
                (P_advance _ (P_advance _ H1))) as H2.
  destruct (block_comment_loop _ _ _) as [d lx2]. cbn [snd] in H2.
  apply IH. destruct (d >? 0); auto.
Qed.

Lemma read_number_closed (lx : Lexer) : P lx -> P (snd (lexer_read_number lx)).
Proof.
  intros H. unfold lexer_read_number.
  set (pre := if (lexer_peek (lexer_start_token lx) =? "0")%char then _ else _).
  assert (Hpre : P (snd pre)).
  { subst pre. destruct (_ =? "0")%char; [| cbn [snd]; auto].
    destruct (_ || _); [cbn [snd]; auto |].
    destruct (_ || _); cbn [snd]; auto. }
  destruct pre as [[h b] lx1]. cbn [snd] in Hpre.
  assert (Hloop : forall fuel f e l, P l -> P (snd (number_loop fuel h b f e l))).
  { induction fuel as [| fuel IH]; intros f e l Hl; simpl; auto.
    repeat match goal with
           | |- context [if ?c then _ else _] => destruct c; simpl
           end; auto. }
  specialize (Hloop (budget lx1) false false lx1 Hpre).
  destruct (number_loop _ _ _ _ _ _) as [f lx2]. exact Hloop.
Qed.

Lemma read_identifier_closed (lx : Lexer) : P lx -> P (snd (lexer_read_identifier lx)).
Proof.
  intros H. unfold lexer_read_identifier.
  set (lx1 := advance (lexer_start_token lx)).
  assert (H1 : P lx1) by (subst lx1; auto).
  assert (Hloop : forall fuel l, P l -> P (identifier_loop fuel l)).
  { induction fuel as [| fuel IH]; intros l Hl; simpl; auto.
    destruct (is_identifier_char _); auto. destruct (_ >=? _); auto. }
  specialize (Hloop (budget lx1) lx1 H1).
  destruct (keyword_lookup _ _); exact Hloop.
Qed.

Lemma read_operator_closed (lx : Lexer) : P lx -> P (snd (lexer_read_operator lx)).
Proof.
  intros H. unfold lexer_read_operator.
  assert (Hn : forall n l, P l -> P (advance_n n l)).
  { induction n as [| n IH]; intros l Hl; simpl; auto. }
  destruct (best_operator _ _ _) as [o |]; cbn [snd]; auto.
Qed.

Lemma lexer_scan_closed (lx : Lexer) : P lx -> P (snd (lexer_scan lx)).
Proof.
  intros H. unfold lexer_scan.
  pose proof (skip_blanks_and_comments_closed (budget lx) lx H) as H0.
  set (lx0 := skip_blanks_and_comments (budget lx) lx) in *.
  destruct (lexer_peek lx0 =? NUL)%char; [exact H0 |].
  destruct (lexer_peek lx0 =? "010")%char; [cbn [snd]; auto |].
  cbv zeta.
  destruct (isdigit (lexer_peek lx0)
            || ((lexer_peek lx0 =? ".")%char && isdigit (lexer_peek_at lx0 1)));
    [apply read_number_closed, H0 |].
  destruct ((lexer_peek lx0 =? "034")%char || (lexer_peek lx0 =? "'")%char);
    [apply P_string, H0 |].
  destruct (is_identifier_start (lexer_peek lx0)); [apply read_identifier_closed, H0 |].
  destruct (starts_operator (lexer_peek_at lx0 0)); [apply read_operator_closed, H0 |].
  destruct (strchr punctuation_chars (lexer_peek lx0)).
  - rewrite lexer_advance_pair. cbn [snd]. auto.
  - cbn [snd]. auto.
Qed.

Hypothesis HQ : queue_closed P.

Lemma lexer_next_closed (lx : Lexer) : P lx -> P (snd (lexer_next lx)).
Proof.
  intros H. unfold lexer_next. destruct (lookahead_pos lx >? 0).
  - cbn [snd]. apply (proj1 HQ), H.
  - apply lexer_scan_closed, H.
Qed.

Lemma lexer_skip_closed (lx : Lexer) : P lx -> P (lexer_skip lx).
Proof.
  intros H. unfold lexer_skip. destruct (lookahead_pos lx >? 0).
  - apply (proj1 HQ), H.
  - pose proof (lexer_next_closed lx H) as H1.
    destruct (lexer_next lx) as [t lx1]. apply (proj2 HQ), H1.
Qed.

Lemma peek_fill_loop_closed (fuel : nat) (lx lx' : Lexer) (k : Z) :
  P lx -> peek_fill_loop fuel lx k = Some lx' -> P lx'.
Proof.
  revert lx. induction fuel as [| fuel IH]; intros lx H; cbn [peek_fill_loop];
    destruct (lookahead_pos lx <=? k); try discriminate;
    try (intros [= <-]; exact H).
  pose proof (lexer_next_closed lx H) as H1.
  destruct (lexer_next lx) as [t lx1]. cbn [snd] in H1.
  apply IH. apply (proj1 HQ), H1.
Qed.

Lemma lexer_peek_token_closed (fuel : nat) (lx lx' : Lexer) (k : Z) (t : Token) :
  P lx -> lexer_peek_token fuel lx k = Some (t, lx') -> P lx'.
Proof.
  intros H. unfold lexer_peek_token.
  destruct (_ || _); [intros [= _ <-]; exact H |].
  destruct (peek_fill_loop fuel lx k) as [lx1 |] eqn:E; [| discriminate].
  intros [= _ <-]. eapply peek_fill_loop_closed; eauto.
Qed.

(** What holds when a lexer is created and is kept by every write holds in
    every state a client reaches. *)
Lemma reachable_closed (lx : Lexer) :
  (forall src, P (lexer_create src)) -> reachable lx -> P lx.
Proof.
  intros H0. induction 1 as [src | lx _ IH | lx _ IH | lx lx' fuel k t _ IH Hpeek].
  - apply H0.
  - apply lexer_next_closed, IH.
  - apply lexer_skip_closed, IH.
  - eapply lexer_peek_token_closed; eauto.
Qed.

End ScanClosed.

Lemma read_string_step_closed (P : Lexer -> Prop) (lx : Lexer) :
  step_closed P -> (forall l, P l -> P (lexer_start_token l)) ->
  P lx -> P (snd (lexer_read_string lx)).
Proof.
  intros HP Hs H. unfold lexer_read_string. rewrite lexer_advance_pair.
  destruct HP as (Ha & He & Hb).
  set (lx1 := set_string_buffer (advance (lexer_start_token lx)) "").
  assert (H1 : P lx1) by (subst lx1; auto).
  pose proof (string_loop_closed _ (conj Ha (conj He Hb)) (budget lx1)
                (lexer_peek (lexer_start_token lx)) lx1 H1) as H2.
  destruct (negb _); cbn [snd]; auto.
Qed.

Lemma has_error_scan_closed : scan_closed (fun lx => has_error lx = true).
Proof.
  assert (Hs : step_closed (fun lx => has_error lx = true)).
  { split; [| split]; intros lx; intros; auto.
    rewrite has_error_advance. assumption. }
  split; [| split; [| split; [| split]]]; try (intros lx; intros; auto; fail).
  - apply Hs.
  - intros lx H. apply read_string_step_closed; auto.
Qed.

Lemma has_error_queue_closed : queue_closed (fun lx => has_error lx = true).
Proof. split; intros lx; intros; auto. Qed.

(** X4: nothing clears the error flag of the lexer: once set it is still set
    after [lexer_next], after [lexer_skip] and after a [lexer_peek_token]
    that returns. *)
Theorem lexer_error_flag_is_never_cleared (lx : Lexer) :
  has_error lx = true ->
  has_error (snd (lexer_next lx)) = true
  /\ has_error (lexer_skip lx) = true
  /\ forall fuel k t lx',
       lexer_peek_token fuel lx k = Some (t, lx') -> has_error lx' = true.
Proof.
  intros H. split; [| split].
  - apply (lexer_next_closed _ has_error_scan_closed has_error_queue_closed), H.
  - apply (lexer_skip_closed _ has_error_scan_closed has_error_queue_closed), H.
  - intros fuel k t lx' Hp.
    apply (lexer_peek_token_closed _ has_error_scan_closed has_error_queue_closed
             fuel lx lx' k t H Hp).
Qed.

Lemma lexer_error_flag_is_never_cleared_witness :
  let lx := snd (lexer_next (lexer_create "1.2.3 + x")) in
  has_error (snd (lexer_next lx)) = true
  /\ has_error (lexer_skip lx) = true
  /\ forall fuel k t lx',
       lexer_peek_token fuel lx k = Some (t, lx') -> has_error lx' = true.
Proof.
  apply (lexer_error_flag_is_never_cleared (snd (lexer_next (lexer_create "1.2.3 + x")))).
  vm_compute. reflexivity.
Defined.

(** ** The cursor stays inside the text *)


Lemma advance_start_position (lx : Lexer) :
  start_position (advance lx) = start_position lx.
Proof. apply (proj1 (start_position_step_closed (start_position lx))). reflexivity. Qed.

Lemma advance_source (lx : Lexer) : source (advance lx) = source lx.
Proof. apply (advance_scans lx). Qed.

Lemma within_text_step_closed :
  step_closed (fun lx => (start_position lx <= position lx <= String.length (source lx))%nat).
Proof.
  split; [| split]; intros lx; intros; auto.
  rewrite advance_start_position, advance_source.
  pose proof (advance_scans lx) as (_ & H1 & H2 & _).
  split; [lia |].
  destruct (Nat.eq_dec (position lx) (position (advance lx))) as [E | E]; [lia |].
  apply H2. lia.
Qed.

Lemma within_text_scan_closed :
  scan_closed (fun lx => (start_position lx <= position lx <= String.length (source lx))%nat).
Proof.
  pose proof within_text_step_closed as Hs.
  assert (Hstart : forall l, (start_position l <= position l <= String.length (source l))%nat ->
             (start_position (lexer_start_token l) <= position (lexer_start_token l)
              <= String.length (source (lexer_start_token l)))%nat).
  { intros l H. cbn. lia. }
  split; [| split; [| split; [| split]]].
  - apply Hs.
  - apply Hs.
  - exact Hstart.
  - intros lx ln col H. exact H.
  - intros lx H. apply read_string_step_closed; auto.
Qed.

(** X5: in every state a client reaches through [lexer_create],
    [lexer_next], [lexer_skip] and [lexer_peek_token], the cursor is inside
    the text or on its terminator, and not before the start of the token. *)
Theorem cursor_stays_within_source (lx : Lexer) :
  reachable lx ->
  (start_position lx <= position lx <= String.length (source lx))%nat.
Proof.
  apply (reachable_closed _ within_text_scan_closed).
  - split; intros l; intros; assumption.
  - intros src. cbn. lia.
Qed.

Lemma cursor_stays_within_source_witness :
  let lx := lexer_skip (snd (lexer_next (lexer_create "ab 'c"))) in
  (start_position lx <= position lx <= String.length (source lx))%nat.
Proof.
  apply (cursor_stays_within_source
           (lexer_skip (snd (lexer_next (lexer_create "ab 'c"))))).
  apply reach_skip, reach_next, reach_create.
Defined.

(** ** Which reader made a token *)

Lemma read_number_type (lx : Lexer) :
  tok_type (fst (lexer_read_number lx)) = TOKEN_NUMBER_INT
  \/ tok_type (fst (lexer_read_number lx)) = TOKEN_NUMBER_FLOAT.
Proof.
  unfold lexer_read_number.
  destruct (if (lexer_peek (lexer_start_token lx) =? "0")%char then _ else _)
    as [[h b] lx1].
  destruct (number_loop _ _ _ _ _ _) as [f lx2]. cbn [fst].
  rewrite tok_type_number_token. destruct f; auto.
Qed.


Lemma read_identifier_type (lx : Lexer) :
  tok_type (fst (lexer_read_identifier lx)) = TOKEN_IDENTIFIER
  \/ In (tok_type (fst (lexer_read_identifier lx))) (map snd keyword_table).
Proof.
  unfold lexer_read_identifier.
  destruct (keyword_lookup _ _) as [ty |] eqn:E; cbn [fst]; [right | left; reflexivity].
  apply keyword_lookup_in in E. exact E.
Qed.

Lemma read_operator_type (lx : Lexer) :
  tok_type (fst (lexer_read_operator lx)) = TOKEN_OPERATOR
  \/ tok_type (fst (lexer_read_operator lx)) = TOKEN_ERROR.
Proof.
  unfold lexer_read_operator. destruct (best_operator _ _ _); cbn; auto.
Qed.

Ltac not_keyword H :=
  cbn in H; repeat (destruct H as [H | H]; [discriminate H |]); contradiction.

(** The scan ends at the cursor, or hands over to one of the four readers. *)
Lemma lexer_scan_dispatch (lx : Lexer) :
  let lx0 := skip_blanks_and_comments (budget lx) lx in
  In (tok_type (fst (lexer_scan lx)))
     [TOKEN_EOF; TOKEN_NEWLINE; TOKEN_PUNCTUATION; TOKEN_ERROR]
  \/ (lexer_scan lx = lexer_read_number lx0
      /\ isdigit (lexer_peek lx0)
         || ((lexer_peek lx0 =? ".")%char && isdigit (lexer_peek_at lx0 1)) = true)
  \/ (lexer_scan lx = lexer_read_string lx0
      /\ (lexer_peek lx0 = "034"%char \/ lexer_peek lx0 = "'"%char))
  \/ (lexer_scan lx = lexer_read_identifier lx0
      /\ is_identifier_start (lexer_peek lx0) = true)
  \/ lexer_scan lx = lexer_read_operator lx0.
Proof.
  cbv zeta. unfold lexer_scan.
  set (lx0 := skip_blanks_and_comments (budget lx) lx).
  destruct (lexer_peek lx0 =? NUL)%char;
    [left; cbn [fst tok_type lexer_make_token In]; tauto |].
  destruct (lexer_peek lx0 =? "010")%char;
    [left; cbn [fst tok_type lexer_make_token In]; tauto |].
  cbv zeta.
  destruct (isdigit (lexer_peek lx0)
            || ((lexer_peek lx0 =? ".")%char && isdigit (lexer_peek_at lx0 1))) eqn:En;
    [right; left; split; reflexivity |].
  destruct ((lexer_peek lx0 =? "034")%char || (lexer_peek lx0 =? "'")%char) eqn:Eq.
  { right; right; left. split; [reflexivity |].
    apply orb_true_iff in Eq. rewrite !Ascii.eqb_eq in Eq. exact Eq. }
  destruct (is_identifier_start (lexer_peek lx0)) eqn:Ei;
    [right; right; right; left; split; reflexivity |].
  destruct (starts_operator (lexer_peek_at lx0 0));
    [right; right; right; right; reflexivity |].
  left. destruct (strchr punctuation_chars (lexer_peek lx0)).
  - rewrite lexer_advance_pair. cbn [fst tok_type lexer_make_token In]. tauto.
  - cbn [fst tok_type lexer_make_token set_length In]. tauto.
Qed.


Lemma scan_string (lx : Lexer) :
  tok_type (fst (lexer_scan lx)) = TOKEN_STRING ->
  lexer_scan lx = lexer_read_string (skip_blanks_and_comments (budget lx) lx).
Proof.
  intros Ht.
  destruct (lexer_scan_dispatch lx) as [H | [[E _] | [[E _] | [[E _] | E]]]].
  - rewrite Ht in H. not_keyword H.
  - rewrite E in Ht.
    destruct (read_number_type (skip_blanks_and_comments (budget lx) lx)) as [H | H];
      rewrite H in Ht; discriminate Ht.
  - exact E.
  - rewrite E in Ht.
    destruct (read_identifier_type (skip_blanks_and_comments (budget lx) lx)) as [H | H].
    + rewrite H in Ht. discriminate Ht.
    + rewrite Ht in H. not_keyword H.
  - rewrite E in Ht.
    destruct (read_operator_type (skip_blanks_and_comments (budget lx) lx)) as [H | H];
      rewrite H in Ht; discriminate Ht.
Qed.

(** ** Bounds *)

Lemma c_str_length (s : string) : (String.length (c_str s) <= String.length s)%nat.
Proof.
  induction s as [| c s IH]; simpl; [lia |].
  destruct (c =? NUL)%char; simpl; lia.
Qed.






(** ** The string buffer *)

Lemma string_buffer_advance (lx : Lexer) : string_buffer (advance lx) = string_buffer lx.
Proof.
  unfold advance, lexer_advance.
  destruct (_ =? NUL)%char; auto. destruct (_ =? "010")%char; auto.
Qed.

Lemma unicode_escape_loop_buffer (n : nat) (lx : Lexer) :
  string_buffer (unicode_escape_loop n lx) = string_buffer lx.
Proof.
  revert lx. induction n as [| n IH]; intros lx; cbn [unicode_escape_loop]; [reflexivity |].
  rewrite lexer_advance_pair.
  destruct (negb _); [cbn; apply string_buffer_advance |].
  rewrite IH. apply string_buffer_advance.
Qed.

Lemma read_escape_buffer (c : ascii) (lx : Lexer) :
  string_buffer (snd (read_escape c lx)) = string_buffer lx.
Proof.
  unfold read_escape. rewrite lexer_advance_pair.
  repeat match goal with
         | |- context [if (?a =? ?b)%char then _ else _] =>
             destruct (a =? b)%char; cbn [snd]; [try apply string_buffer_advance |]
         end.
  - rewrite !lexer_advance_pair. cbn [snd]. rewrite !string_buffer_advance. reflexivity.
  - rewrite unicode_escape_loop_buffer. apply string_buffer_advance.
  - cbn. apply string_buffer_advance.
Qed.

Lemma string_loop_buffer (fuel : nat) (quote : ascii) (lx : Lexer) :
  string_buffer_pos lx <= MAX_STRING_LENGTH - 1 ->
  string_buffer_pos (string_loop fuel quote lx) <= MAX_STRING_LENGTH - 1.
Proof.
  revert lx. induction fuel as [| fuel IH]; intros lx H; cbn [string_loop]; [exact H |].
  destruct (_ && _); [| exact H].
  rewrite lexer_advance_pair.
  set (r := if (lexer_peek lx =? "\")%char then _ else _).
  assert (Hb : string_buffer (snd r) = string_buffer lx).
  { subst r. destruct (_ =? "\")%char; cbn [snd].
    - rewrite read_escape_buffer. apply string_buffer_advance.
    - apply string_buffer_advance. }
  destruct r as [c lx2]. cbn [snd] in Hb.
  destruct (string_buffer_pos lx2 >=? MAX_STRING_LENGTH - 1) eqn:E.
  - unfold string_buffer_pos in *. cbn. rewrite Hb. exact H.
  - apply IH. rewrite Z.geb_leb in E. apply Z.leb_gt in E.
    unfold string_buffer_pos in *. cbn [set_string_buffer string_buffer].
    rewrite string_length_app. cbn [String.length]. lia.
Qed.

Lemma read_string_buffer (lx : Lexer) :
  string_buffer_pos (snd (lexer_read_string lx)) <= MAX_STRING_LENGTH - 1.
Proof.
  unfold lexer_read_string. rewrite lexer_advance_pair.
  set (lx1 := set_string_buffer (advance (lexer_start_token lx)) "").
  pose proof (string_loop_buffer (budget lx1) (lexer_peek (lexer_start_token lx)) lx1)
    as H.
  specialize (H ltac:(cbn; unfold MAX_STRING_LENGTH; lia)).
  destruct (negb _); cbn [snd].
  - exact H.
  - unfold string_buffer_pos in *. rewrite string_buffer_advance. exact H.
Qed.

Lemma buffer_scan_closed :
  scan_closed (fun lx => string_buffer_pos lx <= MAX_STRING_LENGTH - 1).
Proof.
  split; [| split; [| split; [| split]]]; intros lx; intros; auto.
  - unfold string_buffer_pos. rewrite string_buffer_advance. assumption.
  - apply read_string_buffer.
Qed.

(** X7: the string buffer never overflows: in every reachable state it holds
    at most [MAX_STRING_LENGTH - 1] bytes, which leaves room for the
    terminator, and the text of a string token is no longer than that. *)
Theorem string_buffer_never_overflows (lx : Lexer) :
  reachable lx ->
  string_buffer_pos lx <= MAX_STRING_LENGTH - 1
  /\ forall v,
       tok_type (fst (lexer_next lx)) = TOKEN_STRING ->
       tok_value (fst (lexer_next lx)) = Some v ->
       lookahead_pos lx = 0 ->
       Z.of_nat (String.length v) <= MAX_STRING_LENGTH - 1.
Proof.
  intros Hr. split.
  - revert Hr. apply (reachable_closed _ buffer_scan_closed).
    + split; intros l; intros; assumption.
    + intros src. cbn. unfold MAX_STRING_LENGTH. lia.
  - intros v Ht Hv Hq. unfold lexer_next in *.
    rewrite (empty_queue lx) in * by lia.
    pose proof (scan_string lx Ht) as E.
    rewrite E in *. clear E.
    set (lx0 := skip_blanks_and_comments (budget lx) lx) in *.
    pose proof (read_string_buffer lx0) as Hb.
    revert Ht Hv Hb. unfold lexer_read_string. rewrite lexer_advance_pair.
    set (l2 := string_loop _ _ _).
    destruct (negb _); cbn [fst snd tok_type tok_value lexer_make_token set_length
                              option_map]; [intros Ht; discriminate Ht |].
    intros _ [= <-] Hb. unfold string_buffer_pos, MAX_STRING_LENGTH in *.
    match goal with
    | |- Z.of_nat (String.length (c_str ?b)) <= _ => pose proof (c_str_length b)
    end.
    lia.
Qed.

Lemma string_buffer_never_overflows_witness :
  let lx := lexer_create (String "'" (replicate 5000 "a")) in
  string_buffer_pos (snd (lexer_next lx)) <= MAX_STRING_LENGTH - 1
  /\ forall v,
       tok_type (fst (lexer_next (snd (lexer_next lx)))) = TOKEN_STRING ->
       tok_value (fst (lexer_next (snd (lexer_next lx)))) = Some v ->
       lookahead_pos (snd (lexer_next lx)) = 0 ->
       Z.of_nat (String.length v) <= MAX_STRING_LENGTH - 1.
Proof.
  apply (string_buffer_never_overflows
           (snd (lexer_next (lexer_create (String "'" (replicate 5000 "a")))))).
  apply reach_next, reach_create.
Defined.


(** ** The end of input *)

Lemma skip_blanks_and_comments_at_end (lx : Lexer) :
  lexer_peek lx = NUL -> skip_blanks_and_comments (budget lx) lx = lx.
Proof.
  intros H. apply skip_blanks_and_comments_noop; rewrite H; reflexivity.
Qed.

(** Only the end of the text makes an end-of-input token. *)
Lemma scan_end_of_input (lx : Lexer) :
  tok_type (fst (lexer_scan lx)) = TOKEN_EOF ->
  let lx0 := skip_blanks_and_comments (budget lx) lx in
  lexer_peek lx0 = NUL /\ lexer_scan lx = (lexer_make_token lx0 TOKEN_EOF None, lx0).
Proof.
  cbv zeta. unfold lexer_scan.
  set (lx0 := skip_blanks_and_comments (budget lx) lx).
  destruct (lexer_peek lx0 =? NUL)%char eqn:En.
  { intros _. split; [apply Ascii.eqb_eq, En | reflexivity]. }
  apply Ascii.eqb_neq in En. intros Ht. exfalso. revert Ht.
  destruct (lexer_peek lx0 =? "010")%char;
    [cbn [fst tok_type lexer_make_token]; intros Ht; discriminate Ht |].
  cbv zeta.
  destruct (isdigit (lexer_peek lx0)
            || ((lexer_peek lx0 =? ".")%char && isdigit (lexer_peek_at lx0 1))) eqn:Ed;
    [apply (read_number_progress lx0 Ed) |].
  destruct ((lexer_peek lx0 =? "034")%char || (lexer_peek lx0 =? "'")%char);
    [apply (read_string_progress lx0 En) |].
  destruct (is_identifier_start (lexer_peek lx0));
    [apply (read_identifier_progress lx0 En) |].
  destruct (starts_operator (lexer_peek_at lx0 0));
    [apply (read_operator_progress lx0 En) |].
  destruct (strchr punctuation_chars (lexer_peek lx0)).
  - rewrite lexer_advance_pair. cbn [fst tok_type lexer_make_token].
    intros Ht; discriminate Ht.
  - cbn [fst tok_type lexer_make_token set_length]. intros Ht; discriminate Ht.
Qed.

(** X8: once [lexer_next] has returned the end-of-input token with an empty
    queue, every later call returns that same token and leaves the lexer as
    it is. *)
Theorem end_of_input_is_final (lx : Lexer) :
  lookahead_pos lx <= 0 ->
  tok_type (fst (lexer_next lx)) = TOKEN_EOF ->
  let t := fst (lexer_next lx) in
  let lx' := snd (lexer_next lx) in
  lexer_next lx' = (t, lx')
  /\ forall n, next_tokens n lx' = List.repeat t n.
Proof.
  intros Hq. unfold lexer_next at 1 2 3. rewrite (empty_queue lx Hq).
  intros Ht. destruct (scan_end_of_input lx Ht) as [Hend E].
  pose proof (skip_blanks_and_comments_scans (budget lx) lx) as (_ & _ & _ & _ & Hn & _).
  rewrite E. cbn [fst snd].
  set (lx0 := skip_blanks_and_comments (budget lx) lx) in *.
  assert (Hnext : lexer_next lx0 = (lexer_make_token lx0 TOKEN_EOF None, lx0)).
  { unfold lexer_next. rewrite (empty_queue lx0) by lia.
    unfold lexer_scan. rewrite (skip_blanks_and_comments_at_end lx0 Hend).
    apply Ascii.eqb_eq in Hend. rewrite Hend. reflexivity. }
  split; [exact Hnext |].
  induction n as [| n IH]; [reflexivity |].
  cbn [next_tokens List.repeat]. rewrite Hnext. f_equal. exact IH.
Qed.

Lemma end_of_input_is_final_witness :
  let lx := snd (lexer_next (lexer_create "x /* y")) in
  lexer_next (snd (lexer_next lx)) = (fst (lexer_next lx), snd (lexer_next lx))
  /\ forall n, next_tokens n (snd (lexer_next lx)) = List.repeat (fst (lexer_next lx)) n.
Proof.
  apply (end_of_input_is_final (snd (lexer_next (lexer_create "x /* y")))).
  - vm_compute. discriminate.
  - vm_compute. reflexivity.
Defined.

(** The blanks and comments skipped in front of a token leave the start of
    the token before in place. *)
Lemma skip_blanks_and_comments_start (fuel : nat) (lx : Lexer) :
  let lx' := skip_blanks_and_comments fuel lx in
  start_position lx' = start_position lx
  /\ start_line lx' = start_line lx
  /\ start_column lx' = start_column lx.
Proof.
  cbv zeta.
  assert (Hadv : forall l, start_position (advance l) = start_position l
                           /\ start_line (advance l) = start_line l
                           /\ start_column (advance l) = start_column l).
  { intros l. unfold advance, lexer_advance.
    destruct (_ =? NUL)%char; [auto |]. destruct (_ =? "010")%char; auto. }
  set (P := fun l => start_position l = start_position lx
                     /\ start_line l = start_line lx
                     /\ start_column l = start_column lx).
  assert (Pa : forall l, P l -> P (advance l)).
  { intros l (A & B & C0). destruct (Hadv l) as (A' & B' & C').
    unfold P. rewrite A', B', C'. auto. }
  assert (Hws : forall k l, P l -> P (skip_whitespace_loop k l)).
  { induction k as [| k IH]; intros l Hl; simpl; auto.
    destruct (lexer_peek l =? NUL)%char; auto. destruct (_ || _); auto. }
  assert (Hlc : forall k l, P l -> P (line_comment_loop k l)).
  { induction k as [| k IH]; intros l Hl; simpl; auto.
    destruct (_ && _); auto. }
  assert (Hbc : forall k d l, P l -> P (snd (block_comment_loop k d l))).
  { induction k as [| k IH]; intros d l Hl; simpl; auto.
    destruct (_ && _); simpl; auto.
    destruct (_ && _); [apply IH; auto |].
    destruct (_ && _); [apply IH; auto |].
    apply IH. destruct (lexer_peek l =? "010")%char; auto. }
  assert (Hall : forall k l, P l -> P (skip_blanks_and_comments k l)).
  { induction k as [| k IH]; intros l Hl; cbn [skip_blanks_and_comments]; auto.
    assert (H1 : P (lexer_skip_whitespace l)) by (apply Hws, Hl).
    set (l0 := lexer_skip_whitespace l) in *.
    unfold lexer_skip_line_comment.
    destruct (_ && _); [apply IH, Hlc; auto |].
    unfold lexer_skip_block_comment.
    destruct (_ && _); [| exact H1].
    pose proof (Hbc (budget l0) 1 (advance (advance l0)) (Pa _ (Pa _ H1))) as H2.
    destruct (block_comment_loop _ _ _) as [d l2]. cbn [snd] in H2.
    apply IH. destruct (d >? 0); auto. }
  apply (Hall fuel lx). unfold P. auto.
Qed.

(** X9: the end-of-input token is made without [lexer_start_token]: it has
    no text, it carries the line and column at which the token before it
    started, and its length runs from that start to the end of the text. *)
Theorem end_of_input_token_is_placed_at_previous_token (lx : Lexer) :
  lookahead_pos lx <= 0 ->
  tok_type (fst (lexer_next lx)) = TOKEN_EOF ->
  let t := fst (lexer_next lx) in
  let lx' := snd (lexer_next lx) in
  tok_value t = None
  /\ tok_line t = start_line lx
  /\ tok_column t = start_column lx
  /\ tok_length t = Z.of_nat (position lx') - Z.of_nat (start_position lx).
Proof.
  intros Hq. unfold lexer_next. rewrite (empty_queue lx Hq).
  intros Ht. destruct (scan_end_of_input lx Ht) as [_ E]. rewrite E. cbn [fst snd].
  destruct (skip_blanks_and_comments_start (budget lx) lx) as (A & B & C0).
  unfold lexer_make_token. cbn [tok_value tok_line tok_column tok_length option_map].
  rewrite A, B, C0. repeat split.
Qed.

Lemma end_of_input_token_is_placed_at_previous_token_witness :
  let lx := snd (lexer_next (lexer_create "ab  ")) in
  tok_value (fst (lexer_next lx)) = None
  /\ tok_line (fst (lexer_next lx)) = start_line lx
  /\ tok_column (fst (lexer_next lx)) = start_column lx
  /\ tok_length (fst (lexer_next lx))
     = Z.of_nat (position (snd (lexer_next lx))) - Z.of_nat (start_position lx).
Proof.
  apply (end_of_input_token_is_placed_at_previous_token
           (snd (lexer_next (lexer_create "ab  ")))).
  - vm_compute. discriminate.
  - vm_compute. reflexivity.
Defined.


(** * Further properties of the parser *)





(** ** Word operators *)

Lemma keyword_token_has_no_text (lx : Lexer) :
  tok_type (fst (lexer_read_identifier lx)) <> TOKEN_IDENTIFIER ->
  tok_value (fst (lexer_read_identifier lx)) = None.
Proof.
  unfold lexer_read_identifier.
  destruct (keyword_lookup _ _); cbn [fst tok_type tok_value lexer_make_token option_map];
    [reflexivity | congruence].
Qed.

Lemma textless_token_matches_no_text (p : Parser) (type : TokenType) (v : string) :
  tok_value (p_current p) = None -> parser_match p type (Some v) = (false, p).
Proof.
  intros H. unfold parser_match, parser_check_value. rewrite H.
  destruct (negb _); reflexivity.
Qed.

(** X12: the lexer gives a keyword token no text, and [parser_check_value]
    rejects a token without text when a text is asked for; so on a keyword
    token neither [and], nor [or], nor [not] is matched as an operator,
    whatever token kind [TOKEN_KEYWORD] stands for. *)
Theorem word_operators_are_never_matched (kw : TokenType) (lx : Lexer) (p : Parser) :
  p_current p = fst (lexer_read_identifier lx) ->
  tok_type (p_current p) <> TOKEN_IDENTIFIER ->
  parser_match_any p (logical_and_ops kw) = (false, p)
  /\ parser_match_any p (logical_or_ops kw) = (false, p)
  /\ match_unary p (unary_ops kw) = (None, p).
Proof.
  intros E Ht. rewrite E in Ht.
  pose proof (keyword_token_has_no_text lx Ht) as Hv. rewrite <- E in Hv.
  unfold logical_and_ops, logical_or_ops, unary_ops, op.
  cbn [parser_match_any match_unary].
  rewrite !(textless_token_matches_no_text p _ _ Hv). repeat split.
Qed.

Lemma word_operators_are_never_matched_witness :
  let p := parser_advance (primed "x and y") in
  parser_match_any p (logical_and_ops TOKEN_AND) = (false, p)
  /\ parser_match_any p (logical_or_ops TOKEN_AND) = (false, p)
  /\ match_unary p (unary_ops TOKEN_AND) = (None, p).
Proof.
  apply (word_operators_are_never_matched TOKEN_AND
           (advance (snd (lexer_next (lexer_create "x and y"))))
           (parser_advance (primed "x and y"))).
  - vm_compute. reflexivity.
  - vm_compute. discriminate.
Defined.
